(** * backup: staged include/exclude rule compiler and tar emission

    A shallow embedding of [backup.go] and of the metadata capture
    ([buildTarHeader]) of the [backup] command, with the properties of its
    rule compiler, its per-file archiving and its stream set-up.

    Conventions.
    - Go [string]s are [string]s of bytes; Go slices are [list]s.
    - Fixed-width integers ([uint32] modes and ids, [os.FileMode]) are [Z]
      and the bit operations are [Z.land], [Z.lor] and [Z.shiftl].
    - A Go [error] is [option string], [None] being [nil].
    - Code that can panic at run time returns a [run]. *)

From Stdlib Require Import String Ascii List ZArith Lia Bool.
From Stdlib.Strings Require Import Byte.
Import ListNotations.
Local Open Scope string_scope.
Local Open Scope list_scope.

Set Implicit Arguments.

(* ===================================================================== *)
(** * Part I: the program                                                 *)
(* ===================================================================== *)

(** ** Go run time *)

Definition error := option string.

Inductive run (A : Type) : Type :=
| Done (a : A)
| Panic.
Arguments Panic {A}.

(** [s[n:]] on a slice: a run-time panic when [n] exceeds [len(s)]. *)
Definition sliceFrom {A : Type} (n : nat) (s : list A) : run (list A) :=
  if (n <=? length s)%nat then Done (skipn n s) else Panic.

(** ** Package [syscall]/[unix]: the [st_mode] bits *)

Module unix.
Definition S_IFMT : Z := 61440.   (* 0o170000 *)
Definition S_IFSOCK : Z := 49152. (* 0o140000 *)
Definition S_IFLNK : Z := 40960.  (* 0o120000 *)
Definition S_IFREG : Z := 32768.  (* 0o100000 *)
Definition S_IFBLK : Z := 24576.  (* 0o060000 *)
Definition S_IFDIR : Z := 16384.  (* 0o040000 *)
Definition S_IFCHR : Z := 8192.   (* 0o020000 *)
Definition S_IFIFO : Z := 4096.   (* 0o010000 *)
Definition S_ISUID : Z := 2048.   (* 0o4000 *)
Definition S_ISGID : Z := 1024.   (* 0o2000 *)
Definition S_ISVTX : Z := 512.    (* 0o1000 *)
End unix.

(** ** Package [os]: file modes *)

Module os.
Definition ModeDir : Z := Z.shiftl 1 31.
Definition ModeAppend : Z := Z.shiftl 1 30.
Definition ModeExclusive : Z := Z.shiftl 1 29.
Definition ModeTemporary : Z := Z.shiftl 1 28.
Definition ModeSymlink : Z := Z.shiftl 1 27.
Definition ModeDevice : Z := Z.shiftl 1 26.
Definition ModeNamedPipe : Z := Z.shiftl 1 25.
Definition ModeSocket : Z := Z.shiftl 1 24.
Definition ModeSetuid : Z := Z.shiftl 1 23.
Definition ModeSetgid : Z := Z.shiftl 1 22.
Definition ModeCharDevice : Z := Z.shiftl 1 21.
Definition ModeSticky : Z := Z.shiftl 1 20.
Definition ModeIrregular : Z := Z.shiftl 1 19.

Definition ModeType : Z :=
  Z.lor ModeDir (Z.lor ModeSymlink (Z.lor ModeNamedPipe (Z.lor ModeSocket
    (Z.lor ModeDevice (Z.lor ModeCharDevice ModeIrregular))))).

(** [os.FileInfo], reduced to what the program reads from it. *)
Record FileInfo := { Name : string; Mode : Z }.

Definition IsDir (info : FileInfo) : bool :=
  negb (Z.land (Mode info) ModeDir =? 0)%Z.

Definition IsRegular (info : FileInfo) : bool :=
  (Z.land (Mode info) ModeType =? 0)%Z.

(** The [FileMode] that [os.Lstat] derives from a raw [st_mode] on Unix:
    the nine permission bits, one type flag chosen by [st_mode & S_IFMT],
    and the setuid, setgid and sticky flags. *)
Definition typeFlags (st_mode : Z) : Z :=
  let t := Z.land st_mode unix.S_IFMT in
  if (t =? unix.S_IFBLK)%Z then ModeDevice
  else if (t =? unix.S_IFCHR)%Z then Z.lor ModeDevice ModeCharDevice
  else if (t =? unix.S_IFDIR)%Z then ModeDir
  else if (t =? unix.S_IFIFO)%Z then ModeNamedPipe
  else if (t =? unix.S_IFLNK)%Z then ModeSymlink
  else if (t =? unix.S_IFSOCK)%Z then ModeSocket
  else 0%Z.

Definition flagIf (st_mode bit flag : Z) : Z :=
  if (Z.land st_mode bit =? 0)%Z then 0%Z else flag.

Definition fileMode (st_mode : Z) : Z :=
  Z.lor (Z.lor (Z.lor (Z.lor (Z.land st_mode 511) (typeFlags st_mode))
                      (flagIf st_mode unix.S_ISGID ModeSetgid))
               (flagIf st_mode unix.S_ISUID ModeSetuid))
        (flagIf st_mode unix.S_ISVTX ModeSticky).
End os.

(** ** The file tree seen by a run

    An entry has the name its directory lists it under, the raw [st_mode]
    that [lstat] reports for it, and what reading it as a directory gives:
    [readable = false] when [readDirNames] fails, else [entries] in the
    (sorted) order [readDirNames] returns them.  The tree does not change
    during a run. *)

Unset Elimination Schemes.
Inductive node : Type :=
| Node (name : string) (st_mode : Z) (readable : bool) (entries : list node).
Set Elimination Schemes.

Definition nodeName (n : node) : string :=
  match n with Node name _ _ _ => name end.

Definition nodeMode (n : node) : Z :=
  match n with Node _ st_mode _ _ => st_mode end.

Definition nodeEntries (n : node) : list node :=
  match n with Node _ _ _ entries => entries end.

Definition nodeReadable (n : node) : bool :=
  match n with Node _ _ readable _ => readable end.

(** [os.Lstat] on an entry of the tree. *)
Definition lstat (n : node) : os.FileInfo :=
  {| os.Name := nodeName n; os.Mode := os.fileMode (nodeMode n) |}.

(** ** Package [strings], on byte strings *)

Module strings.

(** [strings.Split(s, sep)] for a one-byte separator. *)
Fixpoint splitByte (sep : ascii) (s : string) : list string :=
  match s with
  | EmptyString => [EmptyString]
  | String c r =>
      if (c =? sep)%char then EmptyString :: splitByte sep r
      else match splitByte sep r with
           | [] => [String c EmptyString]
           | seg :: segs => String c seg :: segs
           end
  end.

Fixpoint trimLeft (p : ascii -> bool) (s : string) : string :=
  match s with
  | EmptyString => EmptyString
  | String c r => if p c then trimLeft p r else s
  end.

Fixpoint trimRight (p : ascii -> bool) (s : string) : string :=
  match s with
  | EmptyString => EmptyString
  | String c r =>
      let r' := trimRight p r in
      if p c && (r' =? "")%string then EmptyString else String c r'
  end.

(** White space as [TrimSpace] sees it in ASCII text: tab, line feed,
    vertical tab, form feed, carriage return, space. *)
Definition isSpace (c : ascii) : bool :=
  let n := nat_of_ascii c in
  ((9 <=? n) && (n <=? 13))%nat || (n =? 32)%nat.

Definition TrimSpace (s : string) : string :=
  trimRight isSpace (trimLeft isSpace s).

Fixpoint containsByte (c : ascii) (s : string) : bool :=
  match s with
  | EmptyString => false
  | String d r => (d =? c)%char || containsByte c r
  end.

End strings.

(** ** Packages [path] and [path/filepath] *)

Module filepath.

Definition isSlash (c : ascii) : bool := (c =? "/")%char.

Definition splitSlash (s : string) : list string :=
  strings.splitByte "/" s.

(** The elements kept by [Clean], innermost last in [out] reversed. *)
Fixpoint cleanSegs (rooted : bool) (segs out : list string) : list string :=
  match segs with
  | [] => rev out
  | seg :: rest =>
      if (seg =? "")%string then cleanSegs rooted rest out
      else if (seg =? ".")%string then cleanSegs rooted rest out
      else if (seg =? "..")%string then
        match out with
        | top :: out' =>
            if (top =? "..")%string then cleanSegs rooted rest (seg :: out)
            else cleanSegs rooted rest out'
        | [] => if rooted then cleanSegs rooted rest []
                else cleanSegs rooted rest [seg]
        end
      else cleanSegs rooted rest (seg :: out)
  end.

Definition isRooted (path : string) : bool :=
  match path with
  | String c _ => isSlash c
  | EmptyString => false
  end.

Definition Clean (path : string) : string :=
  let rooted := isRooted path in
  let body := String.concat "/" (cleanSegs rooted (splitSlash path) []) in
  if rooted then "/" ++ body
  else if (body =? "")%string then "." else body.

(** [Join(dir, name)]: empty leading elements are dropped, the rest is
    joined with a slash and cleaned. *)
Definition Join (dir name : string) : string :=
  if (dir =? "")%string then
    if (name =? "")%string then "" else Clean name
  else Clean (dir ++ "/" ++ name).

(** [path.Base]. *)
Definition stripTrailingSlashes (s : string) : string :=
  strings.trimRight isSlash s.

Fixpoint afterLastSlash (acc s : string) : string :=
  match s with
  | EmptyString => acc
  | String c r => if isSlash c then afterLastSlash r r else afterLastSlash acc r
  end.

Definition Base (path : string) : string :=
  if (path =? "")%string then "."
  else
    let p := stripTrailingSlashes path in
    let p := afterLastSlash p p in
    if (p =? "")%string then "/" else p.

(** *** [filepath.Match]

    A port of the Unix matcher on byte strings: the pattern is cut into
    chunks at each star outside a bracket, and each chunk is matched at
    the first position that fits.  One byte stands for one rune, which
    agrees with Go on ASCII patterns and names. *)

Inductive chunkResult :=
| BadPattern                  (* ErrBadPattern *)
| NoMatch
| Matched (rest : string).

(** [getEsc]: one possibly escaped character of a bracket range, which
    must be followed by more of the pattern. *)
Definition getEsc (chunk : string) : option (ascii * string) :=
  match chunk with
  | EmptyString => None
  | String c rest =>
      if (c =? "-")%char || (c =? "]")%char then None
      else if (c =? "\")%char then
        match rest with
        | EmptyString => None
        | String r EmptyString => None
        | String r rest' => Some (r, rest')
        end
      else
        match rest with
        | EmptyString => None
        | _ => Some (c, rest)
        end
  end.

Definition inRange (lo r hi : ascii) : bool :=
  ((nat_of_ascii lo <=? nat_of_ascii r)
   && (nat_of_ascii r <=? nat_of_ascii hi))%nat.

(** The range loop of a bracket class: whether [r] is in some range, and
    the pattern after the closing bracket. *)
Fixpoint ranges (fuel : nat) (chunk : string) (r : ascii)
    (found started : bool) : option (bool * string) :=
  match fuel with
  | O => None
  | S fuel =>
      let next :=
        match getEsc chunk with
        | None => None
        | Some (lo, chunk1) =>
            match chunk1 with
            | String "-"%char chunk2 =>
                match getEsc chunk2 with
                | None => None
                | Some (hi, chunk3) =>
                    ranges fuel chunk3 r (found || inRange lo r hi) true
                end
            | _ => ranges fuel chunk1 r (found || inRange lo r lo) true
            end
        end in
      match chunk with
      | String "]"%char rest => if started then Some (found, rest) else next
      | _ => next
      end
  end.

(** [matchChunk]: match a star-free chunk at the start of [s]. *)
Fixpoint matchChunk (fuel : nat) (chunk s : string) (failed : bool)
    : chunkResult :=
  match fuel with
  | O => BadPattern
  | S fuel =>
      match chunk with
      | EmptyString => if failed then NoMatch else Matched s
      | String c chunk1 =>
          let failed := failed || (s =? "")%string in
          let literal (c : ascii) (chunk' : string) :=
            match s with
            | String x s1 =>
                if failed then matchChunk fuel chunk' s true
                else matchChunk fuel chunk' s1 (negb (x =? c)%char)
            | EmptyString => matchChunk fuel chunk' s true
            end in
          if (c =? "[")%char then
            let (r, s1) :=
              match s with
              | String x s1 => if failed then (zero, s) else (x, s1)
              | EmptyString => (zero, s)
              end in
            let (negated, chunk2) :=
              match chunk1 with
              | String "^"%char chunk2 => (true, chunk2)
              | _ => (false, chunk1)
              end in
            match ranges (String.length chunk2) chunk2 r false false with
            | None => BadPattern
            | Some (found, chunk3) =>
                matchChunk fuel chunk3 s1 (failed || Bool.eqb found negated)
            end
          else if (c =? "?")%char then
            match s with
            | String x s1 =>
                if failed then matchChunk fuel chunk1 s true
                else matchChunk fuel chunk1 s1 (isSlash x)
            | EmptyString => matchChunk fuel chunk1 s true
            end
          else if (c =? "\")%char then
            match chunk1 with
            | EmptyString => BadPattern
            | String c' chunk2 => literal c' chunk2
            end
          else literal c chunk1
      end
  end.

(** [scanChunk]: the leading stars, then the chunk up to the next star
    that is not inside brackets. *)
Fixpoint stripStars (pattern : string) : bool * string :=
  match pattern with
  | String "*"%char rest => (true, snd (stripStars rest))
  | _ => (false, pattern)
  end.

Fixpoint scan (pattern : string) (inrange : bool) : string * string :=
  match pattern with
  | EmptyString => (EmptyString, EmptyString)
  | String c rest =>
      if (c =? "\")%char then
        match rest with
        | EmptyString => (pattern, EmptyString)
        | String d rest' =>
            let (chunk, after) := scan rest' inrange in
            (String c (String d chunk), after)
        end
      else if (c =? "*")%char && negb inrange then (EmptyString, pattern)
      else
        let inrange :=
          if (c =? "[")%char then true
          else if (c =? "]")%char then false
          else inrange in
        let (chunk, after) := scan rest inrange in
        (String c chunk, after)
  end.

Definition scanChunk (pattern : string) : bool * string * string :=
  let (star, pattern) := stripStars pattern in
  let (chunk, rest) := scan pattern false in
  (star, chunk, rest).

(** The main loop of [Match]; [None] is [ErrBadPattern]. *)
Fixpoint matchLoop (fuel : nat) (pattern name : string) : option bool :=
  match fuel with
  | O => Some (name =? "")%string
  | S fuel =>
      if (pattern =? "")%string then Some (name =? "")%string
      else
        let '(star, chunk, rest) := scanChunk pattern in
        if star && (chunk =? "")%string then
          Some (negb (strings.containsByte "/" name))
        else
          let skip :=
            (fix skip (nm : string) : option bool :=
               match nm with
               | EmptyString => Some false
               | String x nm' =>
                   if isSlash x then Some false
                   else
                     match matchChunk (S (String.length chunk)) chunk nm'
                                      false with
                     | Matched t =>
                         if (rest =? "")%string && negb (t =? "")%string
                         then skip nm'
                         else matchLoop fuel rest t
                     | BadPattern => None
                     | NoMatch => skip nm'
                     end
               end) in
          match matchChunk (S (String.length chunk)) chunk name false with
          | Matched t =>
              if (t =? "")%string || negb (rest =? "")%string
              then matchLoop fuel rest t
              else if star then skip name else Some false
          | BadPattern => None
          | NoMatch => if star then skip name else Some false
          end
  end.

Definition MatchErr (pattern name : string) : option bool :=
  matchLoop (String.length pattern) pattern name.

(** [matched, _ = Match(pattern, name)]. *)
Definition Match (pattern name : string) : bool :=
  match MatchErr pattern name with
  | Some matched => matched
  | None => false
  end.

(** [hasMeta] on Unix. *)
Definition hasMeta (path : string) : bool :=
  strings.containsByte "*" path || strings.containsByte "?" path
  || strings.containsByte "[" path || strings.containsByte "\" path.

(** *** [filepath.Glob] in the file tree

    Paths are resolved from the working directory [cwd], component by
    component.  The tree holds no link targets and nothing outside [cwd]:
    a path through a symbolic link, an absolute path and a path that
    climbs above [cwd] do not resolve. *)

Definition isDirNode (n : node) : bool :=
  (Z.land (nodeMode n) unix.S_IFMT =? unix.S_IFDIR)%Z.

Fixpoint resolve (stack : list node) (segs : list string) : option node :=
  match segs with
  | [] => hd_error stack
  | seg :: rest =>
      match stack with
      | [] => None
      | cur :: above =>
          if negb (isDirNode cur) then None
          else if (seg =? "")%string || (seg =? ".")%string then
            resolve stack rest
          else if (seg =? "..")%string then resolve above rest
          else
            match find (fun n => (nodeName n =? seg)%string)
                       (nodeEntries cur) with
            | Some c => resolve (c :: stack) rest
            | None => None
            end
      end
  end.

(** [os.Lstat(path)] from [cwd]; [None] when it fails. *)
Definition lookup (cwd : node) (path : string) : option node :=
  if (path =? "")%string || isRooted path then None
  else resolve [cwd] (splitSlash path).

(** [Split]: the directory with its final slash, and the file. *)
Definition Split (path : string) : string * string :=
  let file := afterLastSlash path path in
  (substring 0 (String.length path - String.length file) path, file).

Definition cleanGlobPath (path : string) : string :=
  if (path =? "")%string then "."
  else if (path =? "/")%string then path
  else substring 0 (String.length path - 1) path.

(** [glob]: the entries of [dir] that match [pattern], appended to
    [matches]; the flag tells a malformed pattern. *)
Fixpoint globNames (dir pattern : string) (names : list node)
    (matches : list (string * node)) : list (string * node) * bool :=
  match names with
  | [] => (matches, false)
  | n :: rest =>
      match MatchErr pattern (nodeName n) with
      | None => (matches, true)
      | Some true =>
          globNames dir pattern rest (matches ++ [(Join dir (nodeName n), n)])
      | Some false => globNames dir pattern rest matches
      end
  end.

Definition globDir (cwd : node) (dir pattern : string)
    (matches : list (string * node)) : list (string * node) * bool :=
  match lookup cwd dir with
  | None => (matches, false)
  | Some d =>
      if isDirNode d && nodeReadable d
      then globNames dir pattern (nodeEntries d) matches
      else (matches, false)
  end.

Fixpoint globWithLimit (fuel : nat) (cwd : node) (pattern : string)
    : list (string * node) * bool :=
  match fuel with
  | O => ([], true)
  | S fuel =>
      match MatchErr pattern "" with
      | None => ([], true)
      | Some _ =>
          if negb (hasMeta pattern) then
            match lookup cwd pattern with
            | Some n => ([(pattern, n)], false)
            | None => ([], false)
            end
          else
            let (dir, file) := Split pattern in
            let dir := cleanGlobPath dir in
            if negb (hasMeta dir) then globDir cwd dir file []
            else if (dir =? pattern)%string then ([], true)
            else
              let (m, err) := globWithLimit fuel cwd dir in
              if err then ([], true)
              else
                fold_left
                  (fun (acc : list (string * node) * bool)
                       (d : string * node) =>
                     if snd acc then acc
                     else globDir cwd (fst d) file (fst acc))
                  m ([], false)
      end
  end.

(** [matches, _ = Glob(pattern)], each match with the entry found there. *)
Definition Glob (cwd : node) (pattern : string) : list (string * node) :=
  fst (globWithLimit (S (String.length pattern)) cwd pattern).

(** The non-nil errors a [WalkFunc] can return. *)
Inductive walkErr := SkipDir | Failure (msg : string).

(** A [WalkFunc] over the state [S] its closure captures: path, info,
    the error of reading the directory, state. *)
Definition WalkFunc (S : Type) : Type :=
  string -> os.FileInfo -> error -> S -> S * option walkErr.

(** [filepath.walk]: call [walkFn] on the entry, then, for a directory
    that could be read and that [walkFn] accepted, walk the entries in
    order.  [SkipDir] from a directory entry skips that entry only;
    any other error stops the walk. *)
Fixpoint walk {S : Type} (walkFn : WalkFunc S) (path : string) (n : node)
    (s : S) {struct n} : S * option walkErr :=
  match n with
  | Node name st_mode readable entries =>
      let info := {| os.Name := name; os.Mode := os.fileMode st_mode |} in
      if negb (os.IsDir info) then walkFn path info None s
      else
        let err := if readable then None else Some "readdirnames" in
        let (s1, err1) := walkFn path info err s in
        match err, err1 with
        | None, None =>
            (fix names (l : list node) (s : S) {struct l}
               : S * option walkErr :=
               match l with
               | [] => (s, None)
               | c :: rest =>
                   let filename := Join path (nodeName c) in
                   let (s', e) := walk walkFn filename c s in
                   match e with
                   | None => names rest s'
                   | Some SkipDir =>
                       if os.IsDir (lstat c) then names rest s' else (s', e)
                   | Some (Failure _) => (s', e)
                   end
               end) entries s1
        | _, _ => (s1, err1)
        end
  end.

(** [filepath.Walk] on a root whose [Lstat] gave the entry [n]. *)
Definition Walk {S : Type} (root : string) (n : node) (fn : WalkFunc S)
    (s : S) : S * option walkErr :=
  let (s', err) := walk fn root n s in
  match err with
  | Some SkipDir => (s', None)
  | _ => (s', err)
  end.

End filepath.

(** ** File trees as the file system lists them *)

(** A name as a directory lists it: not empty, not [.] or [..], without
    separator. *)
Definition validName (s : string) : Prop :=
  s <> "" /\ s <> "." /\ s <> ".." /\ strings.containsByte "/" s = false.

(** In every directory the entries have valid, pairwise distinct names. *)
#[warnings="-register-all"]
Inductive wellListed : node -> Prop :=
| wellListed_node name st_mode readable entries :
    Forall (fun c => validName (nodeName c)) entries ->
    NoDup (map nodeName entries) ->
    Forall wellListed entries ->
    wellListed (Node name st_mode readable entries).

(** The elements of a path once cleaned. *)
Definition segments (path : string) : list string :=
  filepath.cleanSegs (filepath.isRooted path) (filepath.splitSlash path) [].

(** The shape of cleaned elements: some [..] first, unless the path is
    rooted, then valid names. *)
Definition canonical (rooted : bool) (segs : list string) : Prop :=
  exists k names,
    segs = repeat ".." k ++ names /\ Forall validName names /\
    (rooted = true -> k = 0).

(** ** Stages and rules *)

Record buildRule := { glob : string; line : Z }.

Record buildStage := {
  include : bool;      (* if false, exclude *)
  source : string;
  rules : list buildRule
}.

(** ** [skipFileType] *)

Definition skipFileType (info : os.FileInfo) : bool :=
  if negb (Z.land (os.Mode info) os.ModeTemporary =? 0)%Z then true
  else
    let t := Z.land (os.Mode info) os.ModeType in
    if (t =? os.ModeDir)%Z || (t =? os.ModeSymlink)%Z then false
    else if os.IsRegular info then false
    else true.

(** ** [compileStages] *)

(** The first loop of [compileStages]: every exclusion rule, in order. *)
Definition allExclusions (stages : list buildStage) : list string :=
  fold_left
    (fun exclusions stage =>
       if negb (include stage) then
         fold_left (fun exclusions rule => exclusions ++ [glob rule])
                   (rules stage) exclusions
       else exclusions)
    stages [].

(** The exclusion window as the data model words it: the glob patterns of
    the Exclude stages of [stages], concatenated in stage order. *)
Definition excludePatterns (stages : list buildStage) : list string :=
  flat_map (fun stage => if include stage then [] else map glob (rules stage))
           stages.

Section Compiler.

(** [filepath.Match] with its error dropped, as at both call sites. *)
Variable Match : string -> string -> bool.

(** [filepath.Glob] with its error dropped: the root matches of a pattern
    in glob order, each with the entry [Walk]'s [Lstat] finds there. *)
Variable Glob : string -> list (string * node).

(** The [for _, excl := range exclusions] loop of the walk function. *)
Fixpoint isExcluded (exclusions : list string) (wpath : string) : bool :=
  match exclusions with
  | [] => false
  | excl :: rest =>
      let full := Match excl wpath in
      let base := Match excl (filepath.Base wpath) in
      if full || base then true else isExcluded rest wpath
  end.

(** The walk function; the captured [list] is the state. *)
Definition visit (exclusions : list string) : filepath.WalkFunc (list string) :=
  fun wpath info _ selection =>
    let excluded := isExcluded exclusions wpath in
    if skipFileType info then (selection, None)
    else if os.IsDir info then
      if excluded then (selection, Some filepath.SkipDir)
      else (selection, None)
    else if negb excluded then (selection ++ [wpath], None)
    else (selection, None).

Definition walkMatches (exclusions : list string)
    (matches : list (string * node)) (selection : list string) : list string :=
  fold_left
    (fun selection m =>
       fst (filepath.Walk (fst m) (snd m) (visit exclusions) selection))
    matches selection.

Definition includeRules (exclusions : list string) (rs : list buildRule)
    (selection : list string) : list string :=
  fold_left
    (fun selection rule => walkMatches exclusions (Glob (glob rule)) selection)
    rs selection.

(** One iteration of the second loop over (exclusions, list). *)
Definition stageStep (st : list string * list string) (stage : buildStage)
    : run (list string * list string) :=
  let (exclusions, selection) := st in
  if include stage then
    Done (exclusions, includeRules exclusions (rules stage) selection)
  else
    match sliceFrom (length (rules stage)) exclusions with
    | Done exclusions' => Done (exclusions', selection)
    | Panic => Panic
    end.

Fixpoint stageLoop (stages : list buildStage)
    (st : list string * list string) : run (list string * list string) :=
  match stages with
  | [] => Done st
  | stage :: rest =>
      match stageStep st stage with
      | Done st' => stageLoop rest st'
      | Panic => Panic
      end
  end.

Definition compileStages (stages : list buildStage)
    : run (list string * error) :=
  match stages with
  | [] => Done ([], None)
  | _ =>
      match stageLoop stages (allExclusions stages, []) with
      | Done (_, selection) => Done (selection, None)
      | Panic => Panic
      end
  end.

(** *** What one walk selects, in words

    The entries a walk visits from [path]: the root, and the entries of
    every readable directory it visits that is not excluded. *)
Inductive reaches (exclusions : list string)
    : string -> node -> string -> node -> Prop :=
| reaches_here path n : reaches exclusions path n path n
| reaches_below path d c wpath m :
    os.IsDir (lstat d) = true ->
    nodeReadable d = true ->
    isExcluded exclusions path = false ->
    In c (nodeEntries d) ->
    reaches exclusions (filepath.Join path (nodeName c)) c wpath m ->
    reaches exclusions path d wpath m.

(** The pre-order listing of one walk: a directory contributes nothing
    itself and is pruned when excluded; any other entry contributes its
    path unless its type is skipped or it is excluded. *)
Fixpoint selected (exclusions : list string) (path : string) (n : node)
    {struct n} : list string :=
  match n with
  | Node name st_mode readable entries =>
      let info := {| os.Name := name; os.Mode := os.fileMode st_mode |} in
      if os.IsDir info then
        if isExcluded exclusions path then []
        else if readable then
          flat_map
            (fun c => selected exclusions (filepath.Join path (nodeName c)) c)
            entries
        else []
      else if skipFileType info || isExcluded exclusions path then []
      else [path]
  end.

(** The selection, in words: for each Include stage in stage order, each
    of its rules in rule order, each root match in glob order, the
    pre-order listing of its walk against the patterns of the Exclude
    stages after that stage. *)
Definition ruleSelection (exclusions : list string) (rule : buildRule)
    : list string :=
  flat_map (fun m => selected exclusions (fst m) (snd m)) (Glob (glob rule)).

Fixpoint selectionOf (stages : list buildStage) : list string :=
  match stages with
  | [] => []
  | stage :: post =>
      (if include stage then
         flat_map (ruleSelection (excludePatterns post)) (rules stage)
       else [])
      ++ selectionOf post
  end.

End Compiler.

(** ** [loadStages] *)

(** An open list file: its name and the text the scanner reads. *)
Record listFile := { fileName : string; text : string }.

(** The tokens of a [bufio.Scanner] with the default line splitter: the
    text is cut at each line feed, one trailing carriage return is dropped,
    and a final line without line feed counts when it is not empty. *)
Definition dropCR (s : string) : string :=
  match List.rev (list_ascii_of_string s) with
  | c :: r =>
      if (nat_of_ascii c =? 13)%nat then string_of_list_ascii (List.rev r)
      else s
  | [] => s
  end.

Definition scanLines (s : string) : list string :=
  let lines := strings.splitByte (ascii_of_nat 10) s in
  let lines :=
    match List.rev lines with
    | EmptyString :: r => List.rev r
    | _ => lines
    end in
  map dropCR lines.

(** [stage.rules = append(stage.rules, rule)] through the pointer [stage],
    which addresses element [i] of [stages]. *)
Definition appendRule (stages : list buildStage) (i : nat) (rule : buildRule)
    : list buildStage :=
  match nth_error stages i with
  | Some stage =>
      firstn i stages
      ++ {| include := include stage; source := source stage;
            rules := rules stage ++ [rule] |}
      :: skipn (S i) stages
  | None => stages
  end.

(** One iteration of the scanner loop.  The state is the slice [stages]
    and the pointer [stage]: [None] for [nil], else the index it addresses. *)
Definition loadLine (file : listFile)
    (st : list buildStage * option nat) (i : Z) (text : string)
    : list buildStage * option nat :=
  let (stages, stage) := st in
  let line := strings.TrimSpace text in
  if (line =? "[include]")%string then
    let stages := stages ++ [{| include := true; source := fileName file;
                                rules := [] |}] in
    (stages, Some (length stages - 1)%nat)
  else if (line =? "[exclude]")%string then
    let stages := stages ++ [{| include := false; source := fileName file;
                                rules := [] |}] in
    (stages, Some (length stages - 1)%nat)
  else if (line =? "")%string then (stages, stage)
  else
    match stage with
    | None => (stages, stage)
    | Some idx => (appendRule stages idx {| glob := line; line := i |}, stage)
    end.

Definition loadStages (file : listFile) (stages : list buildStage)
    : list buildStage * error :=
  let '(st, _) :=
    fold_left (fun acc text => (loadLine file (fst acc) (snd acc) text,
                                (snd acc + 1)%Z))
              (scanLines (text file)) ((stages, None), 1%Z) in
  (fst st, None).

(** ** A worked directory

    The working directory of the order-sensitivity test: two regular
    files, [a.txt] and [secret.txt]. *)

Definition regularFile (name : string) : node :=
  Node name (Z.lor unix.S_IFREG 420) false [].

Definition directory (name : string) (entries : list node) : node :=
  Node name (Z.lor unix.S_IFDIR 493) true entries.

Definition testDir : node :=
  directory "home" [regularFile "a.txt"; regularFile "secret.txt"].

(** A tree with a subdirectory: [docs/drafts/final.txt] and
    [docs/readme.txt]. *)
Definition docsDir : node :=
  directory "home"
    [directory "docs"
       [directory "drafts" [regularFile "final.txt"];
        regularFile "readme.txt"]].

Definition docsStages : list buildStage :=
  [ {| include := true; source := "backup.list";
       rules := [{| glob := "docs"; line := 2 |};
                 {| glob := "docs/drafts/final.txt"; line := 3 |}] |};
    {| include := false; source := "backup.list";
       rules := [{| glob := "drafts"; line := 5 |}] |} ].

Definition newline : string := String (ascii_of_nat 10) EmptyString.

Definition testRules : listFile :=
  {| fileName := "backup.list";
     text := "[include]" ++ newline ++ "*.txt" ++ newline
             ++ "[exclude]" ++ newline ++ "secret.txt" ++ newline
             ++ "[include]" ++ newline ++ "secret.txt" |}.

Definition testStages : list buildStage :=
  [ {| include := true; source := "backup.list";
       rules := [{| glob := "*.txt"; line := 2 |}] |};
    {| include := false; source := "backup.list";
       rules := [{| glob := "secret.txt"; line := 4 |}] |};
    {| include := true; source := "backup.list";
       rules := [{| glob := "secret.txt"; line := 6 |}] |} ].

(** ** Metadata capture: [buildTarHeader] *)

Module tar.
Definition TypeReg : ascii := "0".
Definition TypeSymlink : ascii := "2".
Definition TypeChar : ascii := "3".
Definition TypeBlock : ascii := "4".
Definition TypeDir : ascii := "5".
Definition TypeFifo : ascii := "6".

(** A [time.Time], as seconds and nanoseconds since the epoch. *)
Record Time := { Sec : Z; Nsec : Z }.

Record Header := {
  Name : string;
  Mode : Z;
  Uid : Z;
  Gid : Z;
  Size : Z;
  Uname : string;
  Gname : string;
  ModTime : Time;
  Typeflag : ascii;
  Linkname : string;
  AccessTime : Time;
  ChangeTime : Time
}.
End tar.

(** [unix.Stat_t], reduced to the fields that are read. *)
Record Timespec := { tv_sec : Z; tv_nsec : Z }.

Record Stat_t := {
  st_mode : Z;     (* uint32 *)
  st_uid : Z;      (* uint32 *)
  st_gid : Z;      (* uint32 *)
  st_size : Z;     (* int64 *)
  st_mtim : Timespec;
  st_atim : Timespec;
  st_ctim : Timespec
}.

(** [time.Unix(ts.Unix())]: nanoseconds outside [0, 1e9) carry over. *)
Definition timeUnix (ts : Timespec) : tar.Time :=
  {| tar.Sec := (tv_sec ts + tv_nsec ts / 1000000000)%Z;
     tar.Nsec := (tv_nsec ts mod 1000000000)%Z |}.

(** The C struct [names_t]: [None] is a [NULL] pointer. *)
Record names_t := { username : option string; groupname : option string }.

(** [C.GoString]: the empty string for [NULL]. *)
Definition GoString (p : option string) : string :=
  match p with
  | Some s => s
  | None => ""
  end.

Section Capture.

(** [unix.Lstat]: [None] when it returns an error. *)
Variable Lstat : string -> option Stat_t.
(** [os.Readlink]: [None] when it returns an error. *)
Variable Readlink : string -> option string.
(** [getpwuid_r] and [getgrgid_r]: the name of the entry found, [None]
    when the result pointer comes back [NULL]. *)
Variable getpwuid_r : Z -> option string.
Variable getgrgid_r : Z -> option string.

Definition convertIds (uid gid : Z) : names_t :=
  {| username := getpwuid_r uid; groupname := getgrgid_r gid |}.

Definition tarTypeOf (mode : Z) : ascii :=
  let t := Z.land mode unix.S_IFMT in
  if (t =? unix.S_IFDIR)%Z then tar.TypeDir
  else if (t =? unix.S_IFLNK)%Z then tar.TypeSymlink
  else if (t =? unix.S_IFBLK)%Z then tar.TypeBlock
  else if (t =? unix.S_IFCHR)%Z then tar.TypeChar
  else if (t =? unix.S_IFIFO)%Z then tar.TypeFifo
  else tar.TypeReg.

Definition buildTarHeader (path : string) : option tar.Header :=
  match Lstat path with
  | None => None
  | Some info =>
      let names := convertIds (st_uid info) (st_gid info) in
      let username := GoString (username names) in
      let groupname := GoString (groupname names) in
      let linkname := match Readlink path with
                      | Some target => target
                      | None => ""
                      end in
      let tarType := tarTypeOf (st_mode info) in
      Some {| tar.Name := path;
              tar.Mode := st_mode info;
              tar.Uid := st_uid info;
              tar.Gid := st_gid info;
              tar.Size := st_size info;
              tar.Uname := username;
              tar.Gname := groupname;
              tar.ModTime := timeUnix (st_mtim info);
              tar.Typeflag := tarType;
              tar.Linkname := linkname;
              tar.AccessTime := timeUnix (st_atim info);
              tar.ChangeTime := timeUnix (st_ctim info) |}
  end.

End Capture.

(** ** The world of a run

    What the process reads and writes besides the file tree: the terminal
    the passphrase is read from, the system randomness source, the
    destination sinks and the diagnostics, and the buffers that hold the
    passphrase. *)

(** A buffer in memory: an immutable Go string or a byte slice. *)
Inductive buffer :=
| StringBuf (s : string)
| SliceBuf (bytes : list byte).

(** The destination: standard output, one opened file, or a
    [io.MultiWriter] over several; files are named by their position in
    [files]. *)
Inductive Writer :=
| Stdout
| FileWriter (handle : nat)
| MultiWriter (handles : list nat).

Record World := {
  (** what the next calls of [term.ReadPassword] return: a line or an error *)
  terminal : list (string + string);
  (** what the next calls of [rand.Read] do: fill the buffer or fail *)
  entropy : list (option (list byte));
  (** the error every write to a destination returns, if it fails *)
  sinkError : error;
  stdout : list byte;
  stderr : list string;
  (** the output files opened so far, each with the bytes written to it *)
  files : list (string * list byte);
  (** the buffers allocated for the passphrase, by address *)
  heap : list buffer
}.

Definition withTerminal (t : list (string + string)) (w : World) : World :=
  {| terminal := t; entropy := entropy w; sinkError := sinkError w;
     stdout := stdout w; stderr := stderr w; files := files w;
     heap := heap w |}.

Definition withEntropy (e : list (option (list byte))) (w : World) : World :=
  {| terminal := terminal w; entropy := e; sinkError := sinkError w;
     stdout := stdout w; stderr := stderr w; files := files w;
     heap := heap w |}.

Definition withStdout (out : list byte) (w : World) : World :=
  {| terminal := terminal w; entropy := entropy w; sinkError := sinkError w;
     stdout := out; stderr := stderr w; files := files w; heap := heap w |}.

Definition withStderr (err : list string) (w : World) : World :=
  {| terminal := terminal w; entropy := entropy w; sinkError := sinkError w;
     stdout := stdout w; stderr := err; files := files w; heap := heap w |}.

Definition withFiles (fs : list (string * list byte)) (w : World) : World :=
  {| terminal := terminal w; entropy := entropy w; sinkError := sinkError w;
     stdout := stdout w; stderr := stderr w; files := fs; heap := heap w |}.

Definition withHeap (h : list buffer) (w : World) : World :=
  {| terminal := terminal w; entropy := entropy w; sinkError := sinkError w;
     stdout := stdout w; stderr := stderr w; files := files w; heap := h |}.

(** The same world with another terminal, randomness source and heap. *)
Definition withSecrets (t : list (string + string))
    (e : list (option (list byte))) (h : list buffer) (w : World) : World :=
  {| terminal := t; entropy := e; sinkError := sinkError w;
     stdout := stdout w; stderr := stderr w; files := files w; heap := h |}.

(** [fmt.Fprintf(os.Stderr, ...)]. *)
Definition eprint (msg : string) (w : World) : World :=
  withStderr (stderr w ++ [msg]) w.

(** A world that differs from [w0] by diagnostics only. *)
Definition logged (msgs : list string) (w0 : World) : World :=
  withStderr (stderr w0 ++ msgs) w0.

(** The world a run ends in: diagnostics added, [data] written to
    standard output when no output path is given, else to each of the
    files [opened]. *)
Definition finalWorld (outPaths : list string) (msgs : list string)
    (opened : list string) (data : list byte) (w0 : World) : World :=
  {| terminal := terminal w0; entropy := entropy w0;
     sinkError := sinkError w0;
     stdout := stdout w0 ++ match outPaths with [] => data | _ => [] end;
     stderr := stderr w0 ++ msgs;
     files := files w0 ++ map (fun p => (p, data)) opened;
     heap := heap w0 |}.

Definition appendToFile (handle : nat) (data : list byte)
    (fs : list (string * list byte)) : list (string * list byte) :=
  match nth_error fs handle with
  | Some (path, written) =>
      firstn handle fs ++ (path, written ++ data) :: skipn (S handle) fs
  | None => fs
  end.

(** The bytes reach the destination behind [out]. *)
Definition deliver (out : Writer) (data : list byte) (w : World) : World :=
  match out with
  | Stdout => withStdout (stdout w ++ data) w
  | FileWriter handle => withFiles (appendToFile handle data (files w)) w
  | MultiWriter handles =>
      withFiles
        (fold_left (fun fs handle => appendToFile handle data fs)
                   handles (files w)) w
  end.

(** [out.Write(data)]: all of [data] is written, or the sink fails. *)
Definition Write (out : Writer) (data : list byte) (w : World)
    : World * error :=
  match sinkError w with
  | Some e => (w, Some e)
  | None => (deliver out data w, None)
  end.

(** ** The confidentiality layer: [setupCryptoStream] *)

(** The [cipher.StreamWriter] over the destination. *)
Record StreamWriter := { S_key : list byte; S_iv : list byte; W : Writer }.

(** [managedWriter]; [password] is the address of its byte slice. *)
Record managedWriter := { w : StreamWriter; password : nat }.

(** The passphrase padded with zero bytes or cut to 32 bytes. *)
Definition padPassword (password : string) : string :=
  let n := String.length password in
  if (n <? 32)%nat then
    password ++ string_of_list_byte (repeat Byte.x00 (32 - n))
  else if (32 <? n)%nat then substring 0 32 password
  else password.

Definition alloc (b : buffer) (w : World) : World :=
  withHeap (heap w ++ [b]) w.

(** [ioCombo{r: os.Stdin, w: os.Stdout}.Write]: what the terminal
    writes goes to standard output; the terminal does not look at the
    result of its writes. *)
Definition ioCombo_Write (data : list byte) (w : World) : World :=
  withStdout (stdout w ++ data) w.

(** The line end the terminal writes when a line is entered. *)
Definition lineEnd : string := String (ascii_of_nat 13) newline.

(** [term.ReadPassword(prompt)] on the terminal over that [ioCombo]: the
    prompt is written first and the input is not echoed; when the line
    is entered the line end is written and the line returned; when the
    read fails (the end of the input, an interrupt) the error is
    returned after the prompt alone. *)
Definition ReadPassword (prompt : string) (w0 : World)
    : World * (string + string) :=
  let w1 := ioCombo_Write (list_byte_of_string prompt) w0 in
  match terminal w1 with
  | [] => (w1, inr "EOF")
  | inr err :: rest => (withTerminal rest w1, inr err)
  | inl entered :: rest =>
      (ioCombo_Write (list_byte_of_string lineEnd) (withTerminal rest w1),
       inl entered)
  end.

Definition setupCryptoStream (output : Writer) (w0 : World)
    : World * (managedWriter + string) :=
  let (w, read) := ReadPassword "Password: " w0 in
  match read with
  | inr err => (w, inr err)
  | inl entered =>
      let w1 := alloc (StringBuf entered) w in
      let password := padPassword entered in
      (* padding builds a new string; cutting shares the one entered *)
      let w2 := if (String.length entered <? 32)%nat
                then alloc (StringBuf password) w1 else w1 in
      (* block, _ = aes.NewCipher([]byte(password)) *)
      let key := list_byte_of_string password in
      let w3 := alloc (SliceBuf key) w2 in
      match entropy w3 with
      | [] => (w3, inr "EOF")
      | None :: more => (withEntropy more w3, inr "rand.Read failed")
      | Some iv :: more =>
          let w4 := withEntropy more w3 in
          (* first, save the IV in the first 16 bytes of the output *)
          let (w5, err) := Write output iv w4 in
          match err with
          | Some e => (w5, inr e)
          | None =>
              let address := length (heap w5) in
              let w6 := alloc (SliceBuf (list_byte_of_string password)) w5 in
              (w6, inl {| w := {| S_key := key; S_iv := iv; W := output |};
                          password := address |})
          end
      end
  end.

(** [managedWriter.Close]: every byte of [w.password] is set to zero. *)
Definition zeroBuffer (b : buffer) : buffer :=
  match b with
  | SliceBuf bytes => SliceBuf (map (fun _ => Byte.x00) bytes)
  | StringBuf s => StringBuf s
  end.

Definition managedWriter_Close (mw : managedWriter) (w0 : World)
    : World * error :=
  match nth_error (heap w0) (password mw) with
  | Some b =>
      (withHeap (firstn (password mw) (heap w0) ++ zeroBuffer b
                   :: skipn (S (password mw)) (heap w0)) w0, None)
  | None => (w0, None)
  end.

(** ** The archive pipeline: [archiveFile] and [runBuild] *)

Section Emission.

Variable Match : string -> string -> bool.
Variable Glob : string -> list (string * node).
Variable Lstat : string -> option Stat_t.
Variable Readlink : string -> option string.
Variable getpwuid_r : Z -> option string.
Variable getgrgid_r : Z -> option string.

(** [os.Open] of a list file: the open file, or the error text. *)
Variable OpenList : string -> listFile + string.
(** [os.OpenFile(outPath, O_WRONLY|O_CREATE|O_TRUNC, 0666)]. *)
Variable OpenFile : string -> error.
(** [goHome()]. *)
Variable goHome : error.

(** An open [*os.File] to archive, and [os.Open] on a selected path. *)
Variable File : Type.
Variable Open : string -> File + string.

(** The [*tar.Writer]: its state, and for each operation the new state,
    the bytes it writes to the writer under it, and its error.  [Copy]
    is [io.Copy(archiver, file)]. *)
Variable TarWriter : Type.
Variable NewWriter : TarWriter.
Variable WriteHeader : TarWriter -> tar.Header -> TarWriter * list byte * error.
Variable Copy : TarWriter -> File -> TarWriter * list byte * error.
Variable CloseTar : TarWriter -> list byte.

(** What a [gzip.Writer] has written once closed, from all it was given. *)
Variable gzip : list byte -> list byte.

(** The archiver and the bytes written so far into the compressor. *)
Record pipeline := { archiver : TarWriter; compressed : list byte }.

Definition archiveFile (p : pipeline) (path : string) (w0 : World)
    : pipeline * World * error :=
  match Open path with
  | inr err =>
      (p, eprint ("Unable to open '" ++ path ++ "': " ++ err ++ newline)%string
                 w0,
       None)
  | inl file =>
      match buildTarHeader Lstat Readlink getpwuid_r getgrgid_r path with
      | None => (p, w0, None)
      | Some header =>
          let '(tw, out, err) := WriteHeader (archiver p) header in
          let p1 := {| archiver := tw; compressed := compressed p ++ out |} in
          match err with
          | Some _ => (p1, w0, None)
          | None =>
              if (tar.Typeflag header =? tar.TypeSymlink)%char then
                (p1, w0, None)
              else
                let '(tw, out, err) := Copy tw file in
                let p2 := {| archiver := tw;
                             compressed := compressed p1 ++ out |} in
                match err with
                | Some e =>
                    (p2, w0,
                     Some ("Error archiving '" ++ path ++ "': " ++ e)%string)
                | None => (p2, w0, None)
                end
          end
      end
  end.

(** [for _, path := range fileList]: stop at the first error. *)
Fixpoint archiveAll (fileList : list string) (p : pipeline) (w0 : World)
    : pipeline * World * error :=
  match fileList with
  | [] => (p, w0, None)
  | path :: rest =>
      let '(p1, w1, err) := archiveFile p path w0 in
      match err with
      | Some e => (p1, w1, Some e)
      | None => archiveAll rest p1 w1
      end
  end.

(** The tar archive stream of [fileList]: all the archiver writes,
    its close included.  The world only collects the diagnostics. *)
Definition tarStream (fileList : list string) (w0 : World) : list byte :=
  let '(p, _, _) :=
    archiveAll fileList {| archiver := NewWriter; compressed := [] |} w0 in
  compressed p ++ CloseTar (archiver p).

(** The first loop of [runBuild]: load every list file that opens. *)
Fixpoint loadLists (listPaths : list string) (stages : list buildStage)
    (w0 : World) : list buildStage * World * error :=
  match listPaths with
  | [] => (stages, w0, None)
  | listPath :: rest =>
      match OpenList listPath with
      | inr err =>
          loadLists rest stages
            (eprint ("Unable to open list file '" ++ listPath ++ "': "
                     ++ err ++ newline)%string w0)
      | inl file =>
          let (stages, err) := loadStages file stages in
          match err with
          | Some e => (stages, w0, Some e)
          | None => loadLists rest stages w0
          end
      end
  end.

(** The loop over [outPaths]: the handles opened, or the first error. *)
Fixpoint openOutputs (outPaths : list string) (opened : list nat)
    (w0 : World) : list nat * World * error :=
  match outPaths with
  | [] => (opened, w0, None)
  | outPath :: rest =>
      match OpenFile outPath with
      | Some e => (opened, w0, Some e)
      | None =>
          openOutputs rest (opened ++ [length (files w0)])
            (withFiles (files w0 ++ [(outPath, [])]) w0)
      end
  end.

(** The emission part of [runBuild]: gzip over the output, tar over
    gzip, every selected file archived in order; on return, also with
    an error, the deferred calls close the archiver and then the
    compressor. *)
Definition emit (output : Writer) (fileList : list string) (w0 : World)
    : World * error :=
  let compressor := [] in
  let '(p, w1, err) :=
    archiveAll fileList {| archiver := NewWriter; compressed := compressor |}
               w0 in
  let compressor := compressed p ++ CloseTar (archiver p) in
  let (w2, _) := Write output (gzip compressor) w1 in
  (w2, err).

Definition runBuild (listPaths outPaths : list string) (w0 : World)
    : run (World * error) :=
  let '(stages, w1, err) := loadLists listPaths [] w0 in
  match err with
  | Some e => Done (w1, Some e)
  | None =>
      let '(output, w2, err) :=
        match outPaths with
        | [] => (Stdout, w1, None)
        | _ =>
            let '(opened, w2, err) := openOutputs outPaths [] w1 in
            (match opened with
             | [handle] => FileWriter handle
             | _ => MultiWriter opened
             end, w2, err)
        end in
      match err with
      | Some e => Done (w2, Some e)
      | None =>
          match goHome with
          | Some e =>
              Done (w2, Some ("Unable to chdir into home directory: "
                              ++ e)%string)
          | None =>
              match compileStages Match Glob stages with
              | Panic => Panic
              | Done (fileList, Some e) => Done (w2, Some e)
              | Done (fileList, None) => Done (emit output fileList w2)
              end
          end
      end
  end.

End Emission.

(** ** A worked system

    One regular file [a.txt] owned by ids without a name, a terminal on
    which the passphrase [hunter2] is entered, and a tar writer whose body
    copy fails. *)

Definition quietWorld : World :=
  {| terminal := []; entropy := []; sinkError := None; stdout := [];
     stderr := []; files := []; heap := [] |}.

Definition sixteenBytes : list byte := repeat Byte.x2a 16.

Definition sampleStat : Stat_t :=
  {| st_mode := Z.lor unix.S_IFREG 420;
     st_uid := 1000; st_gid := 1000; st_size := 5;
     st_mtim := {| tv_sec := 1500000000; tv_nsec := 0 |};
     st_atim := {| tv_sec := 1500000000; tv_nsec := 0 |};
     st_ctim := {| tv_sec := 1500000000; tv_nsec := 0 |} |}.

Definition sampleLstat (path : string) : option Stat_t :=
  if (path =? "a.txt")%string then Some sampleStat else None.

Definition noReadlink (path : string) : option string := None.

Definition unknownId (id : Z) : option string := None.

Definition sampleHeader : tar.Header :=
  {| tar.Name := "a.txt"; tar.Mode := 33188; tar.Uid := 1000;
     tar.Gid := 1000; tar.Size := 5; tar.Uname := ""; tar.Gname := "";
     tar.ModTime := {| tar.Sec := 1500000000; tar.Nsec := 0 |};
     tar.Typeflag := tar.TypeReg; tar.Linkname := "";
     tar.AccessTime := {| tar.Sec := 1500000000; tar.Nsec := 0 |};
     tar.ChangeTime := {| tar.Sec := 1500000000; tar.Nsec := 0 |} |}.

Definition sampleOpen (path : string) : list byte + string :=
  if (path =? "a.txt")%string then inl (list_byte_of_string "hello")
  else inr "no such file or directory".

Definition sampleWriteHeader (tw : unit) (header : tar.Header)
    : unit * list byte * error :=
  (tt, list_byte_of_string (tar.Name header), None).

Definition failingCopy (tw : unit) (file : list byte)
    : unit * list byte * error :=
  (tt, [], Some "unexpected EOF").


(** ** Words for the loader's result *)

(** What a line opens: an Include stage, an Exclude stage, or nothing. *)
Definition markerOf (text : string) : option bool :=
  let line := strings.TrimSpace text in
  if (line =? "[include]")%string then Some true
  else if (line =? "[exclude]")%string then Some false
  else None.

(** The polarities of the marker lines, in order. *)
Definition markers (lines : list string) : list bool :=
  flat_map (fun text => match markerOf text with
                        | Some polarity => [polarity]
                        | None => []
                        end) lines.

(** The rule is line number [line rule] of [lines], trimmed; that line is
    neither blank nor a marker. *)
Definition ruleFromLine (lines : list string) (rule : buildRule) : Prop :=
  exists text,
    (1 <= line rule)%Z /\
    nth_error lines (Z.to_nat (line rule - 1)) = Some text /\
    glob rule = strings.TrimSpace text /\
    markerOf text = None /\
    glob rule <> "".

(** The stage names [file] as its source and its rules are lines. *)
Definition stageFromFile (file : listFile) (lines : list string)
    (stage : buildStage) : Prop :=
  source stage = fileName file /\ Forall (ruleFromLine lines) (rules stage).


(** ** Words for the first loop of [runBuild] *)

(** The stages of the list files that open, file after file. *)
Definition loadedFrom (OpenList : string -> listFile + string)
    (listPaths : list string) : list buildStage :=
  flat_map (fun listPath => match OpenList listPath with
                            | inl file => fst (loadStages file [])
                            | inr _ => []
                            end) listPaths.

(** One diagnostic for each list file that does not open. *)
Definition openFailures (OpenList : string -> listFile + string)
    (listPaths : list string) : list string :=
  flat_map (fun listPath =>
              match OpenList listPath with
              | inl _ => []
              | inr err => [("Unable to open list file '" ++ listPath ++ "': "
                             ++ err ++ newline)%string]
              end) listPaths.

(** ** The command line *)

Definition tab : string := String (ascii_of_nat 9) EmptyString.



Definition buildHelp : string :=
  String.concat newline
    [ "Usage:";
      (tab ++ "backup build [--help] [-l LIST] [-o OUTPUT]")%string;
      "";
      "The build command backs up a list of files as determined by the provided lists";
      "and saves them in an AES encrypted tarball.The list files operate in stages,";
      "indicated by either [include] or [exclude] markers.  After each marker, backup";
      "looks for a newline-delimited list of glob patterns to match agains files.  You";
      "can add an unlimited number of stages of [include] and [exclude] that will be";
      "evaluated in order.  If the first marker is an include, it is assumed everything";
      "else is excluded by default, and if the first stage is an exclude, it is assumed";
      "everything in your user directory is included by default.";
      "";
      "You can set multiple list files and output paths by using their options twice,";
      "as in 'backup -l list1 -l list2 -o backup1 -o backup2'.  In this case, the list";
      "files will be loaded in the order that they're listed.";
      "";
      "Options:";
      (tab ++ "-h, --help      this help message")%string;
      (tab ++ "-l, --list      file that contains what's to be excluded and included in the backup, defaults to ./backup.list")%string;
      (tab ++ "-o, --output    where to store the backup file, by default the output is printed to standard out")%string ].

Definition restoreHelp : string :=
  String.concat newline
    [ "Usage:";
      (tab ++ "backup restore [--help] <backup_file> ")%string;
      "";
      "Restores the files provided in the given backup archive." ].

(** [exitError] and [homeError], with their [Error] methods. *)
Record exitError := { msg : string; code : Z }.


Record homeError := { who : string; reason : string }.

Definition homeError_Error (e : homeError) : string :=
  if (who e =? "")%string then
    ("Unable to find current user's home directory: " ++ reason e)%string
  else
    ("Unable to find home directory of user " ++ who e ++ ": "
     ++ reason e)%string.

(** An [error] value whose dynamic type matters to [program]: an
    [exitError], or any other error with its text. *)
Inductive goError :=
| ExitError (e : exitError)
| PlainError (text : string).


(** [fmt.Println] on standard output. *)
Definition println (s : string) (w0 : World) : World :=
  withStdout (stdout w0 ++ list_byte_of_string (s ++ newline)) w0.

(** [tryGetArg]: indexing panics when [index] is [len(args)]. *)
Definition tryGetArg (args : list string) (index : Z) : run string :=
  if (index <? 0)%Z || (Z.of_nat (length args) <? index)%Z then Done ""
  else
    match nth_error args (Z.to_nat index) with
    | Some arg => Done arg
    | None => Panic
    end.

Definition isHelp (arg : string) : bool :=
  (arg =? "--help")%string || (arg =? "-h")%string.

Definition isList (arg : string) : bool :=
  (arg =? "-l")%string || (arg =? "--list")%string.

Definition isOutput (arg : string) : bool :=
  (arg =? "-o")%string || (arg =? "--output")%string.

(** How the argument loop of [build] ends: the help was asked for, an
    argument is rejected, or the list and output paths are known. *)
Inductive buildArgs :=
| Help
| Rejected (e : exitError)
| Options (listPaths outPaths : list string).

Definition expectedArgument (flag : string) : exitError :=
  {| msg := ("Expected argument after '" ++ flag ++ "'")%string; code := 1 |}.

(** [for i := 0; i < len(args); i += 2]; [fuel] bounds the iterations. *)
Fixpoint buildLoop (fuel : nat) (args : list string) (i : nat)
    (listPaths outPaths : list string) : run buildArgs :=
  match fuel with
  | O => Done (Options listPaths outPaths)
  | S fuel =>
      match nth_error args i with
      | None => Done (Options listPaths outPaths)
      | Some arg =>
          if isHelp arg then Done Help
          else if isList arg then
            match tryGetArg args (Z.of_nat i + 1) with
            | Panic => Panic
            | Done s =>
                if (s =? "")%string then Done (Rejected (expectedArgument arg))
                else buildLoop fuel args (i + 2) (listPaths ++ [s]) outPaths
            end
          else if isOutput arg then
            match tryGetArg args (Z.of_nat i + 1) with
            | Panic => Panic
            | Done s =>
                if (s =? "")%string then Done (Rejected (expectedArgument arg))
                else buildLoop fuel args (i + 2) listPaths (outPaths ++ [s])
            end
          else buildLoop fuel args (i + 2) listPaths outPaths
      end
  end.

(** The arguments read two by two, in words: an option takes the
    argument after it as its value, anything else is passed over
    together with the argument after it. *)
Fixpoint readPairs (args : list string) (listPaths outPaths : list string)
    : run buildArgs :=
  match args with
  | [] => Done (Options listPaths outPaths)
  | arg :: rest =>
      if isHelp arg then Done Help
      else if isList arg then
        match rest with
        | [] => Panic
        | s :: rest' =>
            if (s =? "")%string then Done (Rejected (expectedArgument arg))
            else readPairs rest' (listPaths ++ [s]) outPaths
        end
      else if isOutput arg then
        match rest with
        | [] => Panic
        | s :: rest' =>
            if (s =? "")%string then Done (Rejected (expectedArgument arg))
            else readPairs rest' listPaths (outPaths ++ [s])
        end
      else
        match rest with
        | [] => Done (Options listPaths outPaths)
        | _ :: rest' => readPairs rest' listPaths outPaths
        end
  end.

Definition onlyOneBackup : exitError :=
  {| msg := "Can only restore from one backup at a time"; code := 1 |}.

(** The loop of [restore] over [backupPath]. *)
Fixpoint restoreLoop (args : list string) (backupPath : string) (w0 : World)
    : World * option goError :=
  match args with
  | [] => (w0, None)
  | arg :: rest =>
      if isHelp arg then (println restoreHelp w0, None)
      else if negb (backupPath =? "")%string then
        (w0, Some (ExitError onlyOneBackup))
      else restoreLoop rest arg w0
  end.

Definition restore (args : list string) (w0 : World)
    : World * option goError :=
  restoreLoop args "" w0.

Section CommandLine.

Variable Match : string -> string -> bool.
Variable Glob : string -> list (string * node).
Variable Lstat : string -> option Stat_t.
Variable Readlink : string -> option string.
Variable getpwuid_r : Z -> option string.
Variable getgrgid_r : Z -> option string.
Variable OpenList : string -> listFile + string.
Variable OpenFile : string -> error.
Variable goHome : error.
Variable File : Type.
Variable Open : string -> File + string.
Variable TarWriter : Type.
Variable NewWriter : TarWriter.
Variable WriteHeader : TarWriter -> tar.Header -> TarWriter * list byte * error.
Variable Copy : TarWriter -> File -> TarWriter * list byte * error.
Variable CloseTar : TarWriter -> list byte.
Variable gzip : list byte -> list byte.

Definition build (args : list string) (w0 : World)
    : run (World * option goError) :=
  match buildLoop (length args) args 0 [] [] with
  | Panic => Panic
  | Done Help => Done (println buildHelp w0, None)
  | Done (Rejected e) => Done (w0, Some (ExitError e))
  | Done (Options listPaths outPaths) =>
      let listPaths :=
        match listPaths with
        | [] => ["backup.list"]   (* the default list file *)
        | _ => listPaths
        end in
      match runBuild Match Glob Lstat Readlink getpwuid_r getgrgid_r OpenList
              OpenFile goHome Open NewWriter WriteHeader Copy CloseTar gzip
              listPaths outPaths w0 with
      | Panic => Panic
      | Done (w1, err) => Done (w1, option_map PlainError err)
      end
  end.


End CommandLine.

(** ** The worked system, continued

    The passphrase [hunter2] on the terminal with sixteen bytes of
    randomness; the list file [backup.list] of the order test as the
    only list that opens; an output path [locked] that cannot be
    opened. *)

Definition passphraseWorld : World :=
  withEntropy [Some sixteenBytes] (withTerminal [inl "hunter2"] quietWorld).

Definition keyedWorld : World := fst (setupCryptoStream Stdout passphraseWorld).

Definition keyedWriter : managedWriter :=
  {| w := {| S_key := list_byte_of_string (padPassword "hunter2");
             S_iv := sixteenBytes; W := Stdout |};
     password := 3 |}.

Definition sampleOpenList (path : string) : listFile + string :=
  if (path =? "backup.list")%string then inl testRules
  else inr "no such file or directory".

Definition sampleOpenFile (path : string) : error :=
  if (path =? "locked")%string then Some "permission denied" else None.

Definition noTar (tw : unit) : list byte := [].

Definition noGzip (data : list byte) : list byte := data.
(* ===================================================================== *)
(** * Part II: properties                                                 *)
(* ===================================================================== *)

(** ** Slices *)

Lemma sliceFrom_app (A : Type) (front back : list A) :
  sliceFrom (length front) (front ++ back) = Done back.
Proof.
  unfold sliceFrom. rewrite length_app.
  replace (length front <=? length front + length back)%nat with true
    by (symmetry; apply Nat.leb_le; lia).
  induction front as [|x front IH]; simpl; [reflexivity|].
  inversion IH; congruence.
Qed.

(** ** Induction on file trees *)

Lemma node_induction (P : node -> Prop)
    (step : forall name st_mode readable entries,
        Forall P entries -> P (Node name st_mode readable entries)) :
  forall n, P n.
Proof.
  fix self 1. intros [name st_mode readable entries]. apply step.
  induction entries as [|c rest IH]; constructor; [apply self|exact IH].
Qed.

(** ** File modes *)

Lemma land_const (m a b : Z) : Z.land a b = 0%Z -> Z.land (Z.land m a) b = 0%Z.
Proof. intros H. now rewrite <- Z.land_assoc, H, Z.land_0_r. Qed.

Lemma flagIf_cases (st_mode bit flag : Z) :
  os.flagIf st_mode bit flag = 0%Z \/ os.flagIf st_mode bit flag = flag.
Proof. unfold os.flagIf. destruct (_ =? _)%Z; auto. Qed.

Lemma typeFlags_cases (st_mode : Z) :
  In (os.typeFlags st_mode)
     [os.ModeDevice; Z.lor os.ModeDevice os.ModeCharDevice; os.ModeDir;
      os.ModeNamedPipe; os.ModeSymlink; os.ModeSocket; 0%Z].
Proof.
  unfold os.typeFlags.
  repeat match goal with |- context [if ?b then _ else _] => destruct b end;
    simpl; tauto.
Qed.

(** [Z.land (os.fileMode st_mode) mask] for a constant [mask]: the
    permission bits fall outside [mask], and each flag is a constant. *)
Ltac mode_bits st_mode mask :=
  unfold os.fileMode; rewrite !Z.land_lor_distr_l;
  rewrite (land_const st_mode 511 mask eq_refl);
  destruct (flagIf_cases st_mode unix.S_ISGID os.ModeSetgid) as [-> | ->],
           (flagIf_cases st_mode unix.S_ISUID os.ModeSetuid) as [-> | ->],
           (flagIf_cases st_mode unix.S_ISVTX os.ModeSticky) as [-> | ->];
  let H := fresh "H" in
  pose proof (typeFlags_cases st_mode) as H; simpl in H;
  repeat (destruct H as [<- | H]; [reflexivity|]); contradiction.

(** [Lstat] never reports [ModeTemporary]. *)
Lemma fileMode_temporary (st_mode : Z) :
  Z.land (os.fileMode st_mode) os.ModeTemporary = 0%Z.
Proof.
  mode_bits st_mode os.ModeTemporary.
Qed.

(** The type bits [Lstat] reports are exactly the type flag. *)
Lemma fileMode_type (st_mode : Z) :
  Z.land (os.fileMode st_mode) os.ModeType = os.typeFlags st_mode.
Proof.
  mode_bits st_mode os.ModeType.
Qed.

Lemma fileMode_dir (st_mode : Z) :
  Z.land (os.fileMode st_mode) os.ModeDir
  = (if (os.typeFlags st_mode =? os.ModeDir)%Z then os.ModeDir else 0%Z).
Proof.
  mode_bits st_mode os.ModeDir.
Qed.

(** A directory is never skipped for its type. *)
Lemma dir_not_skipped (name : string) (st_mode : Z) :
  os.IsDir {| os.Name := name; os.Mode := os.fileMode st_mode |} = true ->
  skipFileType {| os.Name := name; os.Mode := os.fileMode st_mode |} = false.
Proof.
  unfold os.IsDir, skipFileType, os.IsRegular. simpl.
  rewrite fileMode_temporary, fileMode_type, fileMode_dir. simpl.
  destruct (os.typeFlags st_mode =? os.ModeDir)%Z eqn:E; simpl.
  - reflexivity.
  - discriminate.
Qed.

(** ** The exclusion window *)

Lemma append_globs (rs : list buildRule) (exclusions : list string) :
  fold_left (fun exclusions rule => exclusions ++ [glob rule]) rs exclusions
  = exclusions ++ map glob rs.
Proof.
  revert exclusions.
  induction rs as [|r rs IH]; intros exclusions; simpl.
  - now rewrite app_nil_r.
  - rewrite IH, <- app_assoc. reflexivity.
Qed.

Lemma allExclusions_from (stages : list buildStage) (acc : list string) :
  fold_left
    (fun exclusions stage =>
       if negb (include stage) then
         fold_left (fun exclusions rule => exclusions ++ [glob rule])
                   (rules stage) exclusions
       else exclusions)
    stages acc
  = acc ++ excludePatterns stages.
Proof.
  revert acc.
  induction stages as [|s stages IH]; intros acc; simpl.
  - now rewrite app_nil_r.
  - rewrite IH. destruct (include s); simpl.
    + reflexivity.
    + rewrite append_globs, <- app_assoc. reflexivity.
Qed.

Lemma allExclusions_spec (stages : list buildStage) :
  allExclusions stages = excludePatterns stages.
Proof. unfold allExclusions. now rewrite allExclusions_from. Qed.

Lemma excludePatterns_app (pre post : list buildStage) :
  excludePatterns (pre ++ post) = excludePatterns pre ++ excludePatterns post.
Proof. unfold excludePatterns. apply flat_map_app. Qed.

(** ** Paths *)

Lemma splitByte_not_nil (sep : ascii) (s : string) :
  strings.splitByte sep s <> [].
Proof.
  induction s as [|c s IH]; simpl; [discriminate|].
  destruct (c =? sep)%char; [discriminate|].
  destruct (strings.splitByte sep s); [contradiction|discriminate].
Qed.

Lemma splitByte_app (sep : ascii) (a b : string) :
  strings.splitByte sep (a ++ String sep b)
  = strings.splitByte sep a ++ strings.splitByte sep b.
Proof.
  induction a as [|c a IH]; simpl.
  - now rewrite Ascii.eqb_refl.
  - destruct (c =? sep)%char; [now rewrite IH|].
    rewrite IH.
    pose proof (splitByte_not_nil sep a) as Hne.
    destruct (strings.splitByte sep a); [contradiction|reflexivity].
Qed.

Lemma splitByte_plain (sep : ascii) (s : string) :
  strings.containsByte sep s = false -> strings.splitByte sep s = [s].
Proof.
  induction s as [|c s IH]; simpl; [reflexivity|].
  intros H. apply orb_false_iff in H. destruct H as [Hc Hs].
  rewrite Hc, (IH Hs). reflexivity.
Qed.

Lemma splitByte_free (sep : ascii) (s : string) :
  Forall (fun seg => strings.containsByte sep seg = false)
         (strings.splitByte sep s).
Proof.
  induction s as [|c s IH]; simpl.
  - constructor; [reflexivity|constructor].
  - destruct (c =? sep)%char eqn:Hc.
    + constructor; [reflexivity|exact IH].
    + destruct (strings.splitByte sep s) as [|seg segs];
        [repeat constructor; simpl; now rewrite Hc|].
      inversion IH; subst. constructor; [|assumption].
      simpl. now rewrite Hc.
Qed.

Lemma concat_split (segs : list string) :
  segs <> [] ->
  Forall (fun seg => strings.containsByte "/" seg = false) segs ->
  filepath.splitSlash (String.concat "/" segs) = segs.
Proof.
  unfold filepath.splitSlash.
  induction segs as [|x [|y rest] IH]; intros Hne Hfree.
  - contradiction.
  - inversion Hfree; subst. simpl. now apply splitByte_plain.
  - inversion Hfree; subst.
    change (String.concat "/" (x :: y :: rest))
      with (x ++ String "/" (String.concat "/" (y :: rest)))%string.
    rewrite splitByte_app, IH by (assumption || discriminate).
    now rewrite splitByte_plain.
Qed.

Lemma valid_seg_tests (s : string) :
  validName s ->
  (s =? "")%string = false /\ (s =? ".")%string = false /\
  (s =? "..")%string = false.
Proof.
  intros [H1 [H2 [H3 _]]]. repeat split; now apply String.eqb_neq.
Qed.

(** Valid names are kept as they come. *)
Lemma cleanSegs_valid (rooted : bool) (names : list string) :
  Forall validName names ->
  forall out, filepath.cleanSegs rooted names out = rev out ++ names.
Proof.
  induction 1 as [|x names Hx _ IH]; intros out; simpl.
  - now rewrite app_nil_r.
  - destruct (valid_seg_tests Hx) as [-> [-> ->]].
    rewrite IH. simpl. now rewrite <- app_assoc.
Qed.

Lemma cleanSegs_dots (k : nat) (rest : list string) :
  forall j,
    filepath.cleanSegs false (repeat ".." k ++ rest) (repeat ".." j)
    = filepath.cleanSegs false rest (repeat ".." (k + j)).
Proof.
  induction k as [|k IH]; intros j; simpl; [reflexivity|].
  destruct j as [|j]; simpl.
  - change [".."] with (repeat ".." 1). rewrite IH.
    now rewrite Nat.add_1_r, Nat.add_0_r.
  - change (".." :: ".." :: repeat ".." j) with (repeat ".." (S (S j))).
    rewrite IH. now rewrite Nat.add_succ_r.
Qed.

Lemma cleanSegs_app (rooted : bool) (xs ys : list string) :
  forall out,
    filepath.cleanSegs rooted (xs ++ ys) out
    = filepath.cleanSegs rooted ys (rev (filepath.cleanSegs rooted xs out)).
Proof.
  induction xs as [|x xs IH]; intros out; simpl.
  - now rewrite rev_involutive.
  - destruct (x =? "")%string; [apply IH|].
    destruct (x =? ".")%string; [apply IH|].
    destruct (x =? "..")%string; [|apply IH].
    destruct out as [|top out']; [destruct rooted; apply IH|].
    destruct (top =? "..")%string; apply IH.
Qed.

Lemma repeat_snoc (A : Type) (x : A) (k : nat) :
  repeat x k ++ [x] = repeat x (S k).
Proof. simpl. now rewrite repeat_cons. Qed.

Lemma cleanSegs_canonical (rooted : bool) (segs : list string) :
  Forall (fun seg => strings.containsByte "/" seg = false) segs ->
  forall out,
    canonical rooted (rev out) ->
    canonical rooted (filepath.cleanSegs rooted segs out).
Proof.
  induction 1 as [|x segs Hx _ IH]; intros out Hout; simpl; [exact Hout|].
  destruct (x =? "")%string eqn:E1; [now apply IH|].
  destruct (x =? ".")%string eqn:E2; [now apply IH|].
  destruct (x =? "..")%string eqn:E3.
  - apply String.eqb_eq in E3. subst x.
    destruct Hout as [k [names [Hrev [Hnames Hk]]]].
    destruct out as [|top out'].
    + destruct rooted; apply IH.
      * exists 0, []. repeat split; auto.
      * exists 1, []. repeat split; auto. discriminate.
    + simpl in Hrev.
      destruct names as [|n names' _] using rev_ind.
      * (* the stack holds [..] only *)
        rewrite app_nil_r in Hrev.
        destruct k as [|k]; [destruct (rev out'); discriminate|].
        rewrite <- repeat_snoc in Hrev.
        apply app_inj_tail in Hrev. destruct Hrev as [Hout' ->].
        rewrite String.eqb_refl. apply IH.
        exists (S (S k)), []. rewrite app_nil_r. split; [|split; auto].
        -- change (rev (".." :: ".." :: out'))
             with ((rev out' ++ [".."]) ++ [".."]).
           rewrite Hout'. rewrite (repeat_snoc ".." k).
           rewrite (repeat_snoc ".." (S k)). reflexivity.
        -- intros Hr. specialize (Hk Hr). discriminate.
      * (* a name is on top: it is dropped *)
        rewrite app_assoc in Hrev. apply app_inj_tail in Hrev.
        destruct Hrev as [Hout' <-].
        apply Forall_app in Hnames. destruct Hnames as [Hnames Hn].
        inversion Hn as [|? ? Hvalid _]; subst.
        destruct (valid_seg_tests Hvalid) as [_ [_ ->]].
        apply IH. exists k, names'. repeat split; auto.
  - apply IH. destruct Hout as [k [names [Hrev [Hnames Hk]]]].
    exists k, (names ++ [x]). simpl. rewrite Hrev, <- app_assoc.
    split; [reflexivity|]. split; [|exact Hk].
    apply Forall_app. split; [exact Hnames|].
    constructor; [|constructor].
    repeat split; try (apply String.eqb_neq; assumption). exact Hx.
Qed.

Lemma segments_canonical (path : string) :
  canonical (filepath.isRooted path) (segments path).
Proof.
  unfold segments. apply cleanSegs_canonical.
  - apply splitByte_free.
  - exists 0, []. repeat split; auto.
Qed.

Lemma rev_repeat_same (A : Type) (x : A) (k : nat) :
  rev (repeat x k) = repeat x k.
Proof.
  induction k as [|k IH]; [reflexivity|].
  simpl. now rewrite IH, repeat_snoc.
Qed.

(** Cleaned elements are left as they are by another cleaning. *)
Lemma cleanSegs_fixed (rooted : bool) (segs : list string) :
  canonical rooted segs -> filepath.cleanSegs rooted segs [] = segs.
Proof.
  intros [k [names [-> [Hnames Hk]]]].
  destruct rooted.
  - rewrite (Hk eq_refl). simpl. now rewrite cleanSegs_valid.
  - change (@nil string) with (repeat ".." 0) at 1.
    rewrite cleanSegs_dots, cleanSegs_valid by assumption.
    now rewrite Nat.add_0_r, rev_repeat_same.
Qed.

Lemma valid_free (s : string) :
  validName s -> strings.containsByte "/" s = false.
Proof. now intros [_ [_ [_ H]]]. Qed.

Lemma canonical_free (rooted : bool) (segs : list string) :
  canonical rooted segs ->
  Forall (fun seg => strings.containsByte "/" seg = false) segs.
Proof.
  intros [k [names [-> [Hnames _]]]]. apply Forall_app. split.
  - apply Forall_forall. intros x Hx. apply repeat_spec in Hx. now subst x.
  - eapply Forall_impl; [|exact Hnames]. intros s. apply valid_free.
Qed.

Lemma canonical_head (rooted : bool) (x : string) (rest : list string) :
  canonical rooted (x :: rest) ->
  exists c x', x = String c x' /\ filepath.isSlash c = false.
Proof.
  intros H. pose proof (canonical_free H) as Hfree.
  inversion Hfree as [|? ? Hx _]; subst.
  destruct H as [k [names [Heq [Hnames _]]]].
  destruct x as [|c x'].
  - destruct k; simpl in Heq; [|discriminate].
    destruct names as [|n names]; [discriminate|].
    inversion Heq; subst. inversion Hnames as [|? ? [Hne _] _]; subst.
    now elim Hne.
  - exists c, x'. split; [reflexivity|].
    simpl in Hx. apply orb_false_iff in Hx. apply Hx.
Qed.

Lemma concat_head (c : ascii) (x' : string) (rest : list string) :
  exists tail, String.concat "/" (String c x' :: rest) = String c tail.
Proof.
  destruct rest; simpl; eexists; reflexivity.
Qed.

Lemma segments_Clean (path : string) :
  segments (filepath.Clean path) = segments path.
Proof.
  pose proof (segments_canonical path) as Hcanon.
  unfold filepath.Clean. fold (segments path).
  destruct (filepath.isRooted path) eqn:Hr.
  - (* rooted *)
    unfold segments at 1. cbn [filepath.isRooted append].
    change (filepath.isSlash "/") with true.
    unfold filepath.splitSlash. cbn [strings.splitByte].
    change ("/" =? "/")%char with true. cbn [filepath.cleanSegs String.eqb].
    destruct (segments path) as [|x rest] eqn:Hs.
    + reflexivity.
    + fold (filepath.splitSlash (String.concat "/" (x :: rest))).
      rewrite concat_split by (discriminate || exact (canonical_free Hcanon)).
      now apply cleanSegs_fixed.
  - destruct (segments path) as [|x rest] eqn:Hs.
    + reflexivity.
    + destruct (canonical_head Hcanon) as [c [x' [-> Hc]]].
      destruct (concat_head c x' rest) as [tail Htail].
      rewrite Htail. cbn [String.eqb]. rewrite <- Htail.
      unfold segments. rewrite Htail at 1. cbn [filepath.isRooted].
      rewrite Hc.
      rewrite concat_split by (discriminate || exact (canonical_free Hcanon)).
      now apply cleanSegs_fixed.
Qed.

Lemma segments_name (name : string) :
  validName name -> segments name = [name].
Proof.
  intros H. unfold segments, filepath.splitSlash.
  rewrite (splitByte_plain _ _ (valid_free H)).
  apply (cleanSegs_valid _ (names := [name])). now constructor.
Qed.

(** Joining a valid name adds one element. *)
Lemma segments_Join (path name : string) :
  validName name ->
  segments (filepath.Join path name) = segments path ++ [name].
Proof.
  intros Hname. unfold filepath.Join.
  destruct (valid_seg_tests Hname) as [Hne _].
  destruct path as [|c path'].
  - cbn [String.eqb]. rewrite Hne, segments_Clean.
    now apply segments_name.
  - cbn [String.eqb]. rewrite segments_Clean.
    unfold segments. cbn [filepath.isRooted append].
    unfold filepath.splitSlash.
    change (String c (path' ++ String "/" name))%string
      with (String c path' ++ String "/" name)%string.
    rewrite splitByte_app, (splitByte_plain _ _ (valid_free Hname)).
    rewrite cleanSegs_app, cleanSegs_valid by now constructor.
    now rewrite rev_involutive.
Qed.

Section CompilerProperties.

Variable Match : string -> string -> bool.
Variable Glob : string -> list (string * node).

Lemma stageLoop_window (pre : list buildStage) :
  forall (window selection : list string),
  exists selection',
    stageLoop Match Glob pre (excludePatterns pre ++ window, selection)
    = Done (window, selection').
Proof.
  induction pre as [|s pre IH]; intros window selection; simpl.
  - eexists; reflexivity.
  - destruct (include s) eqn:Hs; simpl.
    + apply IH.
    + rewrite <- app_assoc, <- (length_map glob), sliceFrom_app. apply IH.
Qed.

(** C1. The window starts as the concatenation, in stage order, of the
    patterns of all Exclude stages.  When the loop reaches a stage [s],
    with [pre] before it and [post] after it, the window holds the
    patterns of the Exclude stages among [s :: post], and the slice never
    panics.  For an Include stage that is the patterns of the Exclude
    stages strictly after it; for an Exclude stage with N rules the first
    N entries are its own patterns and the step removes exactly those. *)
Theorem exclusion_window_invariant (pre : list buildStage) (s : buildStage)
    (post : list buildStage) :
  allExclusions (pre ++ s :: post) = excludePatterns (pre ++ s :: post) /\
  exists selection,
    stageLoop Match Glob pre (allExclusions (pre ++ s :: post), [])
    = Done (excludePatterns (s :: post), selection) /\
    (include s = true ->
       excludePatterns (s :: post) = excludePatterns post) /\
    (include s = false ->
       firstn (length (rules s)) (excludePatterns (s :: post))
       = map glob (rules s) /\
       skipn (length (rules s)) (excludePatterns (s :: post))
       = excludePatterns post /\
       stageStep Match Glob (excludePatterns (s :: post), selection) s
       = Done (excludePatterns post, selection)).
Proof.
  split; [apply allExclusions_spec|].
  rewrite allExclusions_spec, excludePatterns_app.
  destruct (stageLoop_window pre (excludePatterns (s :: post)) [])
    as [selection Hloop].
  exists selection. split; [exact Hloop|]. split.
  - intros Hs. simpl. now rewrite Hs.
  - intros Hs. simpl. rewrite Hs. rewrite <- (length_map glob (rules s)).
    repeat split.
    + rewrite firstn_app, Nat.sub_diag, firstn_all. simpl.
      now rewrite app_nil_r.
    + rewrite skipn_app, Nat.sub_diag, skipn_all. reflexivity.
    + now rewrite sliceFrom_app.
Qed.

Lemma compileStages_returns (stages : list buildStage) :
  exists selection, compileStages Match Glob stages = Done (selection, None).
Proof.
  destruct stages as [|s stages]; [eexists; reflexivity|].
  unfold compileStages.
  destruct (stageLoop_window (s :: stages) [] []) as [selection H].
  rewrite app_nil_r in H. rewrite allExclusions_spec, H.
  eexists; reflexivity.
Qed.

(** *** The walk *)

Lemma selected_eq (exclusions : list string) (path : string) (n : node) :
  selected Match exclusions path n
  = if os.IsDir (lstat n) then
      if isExcluded Match exclusions path then []
      else if nodeReadable n then
        flat_map (fun c => selected Match exclusions
                             (filepath.Join path (nodeName c)) c)
                 (nodeEntries n)
      else []
    else if skipFileType (lstat n) || isExcluded Match exclusions path
         then [] else [path].
Proof. destruct n; reflexivity. Qed.

(** The walk function appends at most the visited path, and asks to skip
    exactly the excluded directories. *)
Lemma visit_spec (exclusions : list string) (wpath : string)
    (info : os.FileInfo) (err : error) (selection : list string) :
  visit Match exclusions wpath info err selection
  = if skipFileType info then (selection, None)
    else if os.IsDir info then
      (selection,
       if isExcluded Match exclusions wpath then Some filepath.SkipDir
       else None)
    else (selection
            ++ (if isExcluded Match exclusions wpath then [] else [wpath]),
          None).
Proof.
  unfold visit. destruct (skipFileType info); [reflexivity|].
  destruct (os.IsDir info), (isExcluded Match exclusions wpath); simpl;
    rewrite ?app_nil_r; reflexivity.
Qed.

(** One walk appends its pre-order listing, and returns [SkipDir] only
    for an excluded directory. *)
Lemma walk_visit (exclusions : list string) (n : node) :
  forall (path : string) (selection : list string),
    filepath.walk (visit Match exclusions) path n selection
    = (selection ++ selected Match exclusions path n,
       if os.IsDir (lstat n) && isExcluded Match exclusions path
       then Some filepath.SkipDir else None).
Proof.
  induction n as [name st_mode readable entries IH] using node_induction.
  intros path selection.
  change (lstat (Node name st_mode readable entries))
    with {| os.Name := name; os.Mode := os.fileMode st_mode |}.
  cbn [filepath.walk selected].
  set (info := {| os.Name := name; os.Mode := os.fileMode st_mode |}).
  destruct (os.IsDir info) eqn:Hdir; cbn [negb andb].
  - assert (Hskip : skipFileType info = false)
      by exact (dir_not_skipped _ _ Hdir).
    rewrite visit_spec, Hskip, Hdir.
    destruct (isExcluded Match exclusions path) eqn:Hex.
    + rewrite app_nil_r. destruct readable; reflexivity.
    + destruct readable; [|now rewrite app_nil_r].
      clear Hdir Hex. revert selection.
      induction IH as [|c rest Hc _ IHrest]; intros selection.
      * now rewrite app_nil_r.
      * rewrite Hc. cbn [flat_map]. rewrite app_assoc.
        destruct (os.IsDir (lstat c)) eqn:Hcdir; cbn [andb].
        -- destruct (isExcluded Match exclusions
                       (filepath.Join path (nodeName c))); apply IHrest.
        -- apply IHrest.
  - rewrite visit_spec, Hdir.
    destruct (skipFileType info); cbn [orb].
    + now rewrite app_nil_r.
    + destruct (isExcluded Match exclusions path); reflexivity.
Qed.

Lemma Walk_visit (exclusions : list string) (root : string) (n : node)
    (selection : list string) :
  filepath.Walk root n (visit Match exclusions) selection
  = (selection ++ selected Match exclusions root n, None).
Proof.
  unfold filepath.Walk. rewrite walk_visit.
  destruct (os.IsDir (lstat n) && isExcluded Match exclusions root);
    reflexivity.
Qed.

Lemma walkMatches_spec (exclusions : list string)
    (matches : list (string * node)) :
  forall selection,
    walkMatches Match exclusions matches selection
    = selection
        ++ flat_map (fun m => selected Match exclusions (fst m) (snd m))
                    matches.
Proof.
  unfold walkMatches.
  induction matches as [|m matches IH]; intros selection; simpl.
  - now rewrite app_nil_r.
  - rewrite Walk_visit. simpl. rewrite IH, app_assoc. reflexivity.
Qed.

Lemma includeRules_spec (exclusions : list string) (rs : list buildRule) :
  forall selection,
    includeRules Match Glob exclusions rs selection
    = selection ++ flat_map (ruleSelection Match Glob exclusions) rs.
Proof.
  unfold includeRules.
  induction rs as [|r rs IH]; intros selection; simpl.
  - now rewrite app_nil_r.
  - rewrite walkMatches_spec, IH, <- app_assoc. reflexivity.
Qed.

Lemma stageLoop_spec (stages : list buildStage) :
  forall selection,
    stageLoop Match Glob stages (excludePatterns stages, selection)
    = Done ([], selection ++ selectionOf Match Glob stages).
Proof.
  induction stages as [|s post IH]; intros selection; simpl.
  - now rewrite app_nil_r.
  - destruct (include s) eqn:Hs; simpl.
    + rewrite includeRules_spec, IH, <- app_assoc. reflexivity.
    + rewrite <- (length_map glob), sliceFrom_app. apply IH.
Qed.

Lemma compileStages_spec (stages : list buildStage) :
  compileStages Match Glob stages
  = Done (selectionOf Match Glob stages, None).
Proof.
  destruct stages as [|s post]; [reflexivity|].
  unfold compileStages.
  now rewrite allExclusions_spec, stageLoop_spec.
Qed.

(** *** Exclusion and pruning *)

Lemma isExcluded_iff (exclusions : list string) (wpath : string) :
  isExcluded Match exclusions wpath = true <->
  exists excl, In excl exclusions /\
               (Match excl wpath = true \/
                Match excl (filepath.Base wpath) = true).
Proof.
  induction exclusions as [|e rest IH]; simpl.
  - split; [discriminate|]. intros [excl [[] _]].
  - destruct (Match e wpath || Match e (filepath.Base wpath)) eqn:He.
    + split; [|reflexivity]. intros _. exists e. split; [now left|].
      now apply orb_true_iff.
    + rewrite IH. apply orb_false_iff in He. destruct He as [Hf Hb].
      split.
      * intros [excl [Hin Hm]]. exists excl. split; [now right|exact Hm].
      * intros [excl [[<- | Hin] Hm]].
        -- destruct Hm; congruence.
        -- exists excl. split; assumption.
Qed.

Lemma selected_reaches (exclusions : list string) (n : node) :
  forall (path wpath : string),
    In wpath (selected Match exclusions path n) ->
    exists m, reaches Match exclusions path n wpath m /\
              os.IsDir (lstat m) = false /\
              skipFileType (lstat m) = false /\
              isExcluded Match exclusions wpath = false.
Proof.
  induction n as [name st_mode readable entries IH] using node_induction.
  intros path wpath. rewrite selected_eq.
  cbn [nodeReadable nodeEntries].
  destruct (os.IsDir (lstat (Node name st_mode readable entries))) eqn:Hdir.
  - destruct (isExcluded Match exclusions path) eqn:Hex; [intros []|].
    destruct readable eqn:Hr; [|intros []].
    intros Hin. apply in_flat_map in Hin. destruct Hin as [c [Hc Hin]].
    rewrite Forall_forall in IH.
    destruct (IH c Hc _ _ Hin) as [m [Hreach Hm]].
    exists m. split; [|exact Hm].
    eapply reaches_below; eauto.
  - destruct (skipFileType (lstat (Node name st_mode readable entries)))
      eqn:Hskip; [intros []|].
    destruct (isExcluded Match exclusions path) eqn:Hex; [intros []|].
    intros [<- | []].
    exists (Node name st_mode readable entries).
    repeat split; [constructor|assumption..].
Qed.

Lemma reaches_selected (exclusions : list string) (path : string)
    (n : node) (wpath : string) (m : node) :
  reaches Match exclusions path n wpath m ->
  os.IsDir (lstat m) = false ->
  skipFileType (lstat m) = false ->
  isExcluded Match exclusions wpath = false ->
  In wpath (selected Match exclusions path n).
Proof.
  intros Hreach Hdir Hskip Hex.
  induction Hreach as [path n | path d c wpath m Hd Hr Hx Hc Hreach IH];
    rewrite selected_eq.
  - rewrite Hdir, Hskip, Hex. now left.
  - rewrite Hd, Hx, Hr. apply in_flat_map. exists c. auto.
Qed.

(** C6, as the code has it.  During one walk against the window
    [exclusions]:
    - an entry is excluded exactly when some pattern of the window
      matches its full path or its base name;
    - the walk function never appends a directory, and asks to skip
      an excluded one;
    - a walk started at an excluded directory selects nothing, whatever
      the directory contains;
    - a path is appended exactly when the walk reaches a non-directory
      entry of a type that is kept, at that path, that is not excluded;
      the walk reaches only the root and the entries of readable
      directories it reached and that are not excluded: nothing below an
    excluded directory is reached by that walk. *)
Theorem walk_exclusion (exclusions : list string) :
  (forall wpath,
      isExcluded Match exclusions wpath = true <->
      exists excl, In excl exclusions /\
                   (Match excl wpath = true \/
                    Match excl (filepath.Base wpath) = true)) /\
  (forall wpath info err selection,
      os.IsDir info = true ->
      fst (visit Match exclusions wpath info err selection) = selection /\
      (isExcluded Match exclusions wpath = true ->
       skipFileType info = false ->
       snd (visit Match exclusions wpath info err selection)
       = Some filepath.SkipDir)) /\
  (forall path d selection,
      os.IsDir (lstat d) = true ->
      isExcluded Match exclusions path = true ->
      filepath.Walk path d (visit Match exclusions) selection
      = (selection, None)) /\
  (forall root n selection wpath,
      In wpath (fst (filepath.Walk root n (visit Match exclusions) selection))
      <->
      In wpath selection \/
      exists m, reaches Match exclusions root n wpath m /\
                os.IsDir (lstat m) = false /\
                skipFileType (lstat m) = false /\
                isExcluded Match exclusions wpath = false).
Proof.
  split; [apply isExcluded_iff|]. split; [|split].
  - intros wpath info err selection Hdir. rewrite visit_spec, Hdir.
    split.
    + destruct (skipFileType info); reflexivity.
    + intros -> ->. reflexivity.
  - intros path d selection Hdir Hex.
    rewrite Walk_visit, selected_eq, Hdir, Hex. now rewrite app_nil_r.
  - intros root n selection wpath. rewrite Walk_visit. simpl.
    rewrite in_app_iff. split.
    + intros [H | H]; [now left|right]. now apply selected_reaches.
    + intros [H | [m [Hreach [Hdir [Hskip Hex]]]]]; [now left|right].
      eapply reaches_selected; eauto.
Qed.

(** *** Stage sequences *)

Lemma selectionOf_excludes (stages : list buildStage) :
  Forall (fun stage => include stage = false) stages ->
  selectionOf Match Glob stages = [].
Proof.
  induction 1 as [|s stages Hs _ IH]; simpl; [reflexivity|].
  now rewrite Hs, IH.
Qed.

(** C7. A stage sequence made of Exclude stages only compiles to the
    empty selection, with no error; so does the empty sequence. *)
Theorem exclude_only_selects_nothing (stages : list buildStage)
    (Hexcl : Forall (fun stage => include stage = false) stages) :
  compileStages Match Glob stages = Done ([], None) /\
  compileStages Match Glob [] = Done ([], None).
Proof.
  split; [|reflexivity].
  now rewrite compileStages_spec, selectionOf_excludes.
Qed.

(** *** One walk lists a path once *)

Lemma selected_extends (exclusions : list string) (n : node) :
  wellListed n ->
  forall path wpath,
    In wpath (selected Match exclusions path n) ->
    exists suffix, segments wpath = segments path ++ suffix.
Proof.
  induction n as [name st_mode readable entries IH] using node_induction.
  intros Hwl path wpath. rewrite selected_eq.
  cbn [nodeReadable nodeEntries].
  inversion Hwl as [? ? ? ? Hnames _ Hsub]; subst.
  destruct (os.IsDir _).
  - destruct (isExcluded Match exclusions path); [intros []|].
    destruct readable; [|intros []].
    intros Hin. apply in_flat_map in Hin. destruct Hin as [c [Hc Hin]].
    rewrite Forall_forall in IH, Hnames, Hsub.
    destruct (IH c Hc (Hsub c Hc) _ _ Hin) as [suffix Hs].
    rewrite (segments_Join _ (Hnames c Hc)), <- app_assoc in Hs.
    eexists. exact Hs.
  - destruct (skipFileType _ || isExcluded Match exclusions path);
      [intros []|].
    intros [<- | []]. exists []. now rewrite app_nil_r.
Qed.

Lemma NoDup_flat_map_by_name (f : node -> list string) (entries : list node) :
  NoDup (map nodeName entries) ->
  (forall c, In c entries -> NoDup (f c)) ->
  (forall c c' w, In c entries -> In c' entries ->
                  In w (f c) -> In w (f c') -> nodeName c = nodeName c') ->
  NoDup (flat_map f entries).
Proof.
  induction entries as [|c rest IH]; intros Hnames Heach Hsame; simpl.
  - constructor.
  - inversion Hnames as [|? ? Hnotin Hrest]; subst.
    apply NoDup_app.
    + apply Heach. now left.
    + apply IH; [assumption|intros; apply Heach; now right|].
      intros c1 c2 w H1 H2. apply Hsame; now right.
    + intros w Hw Hw'. apply in_flat_map in Hw'.
      destruct Hw' as [c' [Hc' Hw']].
      apply Hnotin. rewrite (Hsame c c' w); auto; [|now left|now right].
      now apply in_map.
Qed.

Lemma walk_lists_once (exclusions : list string) (n : node) :
  wellListed n ->
  forall path, NoDup (selected Match exclusions path n).
Proof.
  induction n as [name st_mode readable entries IH] using node_induction.
  intros Hwl path. rewrite selected_eq. cbn [nodeReadable nodeEntries].
  inversion Hwl as [? ? ? ? Hnames Hdistinct Hsub]; subst.
  destruct (os.IsDir _).
  - destruct (isExcluded Match exclusions path); [constructor|].
    destruct readable; [|constructor].
    rewrite Forall_forall in IH, Hnames, Hsub.
    apply NoDup_flat_map_by_name.
    + exact Hdistinct.
    + intros c Hc. now apply IH; [|apply Hsub].
    + intros c c' w Hc Hc' Hw Hw'.
      destruct (selected_extends _ (Hsub c Hc) _ _ Hw) as [s Hs].
      destruct (selected_extends _ (Hsub c' Hc') _ _ Hw') as [s' Hs'].
      rewrite (segments_Join _ (Hnames c Hc)), <- app_assoc in Hs.
      rewrite (segments_Join _ (Hnames c' Hc')), <- app_assoc in Hs'.
      rewrite Hs in Hs'. apply app_inv_head in Hs'.
      now inversion Hs'.
  - destruct (skipFileType _ || isExcluded Match exclusions path);
      repeat constructor. intros [].
Qed.

(** C3, as the code has it.  The selection is the concatenation, in
    stage order, rule order and glob match order, of the pre-order
    listings of the walks of the root matches, each against the patterns
    of the Exclude stages after its stage.  One walk of a tree whose
    directories list valid, distinct names lists a path at most once;
    nothing is removed across walks, so a path is listed once for every
    walk that selects it. *)
Theorem selection_order (stages : list buildStage) :
  compileStages Match Glob stages
  = Done (selectionOf Match Glob stages, None) /\
  (forall exclusions root n,
      wellListed n -> NoDup (selected Match exclusions root n)) /\
  (forall exclusions root n selection,
      filepath.Walk root n (visit Match exclusions) selection
      = (selection ++ selected Match exclusions root n, None)).
Proof.
  split; [apply compileStages_spec|]. split.
  - intros exclusions root n Hwl. now apply walk_lists_once.
  - intros. apply Walk_visit.
Qed.

End CompilerProperties.

(** ** The order-sensitivity test *)

Lemma testRules_stages : loadStages testRules [] = (testStages, None).
Proof. vm_compute. reflexivity. Qed.

(** C2, as stated, fails: the rule text of the test compiles to a
    selection that holds [secret.txt] too. *)
Lemma order_test_selects_secret :
  compileStages filepath.Match (filepath.Glob testDir)
    (fst (loadStages testRules []))
  = Done (["a.txt"; "secret.txt"], None) /\
  compileStages filepath.Match (filepath.Glob testDir)
    (fst (loadStages testRules []))
  <> Done (["a.txt"], None).
Proof.
  assert (H : compileStages filepath.Match (filepath.Glob testDir)
                (fst (loadStages testRules []))
              = Done (["a.txt"; "secret.txt"], None))
    by (vm_compute; reflexivity).
  split; [exact H|]. rewrite H. discriminate.
Qed.

(** C2, as the code has it.  The rule text of the test loads as
    [Include *.txt] [Exclude secret.txt] [Include secret.txt] and compiles
    to [a.txt; secret.txt].  In general, for stages [Include A]
    [Exclude B] [Include C], the walks of A run against the patterns of B,
    which comes after A, while the walks of C run against the empty
    window, in which nothing is excluded: B excludes what A matched, not
    what C matched. *)
Theorem order_sensitivity :
  loadStages testRules [] = (testStages, None) /\
  compileStages filepath.Match (filepath.Glob testDir) testStages
  = Done (["a.txt"; "secret.txt"], None) /\
  (forall (Match : string -> string -> bool)
          (Glob : string -> list (string * node))
          (sa sb sc : string) (A B C : list buildRule),
      compileStages Match Glob
        [ {| include := true; source := sa; rules := A |};
          {| include := false; source := sb; rules := B |};
          {| include := true; source := sc; rules := C |} ]
      = Done (flat_map (ruleSelection Match Glob (map glob B)) A
              ++ flat_map (ruleSelection Match Glob []) C, None)) /\
  (forall (Match : string -> string -> bool) (wpath : string),
      isExcluded Match [] wpath = false).
Proof.
  split; [apply testRules_stages|].
  split; [vm_compute; reflexivity|].
  split; [|reflexivity].
  intros Match Glob sa sb sc A B C.
  rewrite compileStages_spec. simpl. now rewrite !app_nil_r.
Qed.

(** C3, as stated, fails: two rules of one Include stage that both match
    [a.txt] list it twice. *)
Lemma selection_lists_path_twice :
  compileStages filepath.Match (filepath.Glob testDir)
    [ {| include := true; source := "backup.list";
         rules := [{| glob := "*.txt"; line := 2 |};
                   {| glob := "a.txt"; line := 3 |}] |} ]
  = Done (["a.txt"; "secret.txt"; "a.txt"], None) /\
  ~ NoDup ["a.txt"; "secret.txt"; "a.txt"].
Proof.
  split; [vm_compute; reflexivity|].
  intros H. inversion H as [|x l Hnotin _]; subst.
  apply Hnotin. simpl. auto.
Qed.

(** C6, as stated, fails.  The walk of the root match [docs] reaches the
    directory [docs/drafts], which the window excludes, and does not go
    into it; [docs/drafts/final.txt] is a root match of the next rule, is
    walked on its own, matches no pattern by path or base name, and is
    selected. *)
Lemma root_match_below_excluded_directory :
  let docs := directory "docs" [directory "drafts" [regularFile "final.txt"];
                                regularFile "readme.txt"] in
  let drafts := directory "drafts" [regularFile "final.txt"] in
  exists selection,
    compileStages filepath.Match (filepath.Glob docsDir) docsStages
    = Done (selection, None) /\
    reaches filepath.Match ["drafts"] "docs" docs "docs/drafts" drafts /\
    os.IsDir (lstat drafts) = true /\
    isExcluded filepath.Match ["drafts"] "docs/drafts" = true /\
    In (regularFile "final.txt") (nodeEntries drafts) /\
    filepath.Join "docs/drafts" "final.txt" = "docs/drafts/final.txt" /\
    In "docs/drafts/final.txt" selection.
Proof.
  cbv zeta. exists ["docs/readme.txt"; "docs/drafts/final.txt"].
  split; [vm_compute; reflexivity|]. split.
  - apply reaches_below
      with (c := directory "drafts" [regularFile "final.txt"]).
    + vm_compute. reflexivity.
    + reflexivity.
    + vm_compute. reflexivity.
    + now left.
    + change (filepath.Join "docs" (nodeName (directory "drafts"
                [regularFile "final.txt"]))) with "docs/drafts".
      apply reaches_here.
  - repeat split; try (vm_compute; reflexivity); simpl; auto.
Qed.

(** ** Instances *)

Lemma exclusion_window_invariant_witness :
  exists selection,
    stageLoop filepath.Match (filepath.Glob testDir) (firstn 1 testStages)
      (allExclusions testStages, [])
    = Done (["secret.txt"], selection) /\
    stageStep filepath.Match (filepath.Glob testDir)
      (["secret.txt"], selection)
      {| include := false; source := "backup.list";
         rules := [{| glob := "secret.txt"; line := 4 |}] |}
    = Done ([], selection).
Proof.
  destruct (exclusion_window_invariant filepath.Match (filepath.Glob testDir)
              (firstn 1 testStages)
              {| include := false; source := "backup.list";
                 rules := [{| glob := "secret.txt"; line := 4 |}] |}
              (skipn 2 testStages))
    as [_ [selection [Hloop [_ Hexcl]]]].
  exists selection. split; [exact Hloop|].
  destruct (Hexcl eq_refl) as [_ [_ Hstep]]. exact Hstep.
Defined.

Lemma selection_order_witness :
  NoDup (selected filepath.Match ["drafts"] "." docsDir) /\
  selected filepath.Match ["drafts"] "." docsDir = ["docs/readme.txt"].
Proof.
  split.
  - apply (selection_order filepath.Match (filepath.Glob docsDir) docsStages).
    repeat (constructor; simpl);
      try (repeat split; (discriminate || reflexivity));
      intuition discriminate.
  - vm_compute. reflexivity.
Defined.

Lemma exclude_only_selects_nothing_witness :
  compileStages filepath.Match (filepath.Glob testDir)
    [ {| include := false; source := "backup.list";
         rules := [{| glob := "secret.txt"; line := 2 |}] |};
      {| include := false; source := "backup.list";
         rules := [{| glob := "*.txt"; line := 4 |}] |} ]
  = Done ([], None).
Proof.
  apply (exclude_only_selects_nothing filepath.Match (filepath.Glob testDir)).
  repeat constructor.
Defined.

Lemma walk_exclusion_witness :
  isExcluded filepath.Match ["node_modules"] "src/node_modules" = true /\
  filepath.Walk "src/node_modules"
    (directory "node_modules" [regularFile "index.js"])
    (visit filepath.Match ["node_modules"]) ["src/main.go"]
  = (["src/main.go"], None).
Proof.
  destruct (walk_exclusion filepath.Match ["node_modules"])
    as [Hiff [_ [Hprune _]]].
  split.
  - apply Hiff. exists "node_modules". split; [now left|]. right.
    vm_compute. reflexivity.
  - apply Hprune.
    + vm_compute. reflexivity.
    + vm_compute. reflexivity.
Defined.

(** ** Metadata capture *)

Section CaptureProperties.

Variable Lstat : string -> option Stat_t.
Variable Readlink : string -> option string.
Variable getpwuid_r : Z -> option string.
Variable getgrgid_r : Z -> option string.

Local Abbreviation capture :=
  (buildTarHeader Lstat Readlink getpwuid_r getgrgid_r).

Lemma capture_some (path : string) (info : Stat_t) :
  Lstat path = Some info ->
  exists header,
    capture path = Some header /\
    tar.Mode header = st_mode info /\
    tar.Uid header = st_uid info /\
    tar.Gid header = st_gid info /\
    tar.Uname header = GoString (getpwuid_r (st_uid info)) /\
    tar.Gname header = GoString (getgrgid_r (st_gid info)).
Proof.
  intros H. unfold buildTarHeader. rewrite H.
  eexists. split; [reflexivity|]. simpl. repeat split; reflexivity.
Qed.

Lemma capture_none (path : string) :
  capture path = None <-> Lstat path = None.
Proof.
  unfold buildTarHeader. destruct (Lstat path); split; congruence.
Qed.

(** C5. Capture is absent exactly when the non-following stat fails.
    When the stat succeeds a header is produced whatever the identity
    lookups answer: the numeric uid and gid are those of the stat, and a
    name whose lookup fails is the empty string. *)
Theorem capture_absent_iff_stat_fails (path : string) :
  (buildTarHeader Lstat Readlink getpwuid_r getgrgid_r path = None <->
   Lstat path = None) /\
  (forall info,
      Lstat path = Some info ->
      exists header,
        buildTarHeader Lstat Readlink getpwuid_r getgrgid_r path
        = Some header /\
        tar.Uid header = st_uid info /\
        tar.Gid header = st_gid info /\
        (getpwuid_r (st_uid info) = None -> tar.Uname header = "") /\
        (getgrgid_r (st_gid info) = None -> tar.Gname header = "") /\
        (forall name, getpwuid_r (st_uid info) = Some name ->
                      tar.Uname header = name) /\
        (forall name, getgrgid_r (st_gid info) = Some name ->
                      tar.Gname header = name)).
Proof.
  split; [apply capture_none|].
  intros info Hinfo.
  destruct (capture_some Hinfo)
    as [header [Hh [_ [Huid [Hgid [Hun Hgn]]]]]].
  exists header. rewrite Hun, Hgn.
  repeat split; try assumption; intros; 
    match goal with H : _ = _ |- _ => rewrite H; reflexivity end.
Qed.

Lemma permission_bits_have_no_type (mode : Z) :
  Z.land (Z.land mode 4095) unix.S_IFMT = 0%Z.
Proof. now rewrite <- Z.land_assoc, Z.land_0_r. Qed.

(** C10. The mode of a captured header is the raw [st_mode] of the
    stat: its file-type bits are those of the entry, so for an entry
    with type bits it is not the permission bits alone. *)
Theorem header_mode_is_raw_mode (path : string) (header : tar.Header)
    (Hcapture : buildTarHeader Lstat Readlink getpwuid_r getgrgid_r path
                = Some header) :
  exists info,
    Lstat path = Some info /\
    tar.Mode header = st_mode info /\
    Z.land (tar.Mode header) unix.S_IFMT = Z.land (st_mode info) unix.S_IFMT /\
    (Z.land (st_mode info) unix.S_IFMT <> 0%Z ->
     tar.Mode header <> Z.land (st_mode info) 4095).
Proof.
  destruct (Lstat path) as [info|] eqn:Hinfo.
  - destruct (capture_some Hinfo) as [h [Hh [Hmode _]]].
    assert (h = header) by congruence. subst h.
    exists info. rewrite Hmode. repeat split.
    intros Htype Heq. apply Htype.
    rewrite Heq at 1. apply permission_bits_have_no_type.
  - apply capture_none in Hinfo. congruence.
Qed.

End CaptureProperties.

(** ** The confidentiality layer *)

Lemma alloc_heap (b : buffer) (w0 : World) : heap (alloc b w0) = heap w0 ++ [b].
Proof. reflexivity. Qed.

Lemma Write_heap (out : Writer) (data : list byte) (w0 : World) :
  heap (fst (Write out data w0)) = heap w0.
Proof.
  unfold Write. destruct (sinkError w0); [reflexivity|].
  destruct out; reflexivity.
Qed.

(** Setting up the stream only allocates: no buffer that exists is
    overwritten. *)
Lemma setupCryptoStream_keeps_heap (output : Writer) (w0 : World) :
  exists more, heap (fst (setupCryptoStream output w0)) = heap w0 ++ more.
Proof.
  unfold setupCryptoStream, ReadPassword.
  cbn [terminal ioCombo_Write withStdout].
  destruct (terminal w0) as [|[entered|err] rest].
  - exists []. cbn. now rewrite app_nil_r.
  - match goal with |- context [entropy ?x] => set (w3 := x) end.
    assert (H3 : exists more, heap w3 = heap w0 ++ more).
    { unfold w3. destruct (String.length entered <? 32)%nat;
        rewrite !alloc_heap; cbn [heap withTerminal withStdout];
        rewrite <- ?app_assoc; eexists; reflexivity. }
    destruct H3 as [more H3].
    destruct (entropy w3) as [|[iv|] rest'].
    + exists more. exact H3.
    + destruct (Write output iv (withEntropy rest' w3)) as [w5 e] eqn:HW.
      assert (H5 : heap w5 = heap w3).
      { change w5 with (fst (w5, e)). rewrite <- HW, Write_heap.
        reflexivity. }
      destruct e; simpl.
      * exists more. congruence.
      * rewrite H5, H3, <- app_assoc. eexists; reflexivity.
    + exists more. exact H3.
  - exists []. cbn. now rewrite app_nil_r.
Qed.

(** C8 fails on the code.  When [rand.Read] fails, and when the write of
    the IV fails, [setupCryptoStream] returns its error with the entered
    passphrase, its padded copy and the key bytes left in memory, none of
    them zeroed; no [managedWriter] is returned whose [Close] could zero
    anything.  When set-up succeeds, standard output holds the prompt,
    the line end and the IV, and [Close] zeroes the writer's own slice
    only. *)
Theorem passphrase_left_in_memory :
  let padded := padPassword "hunter2" in
  let leftovers := [StringBuf "hunter2"; StringBuf padded;
                    SliceBuf (list_byte_of_string padded)] in
  (exists w1,
      setupCryptoStream Stdout
        (withEntropy [None] (withTerminal [inl "hunter2"] quietWorld))
      = (w1, inr "rand.Read failed") /\
      heap w1 = leftovers) /\
  (exists w1,
      setupCryptoStream Stdout
        {| terminal := [inl "hunter2"]; entropy := [Some sixteenBytes];
           sinkError := Some "write failed"; stdout := []; stderr := [];
           files := []; heap := [] |}
      = (w1, inr "write failed") /\
      heap w1 = leftovers) /\
  (exists w1 mw w2,
      setupCryptoStream Stdout
        (withEntropy [Some sixteenBytes]
           (withTerminal [inl "hunter2"] quietWorld))
      = (w1, inl mw) /\
      stdout w1
      = list_byte_of_string ("Password: " ++ lineEnd) ++ sixteenBytes /\
      managedWriter_Close mw w1 = (w2, None) /\
      heap w2 = leftovers ++ [SliceBuf (repeat Byte.x00 32)]).
Proof.
  cbv zeta. repeat split.
  - eexists. split; vm_compute; reflexivity.
  - eexists. split; vm_compute; reflexivity.
  - do 3 eexists. repeat split; vm_compute; reflexivity.
Qed.

(** ** The archive pipeline *)

Lemma skipn_past (A : Type) (base : list A) (x : A) (rest : list A) :
  skipn (S (length base)) (base ++ x :: rest) = rest.
Proof. induction base as [|y base IH]; [reflexivity|exact IH]. Qed.

Lemma firstn_upto (A : Type) (base rest : list A) :
  firstn (length base) (base ++ rest) = base.
Proof.
  induction base as [|y base IH]; [reflexivity|].
  simpl. now rewrite IH.
Qed.

Lemma nth_error_at (A : Type) (base : list A) (x : A) (rest : list A) :
  nth_error (base ++ x :: rest) (length base) = Some x.
Proof. induction base as [|y base IH]; [reflexivity|exact IH]. Qed.

Lemma appendToFile_fresh (base : list (string * list byte)) (path : string)
    (data : list byte) (rest : list (string * list byte)) :
  appendToFile (length base) data (base ++ (path, []) :: rest)
  = base ++ (path, data) :: rest.
Proof.
  unfold appendToFile.
  now rewrite nth_error_at, firstn_upto, skipn_past.
Qed.

Lemma deliver_fresh_files (data : list byte) (paths : list string) :
  forall (base : list (string * list byte)) (rest : list (string * list byte)),
    fold_left (fun fs handle => appendToFile handle data fs)
              (seq (length base) (length paths))
              (base ++ map (fun p => (p, [])) paths ++ rest)
    = base ++ map (fun p => (p, data)) paths ++ rest.
Proof.
  induction paths as [|p paths IH]; intros base rest; simpl.
  - reflexivity.
  - rewrite appendToFile_fresh.
    specialize (IH (base ++ [(p, data)]) rest).
    rewrite length_app in IH. simpl in IH.
    rewrite Nat.add_1_r in IH. rewrite <- !app_assoc in IH. simpl in IH.
    exact IH.
Qed.

Lemma logged_nil (w0 : World) : logged [] w0 = w0.
Proof. unfold logged. rewrite app_nil_r. destruct w0; reflexivity. Qed.

Lemma logged_logged (a b : list string) (w0 : World) :
  logged b (logged a w0) = logged (a ++ b) w0.
Proof. unfold logged, withStderr. simpl. now rewrite app_assoc. Qed.

Lemma eprint_logged (msg : string) (w0 : World) :
  eprint msg w0 = logged [msg] w0.
Proof. reflexivity. Qed.

Section EmissionProperties.

Variable Match : string -> string -> bool.
Variable Glob : string -> list (string * node).
Variable Lstat : string -> option Stat_t.
Variable Readlink : string -> option string.
Variable getpwuid_r : Z -> option string.
Variable getgrgid_r : Z -> option string.
Variable OpenList : string -> listFile + string.
Variable OpenFile : string -> error.
Variable goHome : error.
Variable File : Type.
Variable Open : string -> File + string.
Variable TarWriter : Type.
Variable NewWriter : TarWriter.
Variable WriteHeader : TarWriter -> tar.Header -> TarWriter * list byte * error.
Variable Copy : TarWriter -> File -> TarWriter * list byte * error.
Variable CloseTar : TarWriter -> list byte.
Variable gzip : list byte -> list byte.

Local Abbreviation capture :=
  (buildTarHeader Lstat Readlink getpwuid_r getgrgid_r).
Local Abbreviation archive :=
  (archiveFile Lstat Readlink getpwuid_r getgrgid_r Open WriteHeader Copy).
Local Abbreviation archiveList :=
  (archiveAll Lstat Readlink getpwuid_r getgrgid_r Open WriteHeader Copy).
Local Abbreviation stream :=
  (tarStream Lstat Readlink getpwuid_r getgrgid_r Open NewWriter WriteHeader
             Copy CloseTar).
Local Abbreviation emission :=
  (emit Lstat Readlink getpwuid_r getgrgid_r Open NewWriter WriteHeader Copy
        CloseTar gzip).
Local Abbreviation build :=
  (runBuild Match Glob Lstat Readlink getpwuid_r getgrgid_r OpenList OpenFile
            goHome Open NewWriter WriteHeader Copy CloseTar gzip).

(** *** Per-file errors *)

(** Archiving one file touches the world by a diagnostic at most, and
    what it does to the pipeline does not depend on the world. *)
Lemma archiveFile_shape (p : pipeline TarWriter) (path : string) :
  exists p1 msgs err,
    forall w0, archive p path w0 = (p1, logged msgs w0, err).
Proof.
  unfold archiveFile.
  destruct (Open path) as [file|e].
  - destruct (capture path) as [header|].
    + destruct (WriteHeader (archiver p) header) as [[tw out] [e|]].
      * exists {| archiver := tw; compressed := compressed p ++ out |},
               [], None.
        intros w0. now rewrite logged_nil.
      * destruct (tar.Typeflag header =? tar.TypeSymlink)%char.
        -- exists {| archiver := tw; compressed := compressed p ++ out |},
                  [], None.
           intros w0. now rewrite logged_nil.
        -- destruct (Copy tw file) as [[tw' out'] [e|]];
             eexists _, [], _; intros w0; rewrite logged_nil; reflexivity.
    + exists p, [], None. intros w0. now rewrite logged_nil.
  - eexists p, [_], None. intros w0. reflexivity.
Qed.

Lemma archiveAll_shape (fileList : list string) :
  forall p, exists p1 msgs err,
    forall w0, archiveList fileList p w0 = (p1, logged msgs w0, err).
Proof.
  induction fileList as [|path rest IH]; intros p.
  - exists p, [], None. intros w0. cbn. now rewrite logged_nil.
  - destruct (archiveFile_shape p path) as [p1 [msgs [err H]]].
    destruct err as [e|].
    + exists p1, msgs, (Some e). intros w0. cbn [archiveAll]. now rewrite H.
    + destruct (IH p1) as [p2 [msgs' [err' H']]].
      exists p2, (msgs ++ msgs'), err'. intros w0. cbn [archiveAll].
      now rewrite H, H', logged_logged.
Qed.

Lemma emit_error (output : Writer) (fileList : list string) (w0 : World) :
  snd (emission output fileList w0)
  = snd (archiveList fileList
           {| archiver := NewWriter; compressed := [] |} w0).
Proof.
  unfold emit.
  destruct (archiveAll _ _ _ _ _ _ _ _ _ _) as [[p w1] err].
  destruct (Write _ _ _). reflexivity.
Qed.

(** C4. Archiving one selected file:
    - when the file cannot be opened, when capture is absent, and when
      writing the header fails, the file is skipped: no error is
      returned, nothing of the body is copied, and the loop goes on
      with the next file;
    - when copying the body fails after the header was written, an
      error is returned and the loop stops there;
    - the emission returns the error of the loop, and a run that gets
      to the emission returns what the emission returns (shown for
      standard output). *)
Theorem archiveFile_skips_or_aborts (p : pipeline TarWriter)
    (path : string) (w0 : World) :
  (forall err, Open path = inr err ->
     exists w1, archive p path w0 = (p, w1, None)) /\
  (forall file, Open path = inl file -> capture path = None ->
     archive p path w0 = (p, w0, None)) /\
  (forall file header tw out e,
     Open path = inl file -> capture path = Some header ->
     WriteHeader (archiver p) header = (tw, out, Some e) ->
     archive p path w0
     = ({| archiver := tw; compressed := compressed p ++ out |}, w0, None)) /\
  (forall p1 w1 rest,
     archive p path w0 = (p1, w1, None) ->
     archiveList (path :: rest) p w0 = archiveList rest p1 w1) /\
  (forall file header tw out tw' out' e,
     Open path = inl file -> capture path = Some header ->
     WriteHeader (archiver p) header = (tw, out, None) ->
     tar.Typeflag header <> tar.TypeSymlink ->
     Copy tw file = (tw', out', Some e) ->
     exists p2 msg,
       archive p path w0 = (p2, w0, Some msg) /\
       forall rest, archiveList (path :: rest) p w0 = (p2, w0, Some msg)) /\
  (forall output fileList w1,
     snd (emission output fileList w1)
     = snd (archiveList fileList
              {| archiver := NewWriter; compressed := [] |} w1)) /\
  (forall listPaths w1 stages w2,
     loadLists OpenList listPaths [] w1 = (stages, w2, None) ->
     goHome = None ->
     build listPaths [] w1
     = Done (emission Stdout (selectionOf Match Glob stages) w2)).
Proof.
  repeat split.
  - intros err H. unfold archiveFile. rewrite H. eexists. reflexivity.
  - intros file H1 H2. unfold archiveFile. now rewrite H1, H2.
  - intros file header tw out e H1 H2 H3. unfold archiveFile.
    now rewrite H1, H2, H3.
  - intros p1 w1 rest H. cbn [archiveAll]. now rewrite H.
  - intros file header tw out tw' out' e H1 H2 H3 Hsym H4.
    apply Ascii.eqb_neq in Hsym.
    assert (H : archive p path w0
                = ({| archiver := tw';
                      compressed := (compressed p ++ out) ++ out' |}, w0,
                   Some ("Error archiving '" ++ path ++ "': " ++ e)%string)).
    { unfold archiveFile. now rewrite H1, H2, H3, Hsym, H4. }
    do 2 eexists. split; [exact H|].
    intros rest. cbn [archiveAll]. now rewrite H.
  - apply emit_error.
  - intros listPaths w1 stages w2 Hload Hhome. unfold runBuild.
    rewrite Hload, Hhome, compileStages_spec. reflexivity.
Qed.

(** *** The whole run *)

Lemma loadStages_no_error (file : listFile) (stages : list buildStage) :
  snd (loadStages file stages) = None.
Proof. unfold loadStages. destruct (fold_left _ _ _). reflexivity. Qed.

Lemma loadLists_shape (listPaths : list string) :
  forall stages, exists stages' msgs,
    forall w0,
      loadLists OpenList listPaths stages w0 = (stages', logged msgs w0, None).
Proof.
  induction listPaths as [|listPath rest IH]; intros stages.
  - exists stages, []. intros w0. cbn. now rewrite logged_nil.
  - cbn [loadLists]. destruct (OpenList listPath) as [file|e].
    + pose proof (loadStages_no_error file stages) as Herr.
      destruct (loadStages file stages) as [stages1 err]. simpl in Herr.
      subst err. apply IH.
    + destruct (IH stages) as [stages' [msgs H]].
      eexists stages', (_ :: msgs). intros w0.
      rewrite H, eprint_logged, logged_logged. reflexivity.
Qed.

Lemma openOutputs_shape (outPaths : list string) :
  exists k err,
    (err = None <-> Forall (fun p => OpenFile p = None) outPaths) /\
    (err = None -> firstn k outPaths = outPaths) /\
    length (firstn k outPaths) = k /\
    forall opened w0,
      openOutputs OpenFile outPaths opened w0
      = (opened ++ seq (length (files w0)) k,
         withFiles (files w0 ++ map (fun p => (p, [])) (firstn k outPaths)) w0,
         err).
Proof.
  induction outPaths as [|outPath rest IH].
  - exists 0, None. split; [split; [constructor|reflexivity]|].
    repeat split. intros opened w0. cbn.
    rewrite !app_nil_r. destruct w0; reflexivity.
  - cbn [openOutputs]. destruct (OpenFile outPath) as [e|] eqn:Hout.
    + exists 0, (Some e).
      split; [split; [discriminate|intros HF; inversion HF; congruence]|].
      split; [discriminate|]. split; [reflexivity|].
      intros opened w0. cbn. rewrite !app_nil_r. destruct w0; reflexivity.
    + destruct IH as [k [err [Hiff [Hall [Hlen H]]]]].
      exists (S k), err.
      split; [rewrite Hiff; split;
              [intros HF; now constructor|intros HF; now inversion HF]|].
      split; [|split].
      * intros Herr. cbn. now rewrite (Hall Herr).
      * cbn. now rewrite Hlen.
      * intros opened w0. rewrite H. cbn [files withFiles].
        rewrite length_app. cbn [length map firstn seq].
        rewrite Nat.add_1_r, <- !app_assoc. reflexivity.
Qed.

Lemma tarStream_shape (fileList : list string) :
  exists p1 msgs err,
    (forall w0,
        archiveList fileList {| archiver := NewWriter; compressed := [] |} w0
        = (p1, logged msgs w0, err)) /\
    (forall w0, stream fileList w0 = compressed p1 ++ CloseTar (archiver p1)).
Proof.
  destruct (archiveAll_shape fileList
              {| archiver := NewWriter; compressed := [] |})
    as [p1 [msgs [err H]]].
  exists p1, msgs, err. split; [exact H|].
  intros w0. unfold tarStream. now rewrite H.
Qed.

Lemma emit_shape (outPaths : list string) (fileList : list string) :
  exists msgs err,
    (forall w0,
        snd (archiveList fileList {| archiver := NewWriter; compressed := [] |}
               w0) = err) /\
    forall w0 output,
      output = match outPaths with
               | [] => Stdout
               | [_] => FileWriter (length (files w0))
               | _ => MultiWriter (seq (length (files w0)) (length outPaths))
               end ->
      emission output fileList
        (withFiles (files w0 ++ map (fun p => (p, [])) outPaths) w0)
      = (finalWorld outPaths msgs outPaths
           (match sinkError w0 with
            | Some _ => []
            | None => gzip (stream fileList w0)
            end) w0, err).
Proof.
  destruct (tarStream_shape fileList) as [p1 [msgs [err [H Hs]]]].
  exists msgs, err. split; [intros w0; now rewrite H|].
  intros w0 output Hout.
  unfold emit. rewrite H, (Hs w0). unfold Write.
  cbn [sinkError logged withStderr withFiles].
  destruct (sinkError w0) as [e|] eqn:Hsink.
  - unfold finalWorld, logged, withStderr, withFiles. cbn.
    rewrite ?Hsink.
    destruct outPaths; cbn; rewrite ?app_nil_r; reflexivity.
  - unfold finalWorld, logged, deliver, withStderr, withFiles, withStdout.
    subst output.
    destruct outPaths as [|o [|o' ops]]; cbn; rewrite ?Hsink, ?app_nil_r.
    + reflexivity.
    + rewrite appendToFile_fresh. reflexivity.
    + pose proof (deliver_fresh_files
                    (gzip (compressed p1 ++ CloseTar (archiver p1)))
                    (o :: o' :: ops) (files w0) []) as Hd.
      cbn in Hd. rewrite !app_nil_r in Hd. rewrite Hd. reflexivity.
Qed.

Lemma tarStream_any_world (fileList : list string) (w0 w1 : World) :
  stream fileList w0 = stream fileList w1.
Proof.
  destruct (tarStream_shape fileList) as [p1 [msgs [err [_ Hs]]]].
  now rewrite (Hs w0), (Hs w1).
Qed.

Lemma finalWorld_logged (outPaths m1 m2 opened : list string)
    (data : list byte) (w0 : World) :
  finalWorld outPaths m2 opened data (logged m1 w0)
  = finalWorld outPaths (m1 ++ m2) opened data w0.
Proof. unfold finalWorld, logged. cbn. now rewrite app_assoc. Qed.

Lemma finalWorld_nothing (outPaths msgs : list string) (w0 : World) :
  finalWorld outPaths msgs [] [] w0 = logged msgs w0.
Proof.
  unfold finalWorld, logged, withStderr. cbn.
  destruct outPaths; now rewrite !app_nil_r.
Qed.

Lemma finalWorld_opened (outPaths msgs opened : list string) (w0 : World) :
  finalWorld outPaths msgs opened [] w0
  = withFiles (files w0 ++ map (fun p => (p, [])) opened) (logged msgs w0).
Proof.
  unfold finalWorld, logged, withStderr, withFiles. cbn.
  destruct outPaths; now rewrite !app_nil_r.
Qed.

(** Every run, on every world: the diagnostics, the files opened, and
    what was written to the destination.  The run reaches the emission
    exactly when every output file opens and the home directory is
    entered; its error is then the one of the archiving loop. *)
Lemma runBuild_shape (listPaths outPaths : list string) :
  exists stages msgs err opened (reached : bool),
    (forall w0, fst (fst (loadLists OpenList listPaths [] w0)) = stages) /\
    (reached = true <->
     Forall (fun p => OpenFile p = None) outPaths /\ goHome = None) /\
    (reached = true ->
     opened = outPaths /\
     forall w0,
       err = snd (archiveList (selectionOf Match Glob stages)
                    {| archiver := NewWriter; compressed := [] |} w0)) /\
    (reached = false -> err <> None) /\
    forall w0,
      build listPaths outPaths w0
      = Done (finalWorld outPaths msgs opened
                (if reached then
                   match sinkError w0 with
                   | Some _ => []
                   | None => gzip (stream (selectionOf Match Glob stages) w0)
                   end
                 else []) w0, err).
Proof.
  destruct (loadLists_shape listPaths []) as [stages [msgs1 H1]].
  destruct (emit_shape outPaths (selectionOf Match Glob stages))
    as [msgs2 [err2 [Herr2 H2]]].
  exists stages.
  destruct outPaths as [|o ops].
  - destruct goHome as [e|] eqn:Hhome.
    + exists msgs1,
        (Some ("Unable to chdir into home directory: " ++ e)%string),
             [], false.
      split; [intros w0; now rewrite H1|].
      split; [split; [discriminate|intros [_ H]; discriminate H]|].
      split; [discriminate|]. split; [discriminate|].
      intros w0. unfold runBuild. rewrite H1.
      now rewrite finalWorld_nothing.
    + exists (msgs1 ++ msgs2), err2, [], true.
      split; [intros w0; now rewrite H1|].
      split; [split; [intros _; split; [constructor|reflexivity]
                     |reflexivity]|].
      split; [intros _; split; [reflexivity|intros w0; now rewrite Herr2]|].
      split; [discriminate|].
      intros w0. unfold runBuild. rewrite H1, compileStages_spec.
      specialize (H2 (logged msgs1 w0) Stdout eq_refl).
      cbn [map] in H2. rewrite app_nil_r in H2.
      replace (withFiles (files (logged msgs1 w0)) (logged msgs1 w0))
        with (logged msgs1 w0) in H2 by (destruct w0; reflexivity).
      rewrite H2, finalWorld_logged.
      cbn [sinkError logged withStderr].
      now rewrite (tarStream_any_world _ (logged msgs1 w0) w0).
  - destruct (openOutputs_shape (o :: ops))
      as [k [err [Hiff [Hall [Hlen Hopen]]]]].
    destruct err as [e|].
    + exists msgs1, (Some e), (firstn k (o :: ops)), false.
      split; [intros w0; now rewrite H1|].
      split; [split; [discriminate
                     |intros [HF _]; apply Hiff in HF; discriminate HF]|].
      split; [discriminate|]. split; [discriminate|].
      intros w0. unfold runBuild. rewrite H1, Hopen.
      now rewrite finalWorld_opened.
    + pose proof (proj1 Hiff eq_refl) as HF.
      specialize (Hall eq_refl). rewrite Hall in Hlen, Hopen.
      destruct goHome as [e|] eqn:Hhome.
      * exists msgs1,
          (Some ("Unable to chdir into home directory: " ++ e)%string),
          (o :: ops), false.
        split; [intros w0; now rewrite H1|].
        split; [split; [discriminate|intros [_ H]; discriminate H]|].
        split; [discriminate|]. split; [discriminate|].
        intros w0. unfold runBuild. rewrite H1, Hopen.
        now rewrite finalWorld_opened.
      * exists (msgs1 ++ msgs2), err2, (o :: ops), true.
        split; [intros w0; now rewrite H1|].
        split; [split; [intros _; split; [exact HF|reflexivity]
                       |reflexivity]|].
        split; [intros _; split; [reflexivity|intros w0; now rewrite Herr2]|].
        split; [discriminate|].
        intros w0. unfold runBuild.
        rewrite H1, Hopen, compileStages_spec.
        cbn [app]. rewrite <- Hlen.
        match goal with
        | |- context [emit _ _ _ _ _ _ _ _ _ _ ?out _ _] =>
            specialize (H2 (logged msgs1 w0) out)
        end.
        rewrite H2.
        -- rewrite finalWorld_logged. cbn [sinkError logged withStderr].
           now rewrite (tarStream_any_world _ (logged msgs1 w0) w0).
        -- cbn [length]. destruct ops; reflexivity.
Qed.

(** C9. Every run returns, and on every world:
    - the terminal, the randomness source and the passphrase heap are
      left as they were, and a run on a world that differs in these
      only ends in the same world but for these, with the same error;
    - what standard output (no output path) or each opened output file
      (otherwise) received is [data], with nothing before or after it;
    - when every output file opens and the home directory is entered,
      the run gets to the emission: every output path is opened, the
      error returned is the one of the archiving loop, and [data] is the
      gzip compression of the tar archive stream of the compiled
      selection, or nothing at all when the sink refuses the write;
    - when an output file does not open or the home directory is not
      entered, the run returns an error and [data] is empty. *)
Theorem build_output_is_gzip_of_tar (listPaths outPaths : list string)
    (w0 : World) :
  exists w1 err stages opened data,
    build listPaths outPaths w0 = Done (w1, err) /\
    (forall t e h,
        build listPaths outPaths (withSecrets t e h w0)
        = Done (withSecrets t e h w1, err)) /\
    terminal w1 = terminal w0 /\
    entropy w1 = entropy w0 /\
    heap w1 = heap w0 /\
    stdout w1 = stdout w0 ++ match outPaths with [] => data | _ => [] end /\
    files w1 = files w0 ++ map (fun p => (p, data)) opened /\
    fst (fst (loadLists OpenList listPaths [] w0)) = stages /\
    (Forall (fun p => OpenFile p = None) outPaths -> goHome = None ->
     opened = outPaths /\
     err = snd (archiveAll Lstat Readlink getpwuid_r getgrgid_r Open
                  WriteHeader Copy (selectionOf Match Glob stages)
                  {| archiver := NewWriter; compressed := [] |} w0) /\
     data = match sinkError w0 with
            | None => gzip (stream (selectionOf Match Glob stages) w0)
            | Some _ => []
            end) /\
    (Exists (fun p => OpenFile p <> None) outPaths \/ goHome <> None ->
     data = [] /\ err <> None).
Proof.
  destruct (runBuild_shape listPaths outPaths)
    as [stages [msgs [err [opened [reached [Hst [Hiff [Hr [Hnr H]]]]]]]]].
  eexists _, err, stages, opened, _.
  split; [apply H|]. split.
  { intros t e h. rewrite H. cbn [sinkError withSecrets].
    rewrite (tarStream_any_world _ (withSecrets t e h w0) w0).
    reflexivity. }
  repeat (split; [solve [reflexivity | apply Hst]|]).
  split.
  - intros HF Hhome.
    pose proof (proj2 Hiff (conj HF Hhome)) as Hreached.
    destruct (Hr Hreached) as [Ho He]. rewrite Hreached.
    split; [exact Ho|]. split; [apply He|].
    destruct (sinkError w0); reflexivity.
  - intros Hnot. destruct reached; [|split; [reflexivity|now apply Hnr]].
    destruct (proj1 Hiff eq_refl) as [HF Hhome].
    destruct Hnot as [HE|Hh]; [|now elim Hh].
    apply Exists_exists in HE. destruct HE as [p [Hin Hp]].
    elim Hp. exact (proj1 (Forall_forall _ _) HF p Hin).
Qed.

End EmissionProperties.

(** ** Instances on the worked system *)

Lemma archiveFile_skips_or_aborts_witness :
  exists p2 msg,
    archiveFile sampleLstat noReadlink unknownId unknownId sampleOpen
      sampleWriteHeader failingCopy {| archiver := tt; compressed := [] |}
      "a.txt" quietWorld
    = (p2, quietWorld, Some msg).
Proof.
  destruct (archiveFile_skips_or_aborts
              filepath.Match (filepath.Glob testDir)
              sampleLstat noReadlink unknownId unknownId
              (fun _ => inr "no list") (fun _ => None) None
              sampleOpen tt sampleWriteHeader failingCopy
              (fun _ => []) (fun data => data)
              {| archiver := tt; compressed := [] |} "a.txt" quietWorld)
    as [_ [_ [_ [_ [Habort _]]]]].
  destruct (Habort (list_byte_of_string "hello") sampleHeader tt
              (list_byte_of_string "a.txt") tt [] "unexpected EOF")
    as [p2 [msg [H _]]].
  - reflexivity.
  - vm_compute. reflexivity.
  - reflexivity.
  - vm_compute. discriminate.
  - reflexivity.
  - exists p2, msg. exact H.
Defined.

Lemma capture_absent_iff_stat_fails_witness :
  exists header,
    buildTarHeader sampleLstat noReadlink unknownId unknownId "a.txt"
    = Some header /\
    tar.Uid header = 1000%Z /\ tar.Gid header = 1000%Z /\
    tar.Uname header = "" /\ tar.Gname header = "".
Proof.
  destruct (capture_absent_iff_stat_fails
              sampleLstat noReadlink unknownId unknownId "a.txt")
    as [_ Hsome].
  destruct (Hsome sampleStat eq_refl)
    as [header [Hh [Huid [Hgid [Hun [Hgn _]]]]]].
  exists header. repeat split; try assumption.
  - apply Hun. reflexivity.
  - apply Hgn. reflexivity.
Defined.

Lemma header_mode_is_raw_mode_witness :
  exists info,
    sampleLstat "a.txt" = Some info /\
    tar.Mode sampleHeader = st_mode info /\
    Z.land (tar.Mode sampleHeader) unix.S_IFMT
    = Z.land (st_mode info) unix.S_IFMT /\
    (Z.land (st_mode info) unix.S_IFMT <> 0%Z ->
     tar.Mode sampleHeader <> Z.land (st_mode info) 4095).
Proof.
  apply (header_mode_is_raw_mode sampleLstat noReadlink unknownId unknownId
           "a.txt" (header := sampleHeader)).
  vm_compute. reflexivity.
Defined.

Lemma build_output_is_gzip_of_tar_witness :
  exists w1,
    runBuild filepath.Match (filepath.Glob testDir) sampleLstat noReadlink
      unknownId unknownId sampleOpenList sampleOpenFile None sampleOpen tt
      sampleWriteHeader failingCopy noTar noGzip ["backup.list"] []
      quietWorld
    = Done (w1, Some "Error archiving 'a.txt': unexpected EOF") /\
    stdout w1 = list_byte_of_string "a.txt" /\
    terminal w1 = [] /\ entropy w1 = [] /\ heap w1 = [].
Proof.
  destruct (@build_output_is_gzip_of_tar
              filepath.Match (filepath.Glob testDir) sampleLstat noReadlink
              unknownId unknownId sampleOpenList sampleOpenFile None
              _ sampleOpen _ tt sampleWriteHeader failingCopy noTar noGzip
              ["backup.list"] [] quietWorld)
    as [w1 [err [stages [opened [data
         [Hrun [_ [Ht [He [Hh [Hout [_ [Hst [Hreached _]]]]]]]]]]]]]].
  destruct (Hreached (Forall_nil _) eq_refl) as [_ [Herr Hdata]].
  subst stages. exists w1.
  split; [|split; [|split; [exact Ht|split; [exact He|exact Hh]]]].
  - rewrite Hrun, Herr. do 2 f_equal.
  - rewrite Hout, Hdata. reflexivity.
Defined.

(* ===================================================================== *)
(** * Part III: further properties of the program                         *)
(* ===================================================================== *)

(** ** The rule-file loader *)

Lemma appendRule_shift (pre stages : list buildStage) (idx : nat)
    (rule : buildRule) :
  appendRule (pre ++ stages) (length pre + idx) rule
  = pre ++ appendRule stages idx rule.
Proof.
  unfold appendRule.
  rewrite nth_error_app2 by lia.
  replace (length pre + idx - length pre)%nat with idx by lia.
  destruct (nth_error stages idx) as [stage|]; [|reflexivity].
  rewrite firstn_app, firstn_all2 by lia.
  replace (length pre + idx - length pre)%nat with idx by lia.
  replace (S (length pre + idx)) with (length pre + S idx)%nat by lia.
  rewrite skipn_app, skipn_all2 by lia.
  replace (length pre + S idx - length pre)%nat with (S idx) by lia.
  simpl. now rewrite <- app_assoc.
Qed.

Lemma loadLine_shift (file : listFile) (pre stages : list buildStage)
    (stage : option nat) (i : Z) (text : string) :
  loadLine file (pre ++ stages, option_map (Nat.add (length pre)) stage) i text
  = (pre ++ fst (loadLine file (stages, stage) i text),
     option_map (Nat.add (length pre))
                (snd (loadLine file (stages, stage) i text))).
Proof.
  unfold loadLine.
  destruct (strings.TrimSpace text =? "[include]")%string.
  { cbn [fst snd option_map]. rewrite <- app_assoc. f_equal. f_equal.
    rewrite !length_app. simpl. lia. }
  destruct (strings.TrimSpace text =? "[exclude]")%string.
  { cbn [fst snd option_map]. rewrite <- app_assoc. f_equal. f_equal.
    rewrite !length_app. simpl. lia. }
  destruct (strings.TrimSpace text =? "")%string; [reflexivity|].
  destruct stage as [idx|]; [|reflexivity].
  cbn [fst snd option_map]. now rewrite appendRule_shift.
Qed.

Lemma loadLoop_shift (file : listFile) (pre : list buildStage)
    (lines : list string) :
  forall stages stage i,
    fold_left (fun acc text => (loadLine file (fst acc) (snd acc) text,
                                (snd acc + 1)%Z))
              lines
              ((pre ++ stages, option_map (Nat.add (length pre)) stage), i)
    = let r := fold_left
                 (fun acc text => (loadLine file (fst acc) (snd acc) text,
                                   (snd acc + 1)%Z))
                 lines ((stages, stage), i) in
      ((pre ++ fst (fst r),
        option_map (Nat.add (length pre)) (snd (fst r))), snd r).
Proof.
  induction lines as [|text lines IH]; intros stages stage i.
  - reflexivity.
  - cbn [fold_left fst snd]. rewrite loadLine_shift.
    destruct (loadLine file (stages, stage) i text) as [stages1 stage1].
    apply IH.
Qed.

Lemma loadStages_from (file : listFile) (stages : list buildStage) :
  fst (loadStages file stages) = stages ++ fst (loadStages file [])
  /\ snd (loadStages file stages) = None.
Proof.
  unfold loadStages.
  pose proof (loadLoop_shift file stages (scanLines (text file))
                [] None 1%Z) as H.
  cbn [option_map] in H. rewrite app_nil_r in H. rewrite H.
  destruct (fold_left _ (scanLines (text file)) (([], None), 1%Z))
    as [[stages1 stage1] i1].
  split; reflexivity.
Qed.

(** [loadStages] works like [append]: the stages passed in are returned
    unchanged, followed by the stages the file alone gives; a rule is
    never added to a stage of an earlier file. *)
Theorem loadStages_appends (file : listFile) (stages : list buildStage) :
  loadStages file stages = (stages ++ fst (loadStages file []), None).
Proof.
  destruct (loadStages_from file stages) as [Hfst Hsnd].
  destruct (loadStages file stages) as [loaded err].
  cbn [fst snd] in Hfst, Hsnd. now subst.
Qed.

Lemma appendRule_polarity (stages : list buildStage) (idx : nat)
    (rule : buildRule) :
  map include (appendRule stages idx rule) = map include stages.
Proof.
  unfold appendRule.
  destruct (nth_error stages idx) as [stage|] eqn:Hn; [|reflexivity].
  apply nth_error_split in Hn. destruct Hn as [l1 [l2 [-> Hlen]]].
  subst idx. rewrite firstn_upto, skipn_past, !map_app. reflexivity.
Qed.

Lemma loadLine_polarity (file : listFile) (stages : list buildStage)
    (stage : option nat) (i : Z) (text : string) :
  map include (fst (loadLine file (stages, stage) i text))
  = map include stages ++ markers [text].
Proof.
  unfold loadLine, markers, markerOf. cbn [flat_map].
  destruct (strings.TrimSpace text =? "[include]")%string.
  { cbn [fst]. now rewrite map_app. }
  destruct (strings.TrimSpace text =? "[exclude]")%string.
  { cbn [fst]. now rewrite map_app. }
  cbn [app]. rewrite app_nil_r.
  destruct (strings.TrimSpace text =? "")%string; [reflexivity|].
  destruct stage as [idx|]; [|reflexivity].
  cbn [fst]. apply appendRule_polarity.
Qed.

Lemma markers_cons (text : string) (lines : list string) :
  markers (text :: lines) = markers [text] ++ markers lines.
Proof. unfold markers. cbn [flat_map]. now rewrite app_nil_r. Qed.

Lemma loadLoop_polarity (file : listFile) (lines : list string) :
  forall stages stage i,
    map include
        (fst (fst (fold_left
                     (fun acc text =>
                        (loadLine file (fst acc) (snd acc) text,
                         (snd acc + 1)%Z))
                     lines ((stages, stage), i))))
    = map include stages ++ markers lines.
Proof.
  induction lines as [|text lines IH]; intros stages stage i.
  - cbn. now rewrite app_nil_r.
  - cbn [fold_left fst snd].
    destruct (loadLine file (stages, stage) i text) as [stages1 stage1] eqn:E.
    rewrite IH, markers_cons, app_assoc. f_equal.
    change stages1 with (fst (stages1, stage1)). rewrite <- E.
    apply loadLine_polarity.
Qed.

(** The file gives one stage per marker line, in the order of the lines
    and with the polarity of the marker; in particular a file without
    marker line gives no stage, whatever else it holds. *)
Theorem loadStages_one_stage_per_marker (file : listFile) :
  map include (fst (loadStages file []))
  = markers (scanLines (text file)).
Proof.
  unfold loadStages.
  pose proof (loadLoop_polarity file (scanLines (text file)) [] None 1%Z) as H.
  destruct (fold_left _ (scanLines (text file)) (([], None), 1%Z))
    as [[stages1 stage1] i1].
  exact H.
Qed.

(** *** Where a rule comes from *)

Lemma appendRule_from_file (file : listFile) (lines : list string)
    (stages : list buildStage) (idx : nat) (rule : buildRule) :
  Forall (stageFromFile file lines) stages ->
  ruleFromLine lines rule ->
  Forall (stageFromFile file lines) (appendRule stages idx rule).
Proof.
  intros Hall Hrule. unfold appendRule.
  destruct (nth_error stages idx) as [stage|] eqn:Hn; [|exact Hall].
  assert (Hstage : stageFromFile file lines stage).
  { rewrite Forall_forall in Hall. apply Hall.
    eapply nth_error_In; eauto. }
  apply Forall_app. split.
  - rewrite <- (firstn_skipn idx stages) in Hall.
    apply Forall_app in Hall. apply Hall.
  - constructor.
    + destruct Hstage as [Hsrc Hrules]. split; [exact Hsrc|].
      cbn [rules]. apply Forall_app. split; [exact Hrules|].
      now constructor.
    + rewrite <- (firstn_skipn (S idx) stages) in Hall.
      apply Forall_app in Hall. apply Hall.
Qed.

Lemma loadLoop_from_file (file : listFile) (todo : list string) :
  forall done stages stage,
    Forall (stageFromFile file (done ++ todo)) stages ->
    Forall (stageFromFile file (done ++ todo))
      (fst (fst (fold_left
                   (fun acc text =>
                      (loadLine file (fst acc) (snd acc) text,
                       (snd acc + 1)%Z))
                   todo ((stages, stage), (Z.of_nat (length done) + 1)%Z)))).
Proof.
  induction todo as [|text todo IH]; intros done stages stage Hall.
  - exact Hall.
  - cbn [fold_left fst snd].
    destruct (loadLine file (stages, stage) (Z.of_nat (length done) + 1) text)
      as [stages1 stage1] eqn:E.
    replace (Z.of_nat (length done) + 1 + 1)%Z
      with (Z.of_nat (length (done ++ [text])) + 1)%Z
      by (rewrite length_app; simpl; lia).
    replace (done ++ text :: todo) with ((done ++ [text]) ++ todo) in *
      by (rewrite <- app_assoc; reflexivity).
    apply IH.
    assert (Hnth : nth_error ((done ++ [text]) ++ todo) (length done)
                   = Some text).
    { rewrite <- app_assoc. simpl. apply nth_error_at. }
    unfold loadLine in E.
    destruct (strings.TrimSpace text =? "[include]")%string eqn:Ei.
    { inversion E; subst. apply Forall_app. split; [exact Hall|].
      repeat constructor. }
    destruct (strings.TrimSpace text =? "[exclude]")%string eqn:Ee.
    { inversion E; subst. apply Forall_app. split; [exact Hall|].
      repeat constructor. }
    destruct (strings.TrimSpace text =? "")%string eqn:Eb.
    { inversion E; subst. exact Hall. }
    destruct stage as [idx|]; inversion E; subst; [|exact Hall].
    apply appendRule_from_file; [exact Hall|].
    exists text. cbn [line glob].
    replace (Z.to_nat (Z.of_nat (length done) + 1 - 1)) with (length done)
      by lia.
    repeat split; try assumption; try lia.
    + unfold markerOf. now rewrite Ei, Ee.
    + now apply String.eqb_neq.
Qed.

(** Every stage the file gives names the file as its source, and every
    rule of it is a line of the file: the line with the recorded number,
    counted from 1, with its surrounding white space removed; that line
    is neither blank nor a marker. *)
Theorem loadStages_rules_are_lines (file : listFile) :
  Forall (fun stage =>
            source stage = fileName file /\
            Forall (ruleFromLine (scanLines (text file))) (rules stage))
         (fst (loadStages file [])).
Proof.
  unfold loadStages.
  pose proof (@loadLoop_from_file file (scanLines (text file)) [] [] None
                (Forall_nil _)) as H.
  cbn [app length Z.of_nat Z.add] in H.
  destruct (fold_left _ (scanLines (text file)) (([], None), 1%Z))
    as [[stages1 stage1] i1].
  exact H.
Qed.

Lemma loadLists_from (OpenList : string -> listFile + string)
    (listPaths : list string) :
  forall stages w0,
    loadLists OpenList listPaths stages w0
    = (stages ++ loadedFrom OpenList listPaths,
       logged (openFailures OpenList listPaths) w0, None).
Proof.
  induction listPaths as [|listPath rest IH]; intros stages w0.
  - cbn. now rewrite app_nil_r, logged_nil.
  - cbn [loadLists loadedFrom openFailures flat_map].
    destruct (OpenList listPath) as [file|err].
    + destruct (loadStages_from file stages) as [Hfst Hsnd].
      destruct (loadStages file stages) as [loaded err].
      cbn [fst snd] in Hfst, Hsnd. subst loaded err.
      rewrite IH. cbn [app]. now rewrite <- app_assoc.
    + rewrite IH, eprint_logged, logged_logged. reflexivity.
Qed.

(** A list file that does not open is reported and skipped; the stages of
    the others are appended in the order of the paths, and the loop never
    returns an error: standard output and the files are left as they
    were. *)
Theorem loadLists_concatenates (OpenList : string -> listFile + string)
    (listPaths : list string) (stages : list buildStage) (w0 : World) :
  loadLists OpenList listPaths stages w0
  = (stages ++ loadedFrom OpenList listPaths,
     logged (openFailures OpenList listPaths) w0, None)
  /\ stdout (logged (openFailures OpenList listPaths) w0) = stdout w0
  /\ files (logged (openFailures OpenList listPaths) w0) = files w0.
Proof. split; [apply loadLists_from|split; reflexivity]. Qed.

(** ** File types the walk keeps *)

Lemma skipFileType_lstat (n : node) (t : Z) :
  t = Z.land (nodeMode n) unix.S_IFMT ->
  skipFileType (lstat n)
  = (t =? unix.S_IFBLK)%Z || (t =? unix.S_IFCHR)%Z
    || (t =? unix.S_IFIFO)%Z || (t =? unix.S_IFSOCK)%Z.
Proof.
  intros ->.
  unfold skipFileType, os.IsRegular, lstat. cbn [os.Mode].
  rewrite fileMode_temporary, fileMode_type. cbn zeta.
  unfold os.typeFlags.
  destruct (Z.land (nodeMode n) unix.S_IFMT =? unix.S_IFBLK)%Z eqn:E1;
    [reflexivity|].
  destruct (Z.land (nodeMode n) unix.S_IFMT =? unix.S_IFCHR)%Z eqn:E2;
    [reflexivity|].
  destruct (Z.land (nodeMode n) unix.S_IFMT =? unix.S_IFDIR)%Z eqn:E3;
    [apply Z.eqb_eq in E3; rewrite E3; reflexivity|].
  destruct (Z.land (nodeMode n) unix.S_IFMT =? unix.S_IFIFO)%Z eqn:E4;
    [reflexivity|].
  destruct (Z.land (nodeMode n) unix.S_IFMT =? unix.S_IFLNK)%Z eqn:E5;
    [apply Z.eqb_eq in E5; rewrite E5; reflexivity|].
  destruct (Z.land (nodeMode n) unix.S_IFMT =? unix.S_IFSOCK)%Z eqn:E6;
    reflexivity.
Qed.

(** For the mode [Lstat] reports, [skipFileType] holds exactly for block
    devices, character devices, fifos and sockets: regular files,
    directories and symbolic links are kept, whatever the permission,
    setuid, setgid and sticky bits. *)
Theorem skipFileType_by_type (n : node) :
  skipFileType (lstat n)
  = let t := Z.land (nodeMode n) unix.S_IFMT in
    (t =? unix.S_IFBLK)%Z || (t =? unix.S_IFCHR)%Z
    || (t =? unix.S_IFIFO)%Z || (t =? unix.S_IFSOCK)%Z.
Proof. cbn zeta. now apply skipFileType_lstat. Qed.

(** ** How stage sequences compose *)

Section StageComposition.

Variable Match : string -> string -> bool.
Variable Glob : string -> list (string * node).

Lemma excludePatterns_of_includes (stages : list buildStage) :
  Forall (fun stage => include stage = true) stages ->
  excludePatterns stages = [].
Proof.
  induction 1 as [|s stages Hs _ IH]; simpl; [reflexivity|].
  now rewrite Hs, IH.
Qed.

Lemma excludePatterns_of_excludes (stages : list buildStage) :
  Forall (fun stage => include stage = false) stages ->
  excludePatterns stages = flat_map (fun stage => map glob (rules stage)) stages.
Proof.
  induction 1 as [|s stages Hs _ IH]; simpl; [reflexivity|].
  now rewrite Hs, IH.
Qed.

Lemma selectionOf_then_includes (pre post : list buildStage) :
  Forall (fun stage => include stage = true) post ->
  selectionOf Match Glob (pre ++ post)
  = selectionOf Match Glob pre ++ selectionOf Match Glob post.
Proof.
  intros Hpost. induction pre as [|s pre IH]; simpl; [reflexivity|].
  rewrite IH, excludePatterns_app, (excludePatterns_of_includes Hpost).
  now rewrite app_nil_r, app_assoc.
Qed.

(** Include stages that come after every Exclude stage do not change what
    the stages before them select, and are themselves compiled as if they
    stood alone: the selection of the whole is the selection of the
    front followed by the selection of these Include stages. *)
Theorem compileStages_then_includes (pre post : list buildStage)
    (Hpost : Forall (fun stage => include stage = true) post) :
  exists front back,
    compileStages Match Glob pre = Done (front, None) /\
    compileStages Match Glob post = Done (back, None) /\
    compileStages Match Glob (pre ++ post) = Done (front ++ back, None).
Proof.
  exists (selectionOf Match Glob pre), (selectionOf Match Glob post).
  rewrite !compileStages_spec. repeat split.
  now rewrite selectionOf_then_includes.
Qed.

Lemma selectionOf_after_excludes (pre post : list buildStage) :
  Forall (fun stage => include stage = false) pre ->
  selectionOf Match Glob (pre ++ post) = selectionOf Match Glob post.
Proof.
  induction 1 as [|s pre Hs _ IH]; simpl; [reflexivity|].
  now rewrite Hs, IH.
Qed.

(** Exclude stages placed before the first Include stage have no effect:
    the sequence compiles to what the rest compiles to. *)
Theorem leading_excludes_have_no_effect (pre post : list buildStage)
    (Hpre : Forall (fun stage => include stage = false) pre) :
  compileStages Match Glob (pre ++ post) = compileStages Match Glob post.
Proof.
  rewrite !compileStages_spec. now rewrite selectionOf_after_excludes.
Qed.

Lemma selectionOf_includes (stages : list buildStage) :
  Forall (fun stage => include stage = true) stages ->
  selectionOf Match Glob stages
  = flat_map (ruleSelection Match Glob []) (flat_map rules stages).
Proof.
  intros Hall. induction Hall as [|s stages Hs Hrest IH]; simpl;
    [reflexivity|].
  rewrite Hs, IH, flat_map_app, (excludePatterns_of_includes Hrest).
  reflexivity.
Qed.

(** With Include stages only nothing is excluded: a path is selected
    exactly when, for some rule, the walk of one of its root matches
    comes, through readable directories, to an entry at that path that is
    no directory and whose type is kept. *)
Theorem include_only_selects_all (stages : list buildStage)
    (Hall : Forall (fun stage => include stage = true) stages) :
  exists selection,
    compileStages Match Glob stages = Done (selection, None) /\
    forall wpath,
      In wpath selection <->
      exists stage rule root n m,
        In stage stages /\ In rule (rules stage) /\
        In (root, n) (Glob (glob rule)) /\
        reaches Match [] root n wpath m /\
        os.IsDir (lstat m) = false /\
        skipFileType (lstat m) = false.
Proof.
  exists (selectionOf Match Glob stages).
  split; [apply compileStages_spec|].
  intros wpath. rewrite (selectionOf_includes Hall). split.
  - intros Hin. apply in_flat_map in Hin. destruct Hin as [rule [Hrule Hin]].
    apply in_flat_map in Hrule. destruct Hrule as [stage [Hstage Hrule]].
    unfold ruleSelection in Hin. apply in_flat_map in Hin.
    destruct Hin as [[root n] [Hroot Hin]]. cbn [fst snd] in Hin.
    apply selected_reaches in Hin.
    destruct Hin as [m [Hreach [Hdir [Hskip _]]]].
    exists stage, rule, root, n, m. repeat split; assumption.
  - intros [stage [rule [root [n [m [Hs [Hr [Hg [Hreach [Hdir Hskip]]]]]]]]]].
    apply in_flat_map. exists rule. split.
    + apply in_flat_map. exists stage. split; assumption.
    + unfold ruleSelection. apply in_flat_map. exists (root, n).
      split; [assumption|]. cbn [fst snd].
      eapply reaches_selected; eauto.
Qed.

(** *** More exclusions never add a path *)

Lemma isExcluded_more (few many : list string) (wpath : string) :
  (forall excl, In excl few -> In excl many) ->
  isExcluded Match few wpath = true ->
  isExcluded Match many wpath = true.
Proof.
  intros Hsub H. apply isExcluded_iff in H. apply isExcluded_iff.
  destruct H as [excl [Hin Hm]]. exists excl. split; auto.
Qed.

Lemma selected_more (few many : list string)
    (Hsub : forall excl, In excl few -> In excl many) (n : node) :
  forall path wpath,
    In wpath (selected Match many path n) ->
    In wpath (selected Match few path n).
Proof.
  induction n as [name st_mode readable entries IH] using node_induction.
  intros path wpath. rewrite !selected_eq.
  cbn [nodeReadable nodeEntries].
  destruct (os.IsDir _).
  - destruct (isExcluded Match many path) eqn:Hm; [intros []|].
    destruct (isExcluded Match few path) eqn:Hf.
    { rewrite (@isExcluded_more _ _ _ Hsub Hf) in Hm. discriminate. }
    destruct readable; [|intros []].
    intros Hin. apply in_flat_map in Hin. destruct Hin as [c [Hc Hin]].
    apply in_flat_map. exists c. split; [exact Hc|].
    rewrite Forall_forall in IH. now apply IH.
  - destruct (skipFileType _); [intros []|]. cbn [orb].
    destruct (isExcluded Match many path) eqn:Hm; [intros []|].
    destruct (isExcluded Match few path) eqn:Hf.
    { rewrite (@isExcluded_more _ _ _ Hsub Hf) in Hm. discriminate. }
    trivial.
Qed.

Lemma in_excludePatterns_without (pre post : list buildStage)
    (s : buildStage) (excl : string) :
  In excl (excludePatterns (pre ++ post)) ->
  In excl (excludePatterns (pre ++ s :: post)).
Proof.
  rewrite !excludePatterns_app. cbn [excludePatterns flat_map].
  rewrite !in_app_iff. tauto.
Qed.

Lemma selectionOf_with_stage (pre post : list buildStage) (s : buildStage)
    (wpath : string) :
  include s = false ->
  In wpath (selectionOf Match Glob (pre ++ s :: post)) ->
  In wpath (selectionOf Match Glob (pre ++ post)).
Proof.
  intros Hs. induction pre as [|p pre IH]; simpl.
  - now rewrite Hs.
  - rewrite !in_app_iff. intros [Hin | Hin]; [left|right; now apply IH].
    destruct (include p); [|exact Hin].
    apply in_flat_map in Hin. destruct Hin as [rule [Hrule Hin]].
    apply in_flat_map. exists rule. split; [exact Hrule|].
    unfold ruleSelection in *. apply in_flat_map in Hin.
    destruct Hin as [m [Hm Hin]]. apply in_flat_map. exists m.
    split; [exact Hm|].
    eapply selected_more; [|exact Hin].
    intros excl. apply in_excludePatterns_without.
Qed.

(** Putting an Exclude stage anywhere into a stage sequence never adds a
    path: whatever is selected with the stage is selected without it. *)
Theorem exclude_stage_only_removes (pre post : list buildStage)
    (s : buildStage) (Hs : include s = false) :
  exists with_s without_s,
    compileStages Match Glob (pre ++ s :: post) = Done (with_s, None) /\
    compileStages Match Glob (pre ++ post) = Done (without_s, None) /\
    forall wpath, In wpath with_s -> In wpath without_s.
Proof.
  exists (selectionOf Match Glob (pre ++ s :: post)),
         (selectionOf Match Glob (pre ++ post)).
  rewrite !compileStages_spec. repeat split.
  intros wpath. now apply selectionOf_with_stage.
Qed.

End StageComposition.

(** ** Header types of what the walk keeps *)

(** An entry the walk keeps and that is no directory is given the header
    type of a symbolic link when it is one, and of a regular file
    otherwise, as long as its mode is the same at capture: the device and
    fifo types are never used for a selected entry. *)
Theorem kept_entry_header_type (n : node)
    (Hkept : skipFileType (lstat n) = false)
    (Hfile : os.IsDir (lstat n) = false) :
  tarTypeOf (nodeMode n)
  = if (Z.land (nodeMode n) unix.S_IFMT =? unix.S_IFLNK)%Z
    then tar.TypeSymlink else tar.TypeReg.
Proof.
  rewrite (skipFileType_lstat n eq_refl) in Hkept.
  apply orb_false_iff in Hkept. destruct Hkept as [Hkept Hsock].
  apply orb_false_iff in Hkept. destruct Hkept as [Hkept Hfifo].
  apply orb_false_iff in Hkept. destruct Hkept as [Hblk Hchr].
  unfold os.IsDir, lstat in Hfile. cbn [os.Mode] in Hfile.
  rewrite fileMode_dir in Hfile. unfold os.typeFlags in Hfile.
  rewrite Hblk, Hchr in Hfile.
  unfold tarTypeOf. rewrite Hblk, Hchr, Hfifo.
  destruct (Z.land (nodeMode n) unix.S_IFMT =? unix.S_IFDIR)%Z;
    [discriminate Hfile|].
  destruct (Z.land (nodeMode n) unix.S_IFMT =? unix.S_IFLNK)%Z; reflexivity.
Qed.

(** ** The key and the passphrase buffers *)

Lemma length_append (a b : string) :
  String.length (a ++ b) = String.length a + String.length b.
Proof. induction a as [|c a IH]; simpl; [reflexivity|now rewrite IH]. Qed.

Lemma length_string_of_bytes (l : list byte) :
  String.length (string_of_list_byte l) = length l.
Proof.
  induction l as [|b l IH]; [reflexivity|].
  unfold string_of_list_byte in *. simpl. now rewrite IH.
Qed.

Lemma length_bytes_of_string (s : string) :
  length (list_byte_of_string s) = String.length s.
Proof.
  induction s as [|c s IH]; [reflexivity|].
  unfold list_byte_of_string in *. simpl. now rewrite IH.
Qed.

Lemma length_substring (n : nat) :
  forall s, n <= String.length s -> String.length (substring 0 n s) = n.
Proof.
  induction n as [|n IH]; intros s Hn.
  - destruct s; reflexivity.
  - destruct s as [|c s]; simpl in *; [lia|]. rewrite IH; lia.
Qed.

Lemma substring_whole (s : string) : substring 0 (String.length s) s = s.
Proof. induction s as [|c s IH]; simpl; [reflexivity|now rewrite IH]. Qed.

Lemma substring_append (n : nat) :
  forall s t, n <= String.length s -> substring 0 n (s ++ t) = substring 0 n s.
Proof.
  induction n as [|n IH]; intros s t Hn.
  - destruct s, t; reflexivity.
  - destruct s as [|c s]; simpl in *; [lia|]. rewrite IH; [reflexivity|lia].
Qed.

Lemma padPassword_long (s : string) :
  32 <= String.length s -> padPassword s = substring 0 32 s.
Proof.
  intros H. unfold padPassword.
  replace (String.length s <? 32)%nat with false
    by (symmetry; apply Nat.ltb_ge; lia).
  destruct (32 <? String.length s)%nat eqn:E; [reflexivity|].
  apply Nat.ltb_ge in E.
  replace 32 with (String.length s) by lia.
  now rewrite substring_whole.
Qed.

(** The key has 32 bytes whatever is entered, so [aes.NewCipher], whose
    error is dropped, is always given a valid AES-256 key length; up to
    32 bytes the passphrase is a prefix of the key. *)
Theorem key_has_32_bytes (entered : string) :
  length (list_byte_of_string (padPassword entered)) = 32 /\
  substring 0 (Nat.min 32 (String.length entered)) (padPassword entered)
  = substring 0 (Nat.min 32 (String.length entered)) entered.
Proof.
  rewrite length_bytes_of_string.
  destruct (Nat.lt_ge_cases (String.length entered) 32) as [Hshort | Hlong].
  - unfold padPassword.
    replace (String.length entered <? 32)%nat with true
      by (symmetry; apply Nat.ltb_lt; lia).
    rewrite length_append, length_string_of_bytes, repeat_length.
    split; [lia|].
    rewrite Nat.min_r by lia. now rewrite substring_append.
  - rewrite padPassword_long by assumption.
    rewrite Nat.min_l by lia. split.
    + now apply length_substring.
    + replace 32 with (String.length (substring 0 32 entered)) at 1
        by now apply length_substring.
      apply substring_whole.
Qed.

Lemma repeat_app_zero (k j : nat) :
  (string_of_list_byte (repeat Byte.x00 k)
   ++ string_of_list_byte (repeat Byte.x00 j))%string
  = string_of_list_byte (repeat Byte.x00 (k + j)).
Proof.
  induction k as [|k IH]; [reflexivity|].
  unfold string_of_list_byte in *. simpl. now rewrite IH.
Qed.

Lemma append_assoc (a b c : string) : ((a ++ b) ++ c = a ++ (b ++ c))%string.
Proof. induction a as [|x a IH]; simpl; [reflexivity|now rewrite IH]. Qed.

(** Different passphrases can give the same key: only the first 32 bytes
    count, and a passphrase shorter than 32 bytes gives the key of the
    same passphrase followed by zero bytes. *)
Theorem passphrases_with_the_same_key :
  (forall a b,
      32 <= String.length a -> 32 <= String.length b ->
      substring 0 32 a = substring 0 32 b ->
      padPassword a = padPassword b) /\
  (forall a k,
      String.length a + k <= 32 ->
      padPassword (a ++ string_of_list_byte (repeat Byte.x00 k))
      = padPassword a).
Proof.
  split.
  - intros a b Ha Hb Heq. now rewrite !padPassword_long.
  - intros a k Hk.
    destruct (Nat.eq_dec (String.length a + k) 32) as [Hfull | Hless].
    + rewrite padPassword_long
        by (rewrite length_append, length_string_of_bytes, repeat_length; lia).
      replace 32
        with (String.length (a ++ string_of_list_byte (repeat Byte.x00 k)))
        at 1
        by (rewrite length_append, length_string_of_bytes, repeat_length; lia).
      rewrite substring_whole.
      destruct k as [|k].
      * simpl in *. rewrite Nat.add_0_r in Hfull.
        rewrite padPassword_long by lia.
        replace 32 with (String.length a) by lia.
        rewrite substring_whole.
        clear. induction a as [|c a IH]; simpl; [reflexivity|now rewrite IH].
      * unfold padPassword.
        replace (String.length a <? 32)%nat with true
          by (symmetry; apply Nat.ltb_lt; lia).
        do 3 f_equal. lia.
    + unfold padPassword.
      rewrite length_append, length_string_of_bytes, repeat_length.
      replace (String.length a + k <? 32)%nat with true
        by (symmetry; apply Nat.ltb_lt; lia).
      replace (String.length a <? 32)%nat with true
        by (symmetry; apply Nat.ltb_lt; lia).
      rewrite append_assoc, repeat_app_zero. do 3 f_equal. lia.
Qed.

(** ** Setting up and closing the cipher stream *)

(** When a passphrase is read, the randomness source answers and the
    destination takes the write, set-up succeeds: it uses up one line of
    the terminal and one draw of randomness; standard output receives the
    prompt and the line end of the terminal, and after them the
    destination receives the IV as drawn and nothing else; the stream is
    keyed with the padded passphrase and that IV. *)
Theorem setupCryptoStream_succeeds (output : Writer) (w0 : World)
    (entered : string) (t : list (string + string)) (iv : list byte)
    (e : list (option (list byte)))
    (Hterminal : terminal w0 = inl entered :: t)
    (Hentropy : entropy w0 = Some iv :: e)
    (Hsink : sinkError w0 = None) :
  exists mw w1,
    setupCryptoStream output w0 = (w1, inl mw) /\
    terminal w1 = t /\ entropy w1 = e /\
    stdout w1
    = stdout (deliver output iv
                (ioCombo_Write (list_byte_of_string lineEnd)
                   (ioCombo_Write (list_byte_of_string "Password: ") w0))) /\
    files w1 = files (deliver output iv w0) /\
    stderr w1 = stderr w0 /\
    w mw = {| S_key := list_byte_of_string (padPassword entered);
              S_iv := iv; W := output |}.
Proof.
  unfold setupCryptoStream, ReadPassword.
  cbn [terminal ioCombo_Write withStdout]. rewrite Hterminal.
  destruct (String.length entered <? 32)%nat; cbn; rewrite Hentropy; cbn;
    unfold Write; cbn; rewrite Hsink; cbn;
    do 2 eexists; (split; [reflexivity|]);
    destruct output; repeat split.
Qed.

(** Set-up fails exactly when no passphrase can be read, when the
    randomness source gives nothing, or when the destination refuses the
    IV.  A failed set-up has written no IV and no diagnostic: the files
    and standard error are as they were, and standard output has
    received what the terminal wrote, the prompt, and the line end when
    a line was entered. *)
Theorem setupCryptoStream_fails (output : Writer) (w0 : World) :
  ((exists w1 reason, setupCryptoStream output w0 = (w1, inr reason)) <->
   (forall entered t, terminal w0 <> inl entered :: t) \/
   (forall iv e, entropy w0 <> Some iv :: e) \/
   sinkError w0 <> None) /\
  (forall w1 reason,
      setupCryptoStream output w0 = (w1, inr reason) ->
      stdout w1
      = stdout w0 ++ list_byte_of_string "Password: "
        ++ match terminal w0 with
           | inl _ :: _ => list_byte_of_string lineEnd
           | _ => []
           end /\
      files w1 = files w0 /\ stderr w1 = stderr w0).
Proof.
  unfold setupCryptoStream, ReadPassword.
  cbn [terminal ioCombo_Write withStdout].
  split.
  - split.
    + intros [w1 [reason H]].
      destruct (terminal w0) as [|[entered|err] t] eqn:Ht;
        [left; congruence| |left; congruence].
      destruct (entropy w0) as [|[iv|] e] eqn:He;
        [right; left; congruence| |right; left; congruence].
      destruct (sinkError w0) as [err|] eqn:Hs;
        [right; right; congruence|].
      destruct (String.length entered <? 32)%nat; cbn in H;
        rewrite He in H; cbn in H; unfold Write in H; cbn in H;
        rewrite Hs in H; destruct output; discriminate.
    + intros [Hno | [Hno | Hno]].
      * destruct (terminal w0) as [|[entered|err] t];
          [do 2 eexists; reflexivity| |do 2 eexists; reflexivity].
        now elim (Hno entered t).
      * destruct (terminal w0) as [|[entered|err] t];
          [do 2 eexists; reflexivity| |do 2 eexists; reflexivity].
        destruct (String.length entered <? 32)%nat; cbn;
          (destruct (entropy w0) as [|[iv|] e];
           [do 2 eexists; reflexivity| |do 2 eexists; reflexivity]);
          now elim (Hno iv e).
      * destruct (terminal w0) as [|[entered|err] t];
          [do 2 eexists; reflexivity| |do 2 eexists; reflexivity].
        destruct (sinkError w0) as [err|] eqn:Hs; [|now elim Hno].
        destruct (String.length entered <? 32)%nat; cbn;
          (destruct (entropy w0) as [|[iv|] e];
           [do 2 eexists; reflexivity| |do 2 eexists; reflexivity]);
          unfold Write; cbn; rewrite Hs; do 2 eexists; reflexivity.
  - intros w1 reason.
    destruct (terminal w0) as [|[entered|err] t];
      [intros H; inversion H; subst; cbn; rewrite ?app_nil_r;
       repeat split| |
       intros H; inversion H; subst; cbn; rewrite ?app_nil_r;
       repeat split].
    destruct (String.length entered <? 32)%nat; cbn;
      (destruct (entropy w0) as [|[iv|] e];
       [intros H; inversion H; subst; cbn; rewrite <- ?app_assoc;
        repeat split| |
        intros H; inversion H; subst; cbn; rewrite <- ?app_assoc;
        repeat split]);
      unfold Write; cbn;
      (destruct (sinkError w0);
       [intros H; inversion H; subst; cbn; rewrite <- ?app_assoc;
        repeat split|
        destruct output; intros H; inversion H]).
Qed.

Lemma zero_bytes (bytes : list byte) :
  map (fun _ => Byte.x00) bytes = repeat Byte.x00 (length bytes).
Proof. induction bytes as [|b l IH]; simpl; [reflexivity|now rewrite IH]. Qed.

Lemma padPassword_length (entered : string) :
  String.length (padPassword entered) = 32.
Proof.
  destruct (Nat.lt_ge_cases (String.length entered) 32) as [Hshort | Hlong].
  - unfold padPassword.
    replace (String.length entered <? 32)%nat with true
      by (symmetry; apply Nat.ltb_lt; lia).
    rewrite length_append, length_string_of_bytes, repeat_length. lia.
  - rewrite padPassword_long by assumption. now apply length_substring.
Qed.

Lemma Close_last (older : list buffer) (bytes : list byte) (mw : managedWriter)
    (w1 : World) :
  heap w1 = older ++ [SliceBuf bytes] ->
  password mw = length older ->
  managedWriter_Close mw w1
  = (withHeap (older ++ [SliceBuf (repeat Byte.x00 (length bytes))]) w1, None).
Proof.
  intros Hheap Haddr. unfold managedWriter_Close.
  rewrite Hheap, Haddr, nth_error_at, firstn_upto, skipn_past.
  cbn [zeroBuffer]. now rewrite zero_bytes.
Qed.

Lemma setup_heap (output : Writer) (w0 w1 : World) (entered : string)
    (t : list (string + string)) (mw : managedWriter) :
  terminal w0 = inl entered :: t ->
  setupCryptoStream output w0 = (w1, inl mw) ->
  exists older,
    heap w1 = (heap w0 ++ older)
              ++ [SliceBuf (list_byte_of_string (padPassword entered))] /\
    password mw = length (heap w0 ++ older) /\
    In (StringBuf entered) older /\
    In (SliceBuf (list_byte_of_string (padPassword entered))) older.
Proof.
  intros Hterminal Hsetup.
  unfold setupCryptoStream, ReadPassword in Hsetup.
  cbn [terminal ioCombo_Write withStdout] in Hsetup.
  rewrite Hterminal in Hsetup.
  assert (Hheap : forall iv w, heap (deliver output iv w) = heap w)
    by (intros iv w; destruct output; reflexivity).
  destruct (String.length entered <? 32)%nat.
  - exists [StringBuf entered; StringBuf (padPassword entered);
            SliceBuf (list_byte_of_string (padPassword entered))].
    cbn in Hsetup.
    destruct (entropy w0) as [|[iv|] e]; [discriminate| |discriminate].
    unfold Write in Hsetup. cbn in Hsetup.
    destruct (sinkError w0); [discriminate|].
    inversion Hsetup; subst w1 mw; clear Hsetup.
    unfold alloc. cbn [heap withHeap password]. rewrite Hheap.
    cbn [heap withHeap withEntropy withTerminal withStdout].
    rewrite <- !app_assoc. cbn [app].
    repeat split; simpl; auto.
  - exists [StringBuf entered;
            SliceBuf (list_byte_of_string (padPassword entered))].
    cbn in Hsetup.
    destruct (entropy w0) as [|[iv|] e]; [discriminate| |discriminate].
    unfold Write in Hsetup. cbn in Hsetup.
    destruct (sinkError w0); [discriminate|].
    inversion Hsetup; subst w1 mw; clear Hsetup.
    unfold alloc. cbn [heap withHeap password]. rewrite Hheap.
    cbn [heap withHeap withEntropy withTerminal withStdout].
    rewrite <- !app_assoc. cbn [app].
    repeat split; simpl; auto.
Qed.

(** After a successful set-up, [Close] sets the 32 bytes of the writer's
    own slice to zero and changes nothing else: the string read from the
    terminal and the key slice made for the cipher stay in memory as they
    were.  Closing again changes nothing. *)
Theorem Close_zeroes_the_writer_slice_only (output : Writer) (w0 w1 : World)
    (entered : string) (t : list (string + string)) (mw : managedWriter)
    (Hterminal : terminal w0 = inl entered :: t)
    (Hsetup : setupCryptoStream output w0 = (w1, inl mw)) :
  let key := SliceBuf (list_byte_of_string (padPassword entered)) in
  let zeroed := SliceBuf (repeat Byte.x00 32) in
  exists older,
    heap w1 = heap w0 ++ older ++ [key] /\
    In (StringBuf entered) older /\
    In key older /\
    managedWriter_Close mw w1
    = (withHeap (heap w0 ++ older ++ [zeroed]) w1, None) /\
    managedWriter_Close mw (withHeap (heap w0 ++ older ++ [zeroed]) w1)
    = (withHeap (heap w0 ++ older ++ [zeroed]) w1, None).
Proof.
  cbv zeta.
  assert (Hlen : length (list_byte_of_string (padPassword entered)) = 32)
    by (rewrite length_bytes_of_string; apply padPassword_length).
  destruct (@setup_heap _ _ _ _ _ _ Hterminal Hsetup)
    as [older [Hheap [Haddr [Hstr Hkey]]]].
  exists older. rewrite !app_assoc.
  split; [exact Hheap|]. split; [exact Hstr|]. split; [exact Hkey|].
  split.
  - rewrite (@Close_last _ _ _ _ Hheap Haddr), Hlen. reflexivity.
  - erewrite Close_last; [|reflexivity|exact Haddr].
    rewrite repeat_length. reflexivity.
Qed.

(** ** What a run does around the archive *)

Section RunProperties.

Variable Match : string -> string -> bool.
Variable Glob : string -> list (string * node).
Variable Lstat : string -> option Stat_t.
Variable Readlink : string -> option string.
Variable getpwuid_r : Z -> option string.
Variable getgrgid_r : Z -> option string.
Variable OpenList : string -> listFile + string.
Variable OpenFile : string -> error.
Variable goHome : error.
Variable File : Type.
Variable Open : string -> File + string.
Variable TarWriter : Type.
Variable NewWriter : TarWriter.
Variable WriteHeader : TarWriter -> tar.Header -> TarWriter * list byte * error.
Variable Copy : TarWriter -> File -> TarWriter * list byte * error.
Variable CloseTar : TarWriter -> list byte.
Variable gzip : list byte -> list byte.

Local Abbreviation archive :=
  (archiveFile Lstat Readlink getpwuid_r getgrgid_r Open WriteHeader Copy).
Local Abbreviation archiveList :=
  (archiveAll Lstat Readlink getpwuid_r getgrgid_r Open WriteHeader Copy).

(** Of all the ways a selected file is left out or cut short, only the
    failure to open it is reported: an absent capture, a header the
    archiver refuses and a failed body copy add nothing to the
    diagnostics. *)
Theorem archiveFile_reports_open_failures_only (p : pipeline TarWriter)
    (path : string) (w0 : World) :
  snd (fst (archiveFile Lstat Readlink getpwuid_r getgrgid_r Open
              WriteHeader Copy p path w0))
  = match Open path with
    | inl _ => w0
    | inr err =>
        eprint ("Unable to open '" ++ path ++ "': " ++ err ++ newline)%string w0
    end.
Proof.
  unfold archiveFile. destruct (Open path) as [file|err]; [|reflexivity].
  destruct (buildTarHeader _ _ _ _ path) as [header|]; [|reflexivity].
  destruct (WriteHeader (archiver p) header) as [[tw out] [e|]];
    [reflexivity|].
  destruct (tar.Typeflag header =? tar.TypeSymlink)%char; [reflexivity|].
  destruct (Copy tw file) as [[tw' out'] [e|]]; reflexivity.
Qed.

Lemma archiveFile_grows (p : pipeline TarWriter) (path : string) (w0 : World) :
  exists out,
    compressed (fst (fst (archive p path w0))) = compressed p ++ out.
Proof.
  unfold archiveFile. destruct (Open path) as [file|err];
    [|exists []; now rewrite app_nil_r].
  destruct (buildTarHeader _ _ _ _ path) as [header|];
    [|exists []; now rewrite app_nil_r].
  destruct (WriteHeader (archiver p) header) as [[tw out] [e|]];
    [exists out; reflexivity|].
  destruct (tar.Typeflag header =? tar.TypeSymlink)%char;
    [exists out; reflexivity|].
  destruct (Copy tw file) as [[tw' out'] [e|]];
    exists (out ++ out'); cbn; now rewrite app_assoc.
Qed.

(** Archiving only adds to the stream: whatever files are archived,
    skipped or cut short, what the archiver had written before is a
    prefix of what it has written after, and archiving a list in two
    parts is archiving the first part and, if it ended without error,
    the second from where the first ended. *)
Theorem archive_stream_only_grows (fileList more : list string)
    (p : pipeline TarWriter) (w0 : World) :
  (exists out,
      compressed (fst (fst (archiveAll Lstat Readlink getpwuid_r getgrgid_r
                              Open WriteHeader Copy fileList p w0)))
      = compressed p ++ out) /\
  archiveAll Lstat Readlink getpwuid_r getgrgid_r Open WriteHeader Copy
    (fileList ++ more) p w0
  = match archiveAll Lstat Readlink getpwuid_r getgrgid_r Open WriteHeader
            Copy fileList p w0 with
    | (p1, w1, None) =>
        archiveAll Lstat Readlink getpwuid_r getgrgid_r Open WriteHeader
          Copy more p1 w1
    | stopped => stopped
    end.
Proof.
  split.
  - revert p w0. induction fileList as [|path rest IH]; intros p w0.
    + exists []. cbn. now rewrite app_nil_r.
    + cbn [archiveAll].
      destruct (archiveFile_grows p path w0) as [out Hout].
      destruct (archive p path w0) as [[p1 w1] [e|]]; cbn [fst] in *.
      * exists out. exact Hout.
      * destruct (IH p1 w1) as [out' Hout'].
        exists (out ++ out'). rewrite Hout', Hout. now rewrite app_assoc.
  - revert p w0. induction fileList as [|path rest IH]; intros p w0.
    + reflexivity.
    + cbn [archiveAll app].
      destruct (archive p path w0) as [[p1 w1] [e|]]; [reflexivity|].
      apply IH.
Qed.

(** *** Before the archive *)

Lemma openOutputs_until_failure (good : list string) (bad : string)
    (rest : list string) (e : string) :
  Forall (fun p => OpenFile p = None) good ->
  OpenFile bad = Some e ->
  forall opened w0,
    openOutputs OpenFile (good ++ bad :: rest) opened w0
    = (opened ++ seq (length (files w0)) (length good),
       withFiles (files w0 ++ map (fun p => (p, [])) good) w0, Some e).
Proof.
  intros Hgood Hbad. induction Hgood as [|g good Hg _ IH]; intros opened w0.
  - cbn. rewrite Hbad, !app_nil_r. destruct w0; reflexivity.
  - cbn [app openOutputs]. rewrite Hg, IH. cbn [files withFiles].
    rewrite length_app. cbn [length map seq].
    rewrite Nat.add_1_r, <- !app_assoc. reflexivity.
Qed.

Lemma openOutputs_all (outPaths : list string) :
  Forall (fun p => OpenFile p = None) outPaths ->
  forall opened w0,
    openOutputs OpenFile outPaths opened w0
    = (opened ++ seq (length (files w0)) (length outPaths),
       withFiles (files w0 ++ map (fun p => (p, [])) outPaths) w0, None).
Proof.
  induction 1 as [|g good Hg _ IH]; intros opened w0.
  - cbn. rewrite !app_nil_r. destruct w0; reflexivity.
  - cbn [openOutputs]. rewrite Hg, IH. cbn [files withFiles].
    rewrite length_app. cbn [length map seq].
    rewrite Nat.add_1_r, <- !app_assoc. reflexivity.
Qed.

Lemma loadLists_eq (listPaths : list string) (w0 : World) :
  loadLists OpenList listPaths [] w0
  = (loadedFrom OpenList listPaths,
     logged (openFailures OpenList listPaths) w0, None).
Proof. now rewrite loadLists_from. Qed.

(** The output files are opened, and so created or emptied, in the order
    given and before anything is compiled: when one cannot be opened the
    run returns its error at once, the files opened before it stay
    empty, and the later ones are not touched. *)
Theorem output_that_cannot_be_opened (listPaths good : list string)
    (bad : string) (rest : list string) (e : string) (w0 : World)
    (Hgood : Forall (fun p => OpenFile p = None) good)
    (Hbad : OpenFile bad = Some e) :
  runBuild Match Glob Lstat Readlink getpwuid_r getgrgid_r OpenList OpenFile
    goHome Open NewWriter WriteHeader Copy CloseTar gzip
    listPaths (good ++ bad :: rest) w0
  = Done (withFiles (files w0 ++ map (fun p => (p, [])) good)
            (logged (openFailures OpenList listPaths) w0), Some e).
Proof.
  unfold runBuild. rewrite loadLists_eq.
  rewrite (openOutputs_until_failure _ Hgood Hbad).
  destruct (good ++ bad :: rest) eqn:E; [destruct good; discriminate|].
  reflexivity.
Qed.

(** When the home directory cannot be entered the run returns an error
    that says so, after the list files were read and every output file
    was created or emptied; nothing is compiled and nothing is written. *)
Theorem home_that_cannot_be_entered (listPaths outPaths : list string)
    (e : string) (w0 : World)
    (Hout : Forall (fun p => OpenFile p = None) outPaths)
    (Hhome : goHome = Some e) :
  runBuild Match Glob Lstat Readlink getpwuid_r getgrgid_r OpenList OpenFile
    goHome Open NewWriter WriteHeader Copy CloseTar gzip
    listPaths outPaths w0
  = Done (withFiles (files w0 ++ map (fun p => (p, [])) outPaths)
            (logged (openFailures OpenList listPaths) w0),
          Some ("Unable to chdir into home directory: " ++ e)%string).
Proof.
  unfold runBuild. rewrite loadLists_eq, Hhome.
  destruct outPaths as [|o ops].
  - destruct w0. unfold logged, withFiles, withStderr. cbn.
    now rewrite app_nil_r.
  - now rewrite (openOutputs_all Hout).
Qed.

(** When the list files give no stage, because none opens or none holds
    a marker line, the run still succeeds: it reports the files it could
    not open and writes the compression of an archive without entry. *)
Theorem no_stage_gives_an_empty_archive (listPaths : list string) (w0 : World)
    (Hnone : loadedFrom OpenList listPaths = [])
    (Hhome : goHome = None)
    (Hsink : sinkError w0 = None) :
  runBuild Match Glob Lstat Readlink getpwuid_r getgrgid_r OpenList OpenFile
    goHome Open NewWriter WriteHeader Copy CloseTar gzip listPaths [] w0
  = Done (withStdout (stdout w0 ++ gzip (CloseTar NewWriter))
            (logged (openFailures OpenList listPaths) w0), None).
Proof.
  unfold runBuild. rewrite loadLists_eq, Hhome, Hnone.
  cbn. unfold Write. cbn. now rewrite Hsink.
Qed.

End RunProperties.

(** ** The command line *)

(** [tryGetArg] answers the empty string for an index below zero or
    above [len(args)] and the argument for an index below [len(args)];
    at [len(args)] itself, the index one past the last argument, the
    bounds test lets the index through and the slice access panics. *)
Theorem tryGetArg_panics_one_past_the_end (args : list string) (index : Z) :
  (tryGetArg args index = Panic <-> index = Z.of_nat (length args))
  /\ ((index < 0 \/ Z.of_nat (length args) < index)%Z ->
      tryGetArg args index = Done "")
  /\ (forall n, index = Z.of_nat n -> n < length args ->
      tryGetArg args index = Done (nth n args "")).
Proof.
  unfold tryGetArg. repeat split.
  - destruct (index <? 0)%Z eqn:Hneg; [discriminate|].
    destruct (Z.of_nat (length args) <? index)%Z eqn:Hbig; [discriminate|].
    cbn. destruct (nth_error args (Z.to_nat index)) eqn:Hnth; [discriminate|].
    intros _. apply nth_error_None in Hnth.
    apply Z.ltb_ge in Hneg, Hbig. lia.
  - intros ->.
    replace (Z.of_nat (length args) <? 0)%Z with false
      by (symmetry; apply Z.ltb_ge; lia).
    rewrite Z.ltb_irrefl. cbn. rewrite Nat2Z.id.
    now replace (nth_error args (length args)) with (@None string)
      by (symmetry; apply nth_error_None; lia).
  - intros [Hneg|Hbig].
    + now replace (index <? 0)%Z with true by (symmetry; apply Z.ltb_lt; lia).
    + replace (Z.of_nat (length args) <? index)%Z with true
        by (symmetry; apply Z.ltb_lt; lia).
      now rewrite orb_true_r.
  - intros n -> Hn.
    replace (Z.of_nat n <? 0)%Z with false by (symmetry; apply Z.ltb_ge; lia).
    replace (Z.of_nat (length args) <? Z.of_nat n)%Z with false
      by (symmetry; apply Z.ltb_ge; lia).
    cbn. rewrite Nat2Z.id.
    destruct (nth_error args n) eqn:Hnth.
    + now rewrite (nth_error_nth _ _ _ Hnth).
    + apply nth_error_None in Hnth. lia.
Qed.

Lemma skipn_cons_nth (A : Type) (i : nat) (l : list A) (a : A) :
  nth_error l i = Some a -> skipn i l = a :: skipn (S i) l.
Proof.
  revert l. induction i as [|i IH]; intros [|x l] Hnth; try discriminate.
  - now injection Hnth as ->.
  - exact (IH l Hnth).
Qed.

Lemma tryGetArg_next (args : list string) (i : nat) (arg : string) :
  nth_error args i = Some arg ->
  tryGetArg args (Z.of_nat i + 1)
  = match skipn (S i) args with
    | [] => Panic
    | s :: _ => Done s
    end.
Proof.
  intros Hnth.
  assert (Hi : i < length args) by (apply nth_error_Some; congruence).
  unfold tryGetArg.
  replace (Z.of_nat i + 1)%Z with (Z.of_nat (S i)) by lia.
  replace (Z.of_nat (S i) <? 0)%Z with false by (symmetry; apply Z.ltb_ge; lia).
  replace (Z.of_nat (length args) <? Z.of_nat (S i))%Z with false
    by (symmetry; apply Z.ltb_ge; lia).
  cbn [orb]. rewrite Nat2Z.id.
  destruct (nth_error args (S i)) as [s|] eqn:Hnext.
  - now rewrite (skipn_cons_nth _ _ Hnext).
  - apply nth_error_None in Hnext. now rewrite skipn_all2.
Qed.

Lemma buildLoop_skipn (fuel : nat) :
  forall (args : list string) (i : nat) (listPaths outPaths : list string),
  length args <= i + fuel ->
  buildLoop fuel args i listPaths outPaths
  = readPairs (skipn i args) listPaths outPaths.
Proof.
  induction fuel as [|fuel IH]; intros args i listPaths outPaths Hfuel.
  - rewrite skipn_all2 by lia. reflexivity.
  - cbn [buildLoop].
    destruct (nth_error args i) as [arg|] eqn:Hnth.
    + rewrite (skipn_cons_nth _ _ Hnth). cbn [readPairs].
      rewrite (tryGetArg_next _ _ Hnth).
      assert (Hrest : match skipn (S i) args with
                      | [] => skipn (i + 2) args = []
                      | _ :: rest => skipn (i + 2) args = rest
                      end).
      { replace (i + 2) with (S (S i)) by lia.
        destruct (nth_error args (S i)) as [s|] eqn:Hnext.
        - rewrite (skipn_cons_nth _ _ Hnext). reflexivity.
        - apply nth_error_None in Hnext.
          rewrite (skipn_all2 (n := S i)) by lia.
          apply skipn_all2. lia. }
      destruct (isHelp arg); [reflexivity|].
      destruct (isList arg).
      { destruct (skipn (S i) args) as [|s rest]; [reflexivity|].
        destruct (s =? "")%string; [reflexivity|].
        rewrite IH by lia. now rewrite Hrest. }
      destruct (isOutput arg).
      { destruct (skipn (S i) args) as [|s rest]; [reflexivity|].
        destruct (s =? "")%string; [reflexivity|].
        rewrite IH by lia. now rewrite Hrest. }
      rewrite IH by lia.
      destruct (skipn (S i) args) as [|s rest]; now rewrite Hrest.
    + apply nth_error_None in Hnth. now rewrite skipn_all2.
Qed.

(** The index loop of [build], which steps by two and looks at
    [args[i+1]] through [tryGetArg], reads the arguments two by two: an
    option takes the argument after it as its value, any other argument
    is passed over together with the one after it, and an option that
    is the last argument makes the program panic. *)
Theorem buildLoop_reads_pairs (args listPaths outPaths : list string) :
  buildLoop (length args) args 0 listPaths outPaths
  = readPairs args listPaths outPaths.
Proof. now rewrite buildLoop_skipn by lia. Qed.

Lemma list_pairs_ind (A : Type) (P : list A -> Prop) :
  P [] -> (forall a, P [a]) -> (forall a b l, P l -> P (a :: b :: l)) ->
  forall l, P l.
Proof.
  intros Hnil Hone Hpair l.
  enough (H : P l /\ forall a, P (a :: l)) by apply H.
  induction l as [|b l [IH IH']]; split; auto.
Qed.

Lemma readPairs_app (pairs : list string) :
  Nat.even (length pairs) = true ->
  forall rest listPaths outPaths listPaths' outPaths',
  readPairs pairs listPaths outPaths = Done (Options listPaths' outPaths') ->
  readPairs (pairs ++ rest) listPaths outPaths
  = readPairs rest listPaths' outPaths'.
Proof.
  induction pairs as [|a|a b pairs IH] using list_pairs_ind;
    intros Heven rest listPaths outPaths listPaths' outPaths' Hpairs.
  - cbn in Hpairs. injection Hpairs as -> ->. reflexivity.
  - discriminate.
  - cbn [app readPairs] in *.
    destruct (isHelp a); [discriminate|].
    destruct (isList a).
    { destruct (b =? "")%string; [discriminate|]. now apply IH. }
    destruct (isOutput a).
    { destruct (b =? "")%string; [discriminate|]. now apply IH. }
    now apply IH.
Qed.

Lemma readPairs_rejected (args : list string) :
  forall listPaths outPaths e,
  readPairs args listPaths outPaths = Done (Rejected e) ->
  exists pairs flag rest listPaths' outPaths',
    args = pairs ++ flag :: "" :: rest /\
    Nat.even (length pairs) = true /\
    readPairs pairs listPaths outPaths = Done (Options listPaths' outPaths') /\
    isHelp flag = false /\
    (isList flag || isOutput flag) = true /\
    e = expectedArgument flag.
Proof.
  induction args as [|a|a b args IH] using list_pairs_ind;
    intros listPaths outPaths e Hread.
  - discriminate.
  - cbn in Hread.
    destruct (isHelp a); [discriminate|].
    destruct (isList a); [discriminate|].
    destruct (isOutput a); discriminate.
  - cbn [readPairs] in Hread.
    destruct (isHelp a) eqn:Hhelp; [discriminate|].
    assert (Hhere : (isList a || isOutput a) = true ->
              (b =? "")%string = true ->
              Done (Rejected (expectedArgument a)) = Done (Rejected e) ->
              exists pairs flag rest listPaths' outPaths',
                a :: b :: args = pairs ++ flag :: "" :: rest /\
                Nat.even (length pairs) = true /\
                readPairs pairs listPaths outPaths
                = Done (Options listPaths' outPaths') /\
                isHelp flag = false /\
                (isList flag || isOutput flag) = true /\
                e = expectedArgument flag).
    { intros Ha Hb H. injection H as <-. apply String.eqb_eq in Hb.
      subst b. exists [], a, args, listPaths, outPaths.
      repeat split; auto. }
    assert (Hlater : forall l o,
              readPairs args l o = Done (Rejected e) ->
              (forall pairs, readPairs (a :: b :: pairs) listPaths outPaths
                             = readPairs pairs l o) ->
              exists pairs flag rest listPaths' outPaths',
                a :: b :: args = pairs ++ flag :: "" :: rest /\
                Nat.even (length pairs) = true /\
                readPairs pairs listPaths outPaths
                = Done (Options listPaths' outPaths') /\
                isHelp flag = false /\
                (isList flag || isOutput flag) = true /\
                e = expectedArgument flag).
    { intros l o H Hstep.
      destruct (IH _ _ _ H)
        as [pairs [flag [rest [l' [o' [-> [Heven [Hp Hrest]]]]]]]].
      exists (a :: b :: pairs), flag, rest, l', o'.
      split; [reflexivity|]. split; [exact Heven|].
      split; [now rewrite Hstep|exact Hrest]. }
    destruct (isList a) eqn:Hl.
    { destruct (b =? "")%string eqn:Hb; [now apply Hhere|].
      apply (Hlater _ _ Hread). intros pairs. cbn [readPairs].
      now rewrite Hhelp, Hl, Hb. }
    destruct (isOutput a) eqn:Ho.
    { destruct (b =? "")%string eqn:Hb; [now apply Hhere|].
      apply (Hlater _ _ Hread). intros pairs. cbn [readPairs].
      now rewrite Hhelp, Hl, Ho, Hb. }
    apply (Hlater _ _ Hread). intros pairs. cbn [readPairs].
    now rewrite Hhelp, Hl, Ho.
Qed.

Lemma restoreLoop_outcomes (args : list string) :
  forall backupPath w0,
  restoreLoop args backupPath w0 = (w0, None)
  \/ restoreLoop args backupPath w0 = (println restoreHelp w0, None)
  \/ restoreLoop args backupPath w0 = (w0, Some (ExitError onlyOneBackup)).
Proof.
  induction args as [|arg rest IH]; intros backupPath w0; cbn.
  - now left.
  - destruct (isHelp arg); [right; now left|].
    destruct (backupPath =? "")%string; cbn; [apply IH|now do 2 right].
Qed.

Lemma restoreLoop_error (args : list string) (w0 : World) :
  forall backupPath,
  snd (restoreLoop args backupPath w0) = Some (ExitError onlyOneBackup)
  <-> exists j, j < length args
        /\ nth j (backupPath :: args) "" <> ""
        /\ Forall (fun arg => isHelp arg = false) (firstn (S j) args).
Proof.
  induction args as [|arg rest IH]; intros backupPath.
  - cbn. split; [discriminate|]. intros [j [Hj _]]. inversion Hj.
  - cbn [restoreLoop].
    destruct (isHelp arg) eqn:Hhelp.
    { cbn. split; [discriminate|].
      intros [j [_ [_ Hall]]]. cbn in Hall. inversion Hall. congruence. }
    destruct (backupPath =? "")%string eqn:Hpath; cbn [negb].
    + apply String.eqb_eq in Hpath. subst backupPath.
      rewrite IH. split.
      * intros [j [Hj [Hnth Hall]]]. exists (S j). repeat split.
        -- cbn. lia.
        -- exact Hnth.
        -- change (firstn (S (S j)) (arg :: rest))
             with (arg :: firstn (S j) rest).
           now constructor.
      * intros [[|j] [Hj [Hnth Hall]]]; [now contradiction Hnth|].
        exists j. repeat split.
        -- cbn in Hj. lia.
        -- exact Hnth.
        -- change (firstn (S (S j)) (arg :: rest))
             with (arg :: firstn (S j) rest) in Hall.
           now inversion Hall.
    + apply String.eqb_neq in Hpath. cbn. split; [|reflexivity].
      intros _. exists 0. repeat split.
      * cbn. lia.
      * exact Hpath.
      * cbn. now repeat constructor.
Qed.

(** [restore] restores nothing.  Whatever its arguments, it ends in one
    of three ways: it does nothing at all, it prints its help on
    standard output, or it refuses a second backup with exit code 1.
    No file is read or written in any of them. *)
Theorem restore_restores_nothing (args : list string) (w0 : World) :
  (restore args w0 = (w0, None)
   \/ restore args w0 = (println restoreHelp w0, None)
   \/ restore args w0 = (w0, Some (ExitError onlyOneBackup)))
  /\ files (fst (restore args w0)) = files w0
  /\ stderr (fst (restore args w0)) = stderr w0.
Proof.
  unfold restore.
  destruct (restoreLoop_outcomes args "" w0) as [H|[H|H]]; rewrite H;
    repeat split; auto.
Qed.

(** [restore] refuses its arguments exactly when, before any help
    flag, an argument that is not the empty string is followed by
    another argument.  An empty argument is forgotten: it may be
    followed by a backup path. *)
Theorem restore_refuses_a_second_backup (args : list string) (w0 : World) :
  snd (restore args w0) = Some (ExitError onlyOneBackup)
  <-> exists j, S j < length args
        /\ nth j args "" <> ""
        /\ Forall (fun arg => isHelp arg = false) (firstn (S (S j)) args).
Proof.
  unfold restore. rewrite restoreLoop_error. split.
  - intros [[|j] [Hj [Hnth Hall]]]; [now contradiction Hnth|].
    exists j. now repeat split.
  - intros [j [Hj [Hnth Hall]]]. exists (S j). repeat split; auto.
Qed.

Section CommandLineProperties.

Variable Match : string -> string -> bool.
Variable Glob : string -> list (string * node).
Variable Lstat : string -> option Stat_t.
Variable Readlink : string -> option string.
Variable getpwuid_r : Z -> option string.
Variable getgrgid_r : Z -> option string.
Variable OpenList : string -> listFile + string.
Variable OpenFile : string -> error.
Variable goHome : error.
Variable File : Type.
Variable Open : string -> File + string.
Variable TarWriter : Type.
Variable NewWriter : TarWriter.
Variable WriteHeader : TarWriter -> tar.Header -> TarWriter * list byte * error.
Variable Copy : TarWriter -> File -> TarWriter * list byte * error.
Variable CloseTar : TarWriter -> list byte.
Variable gzip : list byte -> list byte.

(** An option that is the last argument of [build], in an option
    position, does not give the message [Expected argument after]: the
    program panics on the slice access of [tryGetArg]. *)
Theorem build_panics_on_a_trailing_option
    (pairs : list string) (flag : string) (listPaths outPaths : list string)
    (w0 : World)
    (Heven : Nat.even (length pairs) = true)
    (Hpairs : readPairs pairs [] [] = Done (Options listPaths outPaths))
    (Hhelp : isHelp flag = false)
    (Hflag : (isList flag || isOutput flag) = true) :
  build Match Glob Lstat Readlink getpwuid_r getgrgid_r OpenList OpenFile
    goHome Open NewWriter WriteHeader Copy CloseTar gzip
    (pairs ++ [flag]) w0
  = Panic.
Proof.
  unfold build. rewrite buildLoop_skipn by lia. cbn [skipn].
  rewrite (readPairs_app _ Heven _ _ _ Hpairs). cbn. rewrite Hhelp.
  destruct (isList flag); [reflexivity|].
  destruct (isOutput flag); [reflexivity|discriminate].
Qed.

(** A help flag in an option position ends [build] at once: the
    options before it are dropped, no list file is read and no output
    file is created. *)
Theorem build_help_drops_the_options
    (pairs : list string) (flag : string) (rest : list string)
    (listPaths outPaths : list string) (w0 : World)
    (Heven : Nat.even (length pairs) = true)
    (Hpairs : readPairs pairs [] [] = Done (Options listPaths outPaths))
    (Hhelp : isHelp flag = true) :
  build Match Glob Lstat Readlink getpwuid_r getgrgid_r OpenList OpenFile
    goHome Open NewWriter WriteHeader Copy CloseTar gzip
    (pairs ++ flag :: rest) w0
  = Done (println buildHelp w0, None).
Proof.
  unfold build. rewrite buildLoop_skipn by lia. cbn [skipn].
  rewrite (readPairs_app _ Heven _ _ _ Hpairs). cbn. now rewrite Hhelp.
Qed.

(** [build] returns an [exitError] exactly when, after pairs of
    arguments read without incident, a list or output option in an
    option position is directly followed by the empty string as its
    value; the error is [Expected argument after] that option, with
    code 1, and nothing has happened by then. *)
Theorem build_rejects_only_an_empty_value
    (args : list string) (w0 w1 : World) (e : exitError) :
  build Match Glob Lstat Readlink getpwuid_r getgrgid_r OpenList OpenFile
    goHome Open NewWriter WriteHeader Copy CloseTar gzip args w0
  = Done (w1, Some (ExitError e))
  <-> w1 = w0 /\
      exists pairs flag rest listPaths outPaths,
        args = pairs ++ flag :: "" :: rest /\
        Nat.even (length pairs) = true /\
        readPairs pairs [] [] = Done (Options listPaths outPaths) /\
        isHelp flag = false /\
        (isList flag || isOutput flag) = true /\
        e = expectedArgument flag.
Proof.
  unfold build. rewrite buildLoop_skipn by lia. cbn [skipn]. split.
  - intros Hbuild.
    destruct (readPairs args [] []) as [[|e'|listPaths outPaths]|] eqn:Hread;
      try discriminate.
    + injection Hbuild as <- <-. split; [reflexivity|].
      exact (readPairs_rejected _ _ _ Hread).
    + destruct (runBuild _ _ _ _ _ _ _ _ _ _ _ _ _ _ _ _ _ _)
        as [[w [err|]]|]; discriminate.
  - intros [-> [pairs [flag [rest [listPaths [outPaths
             [-> [Heven [Hpairs [Hhelp [Hflag ->]]]]]]]]]]].
    rewrite (readPairs_app _ Heven _ _ _ Hpairs). cbn [readPairs].
    rewrite Hhelp.
    destruct (isList flag); [reflexivity|].
    destruct (isOutput flag); [reflexivity|discriminate].
Qed.



End CommandLineProperties.

(** ** Instances on the worked directory and the worked system *)

Lemma compileStages_then_includes_witness :
  exists front back,
    compileStages filepath.Match (filepath.Glob testDir) (firstn 2 testStages)
    = Done (front, None) /\
    compileStages filepath.Match (filepath.Glob testDir) (skipn 2 testStages)
    = Done (back, None) /\
    compileStages filepath.Match (filepath.Glob testDir)
      (firstn 2 testStages ++ skipn 2 testStages)
    = Done (front ++ back, None).
Proof.
  apply (@compileStages_then_includes filepath.Match (filepath.Glob testDir)
           (firstn 2 testStages) (skipn 2 testStages)).
  repeat constructor.
Defined.

Lemma leading_excludes_have_no_effect_witness :
  compileStages filepath.Match (filepath.Glob testDir)
    ([ {| include := false; source := "backup.list";
          rules := [{| glob := "secret.txt"; line := 2 |}] |} ]
     ++ [ {| include := true; source := "backup.list";
             rules := [{| glob := "*.txt"; line := 4 |}] |} ])
  = compileStages filepath.Match (filepath.Glob testDir)
      [ {| include := true; source := "backup.list";
           rules := [{| glob := "*.txt"; line := 4 |}] |} ].
Proof.
  apply (@leading_excludes_have_no_effect filepath.Match
           (filepath.Glob testDir)).
  repeat constructor.
Defined.

Lemma include_only_selects_all_witness :
  exists selection,
    compileStages filepath.Match (filepath.Glob testDir) (firstn 1 testStages)
    = Done (selection, None) /\
    forall wpath,
      In wpath selection <->
      exists stage rule root n m,
        In stage (firstn 1 testStages) /\ In rule (rules stage) /\
        In (root, n) (filepath.Glob testDir (glob rule)) /\
        reaches filepath.Match [] root n wpath m /\
        os.IsDir (lstat m) = false /\
        skipFileType (lstat m) = false.
Proof.
  apply (@include_only_selects_all filepath.Match (filepath.Glob testDir)
           (firstn 1 testStages)).
  repeat constructor.
Defined.

Lemma exclude_stage_only_removes_witness :
  exists with_s without_s,
    compileStages filepath.Match (filepath.Glob testDir)
      (firstn 1 testStages
       ++ {| include := false; source := "backup.list";
             rules := [{| glob := "secret.txt"; line := 4 |}] |} :: [])
    = Done (with_s, None) /\
    compileStages filepath.Match (filepath.Glob testDir)
      (firstn 1 testStages ++ [])
    = Done (without_s, None) /\
    forall wpath, In wpath with_s -> In wpath without_s.
Proof.
  apply (@exclude_stage_only_removes filepath.Match (filepath.Glob testDir)
           (firstn 1 testStages) []).
  reflexivity.
Defined.

Lemma kept_entry_header_type_witness :
  tarTypeOf (nodeMode (regularFile "a.txt"))
  = if (Z.land (nodeMode (regularFile "a.txt")) unix.S_IFMT =? unix.S_IFLNK)%Z
    then tar.TypeSymlink else tar.TypeReg.
Proof.
  apply (@kept_entry_header_type (regularFile "a.txt"));
    vm_compute; reflexivity.
Defined.

Lemma passphrases_with_the_same_key_witness :
  padPassword ("hunter2" ++ string_of_list_byte (repeat Byte.x00 3))
  = padPassword "hunter2".
Proof.
  destruct passphrases_with_the_same_key as [_ Hzero].
  apply (Hzero "hunter2" 3). cbn. lia.
Defined.

Lemma setupCryptoStream_succeeds_witness :
  exists mw w1,
    setupCryptoStream Stdout passphraseWorld = (w1, inl mw) /\
    terminal w1 = [] /\ entropy w1 = [] /\
    stdout w1
    = stdout (deliver Stdout sixteenBytes
                (ioCombo_Write (list_byte_of_string lineEnd)
                   (ioCombo_Write (list_byte_of_string "Password: ")
                      passphraseWorld))) /\
    files w1 = files (deliver Stdout sixteenBytes passphraseWorld) /\
    stderr w1 = stderr passphraseWorld /\
    w mw = {| S_key := list_byte_of_string (padPassword "hunter2");
              S_iv := sixteenBytes; W := Stdout |}.
Proof.
  apply (@setupCryptoStream_succeeds Stdout passphraseWorld "hunter2" []
           sixteenBytes []); reflexivity.
Defined.

Lemma setupCryptoStream_fails_witness :
  exists w1 reason,
    setupCryptoStream Stdout quietWorld = (w1, inr reason) /\
    stdout w1 = list_byte_of_string "Password: ".
Proof.
  destruct (setupCryptoStream_fails Stdout quietWorld) as [[_ Hfails] Hout].
  destruct Hfails as [w1 [reason H]].
  - left. intros entered t. discriminate.
  - exists w1, reason. split; [exact H|].
    destruct (Hout w1 reason H) as [Hstdout _]. rewrite Hstdout.
    reflexivity.
Defined.

Lemma Close_zeroes_the_writer_slice_only_witness :
  exists older,
    heap keyedWorld
    = heap passphraseWorld ++ older
      ++ [SliceBuf (list_byte_of_string (padPassword "hunter2"))] /\
    In (StringBuf "hunter2") older /\
    In (SliceBuf (list_byte_of_string (padPassword "hunter2"))) older /\
    managedWriter_Close keyedWriter keyedWorld
    = (withHeap (heap passphraseWorld ++ older
                 ++ [SliceBuf (repeat Byte.x00 32)]) keyedWorld, None) /\
    managedWriter_Close keyedWriter
      (withHeap (heap passphraseWorld ++ older
                 ++ [SliceBuf (repeat Byte.x00 32)]) keyedWorld)
    = (withHeap (heap passphraseWorld ++ older
                 ++ [SliceBuf (repeat Byte.x00 32)]) keyedWorld, None).
Proof.
  apply (@Close_zeroes_the_writer_slice_only Stdout passphraseWorld keyedWorld
           "hunter2" [] keyedWriter).
  - reflexivity.
  - vm_compute. reflexivity.
Defined.

Lemma output_that_cannot_be_opened_witness :
  runBuild filepath.Match (filepath.Glob testDir) sampleLstat noReadlink
    unknownId unknownId sampleOpenList sampleOpenFile None sampleOpen tt
    sampleWriteHeader failingCopy noTar noGzip
    ["backup.list"] (["first.tgz"] ++ "locked" :: ["last.tgz"]) quietWorld
  = Done (withFiles (files quietWorld
                     ++ map (fun p => (p, [])) ["first.tgz"])
            (logged (openFailures sampleOpenList ["backup.list"]) quietWorld),
          Some "permission denied").
Proof.
  apply (@output_that_cannot_be_opened filepath.Match (filepath.Glob testDir)
           sampleLstat noReadlink unknownId unknownId sampleOpenList
           sampleOpenFile None _ sampleOpen _ tt sampleWriteHeader failingCopy
           noTar noGzip ["backup.list"] ["first.tgz"] "locked" ["last.tgz"]
           "permission denied" quietWorld).
  - repeat constructor.
  - reflexivity.
Defined.

Lemma home_that_cannot_be_entered_witness :
  runBuild filepath.Match (filepath.Glob testDir) sampleLstat noReadlink
    unknownId unknownId sampleOpenList sampleOpenFile
    (Some "user: Current not implemented") sampleOpen tt
    sampleWriteHeader failingCopy noTar noGzip
    ["missing.list"] ["first.tgz"] quietWorld
  = Done (withFiles (files quietWorld
                     ++ map (fun p => (p, [])) ["first.tgz"])
            (logged (openFailures sampleOpenList ["missing.list"])
                    quietWorld),
          Some ("Unable to chdir into home directory: "
                ++ "user: Current not implemented")%string).
Proof.
  apply (@home_that_cannot_be_entered filepath.Match (filepath.Glob testDir)
           sampleLstat noReadlink unknownId unknownId sampleOpenList
           sampleOpenFile (Some "user: Current not implemented") _ sampleOpen
           _ tt sampleWriteHeader failingCopy noTar noGzip
           ["missing.list"] ["first.tgz"] "user: Current not implemented"
           quietWorld).
  - repeat constructor.
  - reflexivity.
Defined.

Lemma no_stage_gives_an_empty_archive_witness :
  runBuild filepath.Match (filepath.Glob testDir) sampleLstat noReadlink
    unknownId unknownId sampleOpenList sampleOpenFile None sampleOpen tt
    sampleWriteHeader failingCopy noTar noGzip
    ["missing.list"] [] quietWorld
  = Done (withStdout (stdout quietWorld ++ noGzip (noTar tt))
            (logged (openFailures sampleOpenList ["missing.list"])
                    quietWorld), None).
Proof.
  apply (@no_stage_gives_an_empty_archive filepath.Match
           (filepath.Glob testDir) sampleLstat noReadlink unknownId unknownId
           sampleOpenList sampleOpenFile None _ sampleOpen _ tt
           sampleWriteHeader failingCopy noTar noGzip
           ["missing.list"] quietWorld); reflexivity.
Defined.

Lemma tryGetArg_panics_one_past_the_end_witness :
  tryGetArg ["-l"] 1 = Panic.
Proof.
  destruct (tryGetArg_panics_one_past_the_end ["-l"] 1) as [[_ Hpanic] _].
  apply Hpanic. reflexivity.
Defined.

Lemma restore_refuses_a_second_backup_witness :
  snd (restore ["monday.tgz"; "tuesday.tgz"] quietWorld)
  = Some (ExitError onlyOneBackup).
Proof.
  apply (restore_refuses_a_second_backup ["monday.tgz"; "tuesday.tgz"]
           quietWorld).
  exists 0. repeat split.
  - cbn. lia.
  - discriminate.
  - repeat constructor.
Defined.

Lemma build_panics_on_a_trailing_option_witness :
  build filepath.Match (filepath.Glob testDir) sampleLstat noReadlink
    unknownId unknownId sampleOpenList sampleOpenFile None sampleOpen tt
    sampleWriteHeader failingCopy noTar noGzip
    (["-o"; "first.tgz"] ++ ["-l"]) quietWorld
  = Panic.
Proof.
  apply (@build_panics_on_a_trailing_option filepath.Match
           (filepath.Glob testDir) sampleLstat noReadlink unknownId unknownId
           sampleOpenList sampleOpenFile None _ sampleOpen _ tt
           sampleWriteHeader failingCopy noTar noGzip
           ["-o"; "first.tgz"] "-l" [] ["first.tgz"] quietWorld);
    reflexivity.
Defined.

Lemma build_help_drops_the_options_witness :
  build filepath.Match (filepath.Glob testDir) sampleLstat noReadlink
    unknownId unknownId sampleOpenList sampleOpenFile None sampleOpen tt
    sampleWriteHeader failingCopy noTar noGzip
    (["-o"; "first.tgz"] ++ "--help" :: ["-l"]) quietWorld
  = Done (println buildHelp quietWorld, None).
Proof.
  apply (@build_help_drops_the_options filepath.Match
           (filepath.Glob testDir) sampleLstat noReadlink unknownId unknownId
           sampleOpenList sampleOpenFile None _ sampleOpen _ tt
           sampleWriteHeader failingCopy noTar noGzip
           ["-o"; "first.tgz"] "--help" ["-l"] [] ["first.tgz"] quietWorld);
    reflexivity.
Defined.

Lemma build_rejects_only_an_empty_value_witness :
  build filepath.Match (filepath.Glob testDir) sampleLstat noReadlink
    unknownId unknownId sampleOpenList sampleOpenFile None sampleOpen tt
    sampleWriteHeader failingCopy noTar noGzip
    (["-o"; "first.tgz"] ++ "--list" :: "" :: ["-o"; "last.tgz"]) quietWorld
  = Done (quietWorld, Some (ExitError (expectedArgument "--list"))).
Proof.
  apply (@build_rejects_only_an_empty_value filepath.Match
           (filepath.Glob testDir) sampleLstat noReadlink unknownId unknownId
           sampleOpenList sampleOpenFile None _ sampleOpen _ tt
           sampleWriteHeader failingCopy noTar noGzip
           (["-o"; "first.tgz"] ++ "--list" :: "" :: ["-o"; "last.tgz"])
           quietWorld quietWorld (expectedArgument "--list")).
  split; [reflexivity|].
  exists ["-o"; "first.tgz"], "--list", ["-o"; "last.tgz"], [], ["first.tgz"].
  repeat split.
Defined.

